(** * voilab-image: geometry planning and batch upload

    A shallow embedding of [src/voilab-image.js]: the four geometry
    functions ([getCropDimensions], [adaptDimensions],
    [getDimensionsWidthMax], [getDimensionsHeightMax]) and the [upload]
    operation that fans one task per configured file out to
    [async.parallelLimit].

    JavaScript numbers are IEEE 754 binary64 values.  They are modelled
    by their exact rational value together with [NaN] and the two
    infinities; every arithmetic operation computes the exact rational
    result and rounds it to the nearest binary64 value (ties to even),
    which is how IEEE 754 defines [*], [/] and [+].  The sign of zero is
    not tracked: in the functions below a divisor is an image dimension,
    a target dimension or the quotient of two image dimensions, none of
    which can be a negative zero. *)

From Stdlib Require Import ZArith QArith Qround Qabs Qpower Qreduction.
From Stdlib Require Import Lia Lqa Bool List String Ascii.
From Stdlib Require Import SpecFloat.
From stdpp Require Import base gmap strings.

Import ListNotations.
Local Open Scope Z_scope.

(** ** JavaScript numbers *)

Module JS.

Local Open Scope Q_scope.

Inductive number : Type :=
| NaN
| Inf (negative : bool)
| Fin (q : Q).

Definition prec : Z := 53%Z.
Definition emin : Z := (-1074)%Z.
Definition emax : Z := 1024%Z.

Definition two_pow (e : Z) : Q := Qpower (2 # 1) e.

(** [flog2 q] is the integer [k] with [2^k <= |q| < 2^(k+1)], for [q]
    different from zero. *)
Definition flog2 (q : Q) : Z :=
  let n := Z.abs (Qnum q) in
  let k := (Z.log2 n - Z.log2 (Zpos (Qden q)))%Z in
  if Qle_bool (two_pow k) (Qabs q) then k else (k - 1)%Z.

(** Round to the nearest integer, ties to the even one. *)
Definition rne (q : Q) : Z :=
  let f := Qfloor q in
  match Qcompare (q - inject_Z f) (1 # 2) with
  | Lt => f
  | Gt => (f + 1)%Z
  | Eq => if Z.even f then f else (f + 1)%Z
  end.

(** The exponent of the binary64 format at [q]: 53 significant bits,
    the smallest exponent being that of the subnormal numbers. *)
Definition cexp (q : Q) : Z := Z.max (flog2 q - (prec - 1))%Z emin.

(** [b64 q] is the binary64 value nearest to the rational [q]. *)
Definition b64 (q : Q) : number :=
  let q := Qred q in
  if Qeq_bool q 0 then Fin 0
  else
    let e := cexp q in
    let v := inject_Z (rne (q / two_pow e)) * two_pow e in
    if Qle_bool (two_pow emax) (Qabs v) then Inf (Qnum q <? 0)%Z
    else Fin (Qred v).

(** The unit roundoff of binary64, [2^-53]. *)
Definition eps : Q := 1 # 9007199254740992.

Definition of_Z (z : Z) : number := b64 (inject_Z z).
Definition of_N (n : N) : number := of_Z (Z.of_N n).

Definition is_zero (q : Q) : bool := Qeq_bool q 0.
Definition is_neg (q : Q) : bool := (Qnum q <? 0)%Z.

(** [x * y] *)
Definition mul (x y : number) : number :=
  match x, y with
  | NaN, _ | _, NaN => NaN
  | Inf s, Inf t => Inf (xorb s t)
  | Inf s, Fin q | Fin q, Inf s =>
      if is_zero q then NaN else Inf (xorb s (is_neg q))
  | Fin p, Fin q => b64 (p * q)
  end.

(** [x / y] *)
Definition div (x y : number) : number :=
  match x, y with
  | NaN, _ | _, NaN => NaN
  | Inf _, Inf _ => NaN
  | Inf s, Fin q => Inf (xorb s (is_neg q))
  | Fin _, Inf _ => Fin 0
  | Fin p, Fin q =>
      if is_zero q then (if is_zero p then NaN else Inf (is_neg p))
      else b64 (p / q)
  end.

(** [x + y] *)
Definition add (x y : number) : number :=
  match x, y with
  | NaN, _ | _, NaN => NaN
  | Inf s, Inf t => if eqb s t then Inf s else NaN
  | Inf s, Fin _ | Fin _, Inf s => Inf s
  | Fin p, Fin q => b64 (p + q)
  end.

(** [x - y] *)
Definition sub (x y : number) : number :=
  match x, y with
  | NaN, _ | _, NaN => NaN
  | Inf s, Inf t => if eqb s t then NaN else Inf s
  | Inf s, Fin _ => Inf s
  | Fin _, Inf s => Inf (negb s)
  | Fin p, Fin q => b64 (p - q)
  end.

(** [0 | x]: the integer part, wrapped into 32 bits. *)
Definition to_int32 (x : number) : number :=
  match x with
  | Fin q =>
      let t := Z.quot (Qnum q) (Zpos (Qden q)) in
      Fin (inject_Z ((t + 2 ^ 31) mod 2 ^ 32 - 2 ^ 31)%Z)
  | _ => Fin 0
  end.

(** [x < y]; a comparison with [NaN] is false. *)
Definition lt (x y : number) : bool :=
  match x, y with
  | NaN, _ | _, NaN => false
  | Inf s, Inf t => s && negb t
  | Inf s, Fin _ => s
  | Fin _, Inf t => negb t
  | Fin p, Fin q => negb (Qle_bool q p)
  end.

(** [x <= y] *)
Definition le (x y : number) : bool :=
  match x, y with
  | NaN, _ | _, NaN => false
  | Inf s, Inf t => s || negb t
  | Inf s, Fin _ => s
  | Fin _, Inf t => negb t
  | Fin p, Fin q => Qle_bool p q
  end.

Definition gt (x y : number) : bool := lt y x.
Definition ge (x y : number) : bool := le y x.

(** [Math.round]: the nearest integer, a tie going towards +Infinity. *)
Definition round (x : number) : number :=
  match x with
  | Fin q => Fin (inject_Z (Qfloor (q + (1 # 2))))
  | _ => x
  end.

(** [Math.max] of two numbers. *)
Definition max (x y : number) : number :=
  match x, y with
  | NaN, _ | _, NaN => NaN
  | _, _ => if lt x y then y else x
  end.

(** Truthiness of a number: [0] and [NaN] are falsy. *)
Definition truthy (x : number) : bool :=
  match x with
  | NaN => false
  | Inf _ => true
  | Fin q => negb (is_zero q)
  end.

End JS.

(** ** Agreement with the Standard Library's IEEE 754 specification

    [SpecFloat] defines the binary64 operations on sign, mantissa and
    exponent.  [of_spec] reads such a value as a [JS.number]; the
    examples after the definitions compare the two on the operations the
    geometry functions perform. *)

Module Spec64.

Local Open Scope Q_scope.

Definition of_spec (f : spec_float) : JS.number :=
  match f with
  | S754_zero _ => JS.Fin 0
  | S754_infinity s => JS.Inf s
  | S754_nan => JS.NaN
  | S754_finite s m e =>
      JS.Fin (Qred (inject_Z (if s then Zneg m else Zpos m) * JS.two_pow e))
  end.

Definition lit (z : Z) : spec_float :=
  binary_normalize JS.prec JS.emax z 0 false.

Definition sdiv (x y : spec_float) : spec_float := SFdiv JS.prec JS.emax x y.
Definition smul (x y : spec_float) : spec_float := SFmul JS.prec JS.emax x y.

Definition same (x y : JS.number) : bool :=
  match x, y with
  | JS.NaN, JS.NaN => true
  | JS.Inf s, JS.Inf t => eqb s t
  | JS.Fin p, JS.Fin q => Qeq_bool p q
  | _, _ => false
  end.

(** [a / b], [c * (a / b)] and [c / (a / b)], the computations of
    [getCropDimensions], and [a * c / b], that of the other functions,
    in both models. *)
Definition agree (a b c : Z) : bool :=
  let ratio := JS.div (JS.of_Z a) (JS.of_Z b) in
  let sratio := sdiv (lit a) (lit b) in
  same ratio (of_spec sratio)
  && same (JS.mul (JS.of_Z c) ratio) (of_spec (smul (lit c) sratio))
  && same (JS.div (JS.of_Z c) ratio) (of_spec (sdiv (lit c) sratio))
  && same (JS.div (JS.mul (JS.of_Z a) (JS.of_Z c)) (JS.of_Z b))
          (of_spec (sdiv (smul (lit a) (lit c)) (lit b))).

(** The integers [0, 1, ..., n - 1]. *)
Definition upto (n : nat) : list Z := List.map Z.of_nat (List.seq 0 n).

Definition agree_upto (n : nat) : bool :=
  List.forallb
    (fun a => List.forallb
      (fun b => List.forallb (fun c => agree a b c) (upto n)) (upto n))
    (upto n).

(** Pixel counts below [2^24] drawn by a linear congruential
    generator. *)
Definition next (x : Z) : Z := ((x * 1103515245 + 12345) mod 2 ^ 31)%Z.

Definition pixel_count (x : Z) : Z := (1 + (x / 64) mod (2 ^ 24 - 1))%Z.

Fixpoint draws (n : nat) (seed : Z) : list (Z * Z * Z) :=
  match n with
  | O => []
  | S n =>
      let a := next seed in
      let b := next a in
      let c := next b in
      (pixel_count a, pixel_count b, pixel_count c) :: draws n c
  end.

Definition agree_draws (n : nat) (seed : Z) : bool :=
  List.forallb (fun '(a, b, c) => agree a b c) (draws n seed).

End Spec64.

(** ** Geometry functions *)

(** The image handle of the codec: [image.width()] and [image.height()]
    are pixel counts. *)
Record Image : Type := { pixel_width : N; pixel_height : N }.

Definition image_width (image : Image) : JS.number := JS.of_N (pixel_width image).
Definition image_height (image : Image) : JS.number := JS.of_N (pixel_height image).

Module Dim.
Record t : Type := { width : JS.number; height : JS.number }.
End Dim.

Abbreviation Dimensions := Dim.t.

Definition getCropDimensions (image : Image) (width height : JS.number) : Dimensions :=
  let ratio_img := JS.div (image_width image) (image_height image) in
  let ratio_crop := JS.div width height in
  let '(w, h) :=
    if JS.gt ratio_img ratio_crop then
      let h := height in
      let w := JS.mul h ratio_img in
      (w, h)
    else
      let w := width in
      let h := JS.div w ratio_img in
      (w, h) in
  {| Dim.width := JS.round w; Dim.height := JS.round h |}.

Definition adaptDimensions (image : Image) (width height : JS.number) : Dimensions :=
  let container_ratio := JS.div width height in
  let img_ratio := JS.div (image_width image) (image_height image) in
  let '(width, height) :=
    if JS.gt container_ratio img_ratio then
      let '(width, height) :=
        if JS.lt (image_height image) height
        then (image_width image, image_height image)
        else (width, height) in
      let width :=
        if JS.gt (image_height image) height
        then JS.div (JS.mul (image_width image) height) (image_height image)
        else width in
      (width, height)
    else
      let '(width, height) :=
        if JS.lt (image_width image) width
        then (image_width image, image_height image)
        else (width, height) in
      let height :=
        if JS.ge (image_width image) width
        then JS.div (JS.mul (image_height image) width) (image_width image)
        else height in
      (width, height) in
  {| Dim.width := JS.round width; Dim.height := JS.round height |}.

Definition getDimensionsWidthMax (image : Image) (width : JS.number) : Dimensions :=
  let height := JS.div (JS.mul (image_height image) width) (image_width image) in
  let '(width, height) :=
    if JS.gt height (image_height image)
    then (image_width image, image_height image)
    else (width, height) in
  {| Dim.width := JS.round width; Dim.height := JS.round height |}.

Definition getDimensionsHeightMax (image : Image) (height : JS.number) : Dimensions :=
  let width := JS.div (JS.mul (image_width image) height) (image_height image) in
  let '(width, height) :=
    if JS.gt width (image_width image)
    then (image_width image, image_height image)
    else (width, height) in
  {| Dim.width := JS.round width; Dim.height := JS.round height |}.

(** The lengths the properties below are stated for: pixel counts
    below [2^24], on which the products the functions form are exact. *)
Definition pixels (z : Z) : Prop := (0 < z < 2 ^ 24)%Z.

(** ** Configuration *)

(** The value of [c.adapt]: a boolean, a number or an object with
    optional [width] and [height]. *)
Inductive Adapt : Type :=
| AdaptBoolean (b : bool)
| AdaptNumber (n : Z)
| AdaptObject (w h : option Z).

(** One entry of [config.files]. *)
Module File.
Record t : Type := {
  format : option string;
  name : string;
  key : option string;
  width : option Z;
  height : option Z;
  top : option Z;
  left : option Z;
  crop : bool;
  adapt : option Adapt;
  omitExtension : bool;
  colorPad : option string
}.
End File.

(** [config.files] is [undefined], a value that is not an array, or an
    array. *)
Inductive Files : Type :=
| FilesUndefined
| FilesNotArray
| FilesArray (files : list File.t).

Module Config.
Record t : Type := {
  format : option string;
  omitExtension : bool;
  colorPad : option string;
  files : Files
}.
End Config.

(** The [source] argument: a path, an uploaded file as Multer hands it
    over, or nothing. *)
Inductive Source : Type :=
| SourcePath (path : string)
| SourceUpload (mimetype : option string) (buffer : list Byte.byte)
| SourceMissing.

(** ** Strings *)

(** [s.split(sep)] *)
Fixpoint split (sep : ascii) (s : string) : list string :=
  match s with
  | EmptyString => [EmptyString]
  | String c r =>
      if Ascii.eqb c sep then EmptyString :: split sep r
      else match split sep r with
           | seg :: segs => String c seg :: segs
           | [] => [String c EmptyString]
           end
  end.

(** [a.pop()] on a list of strings; [undefined] is read as the empty
    string, both being falsy. *)
Definition pop (a : list string) : string := List.last a EmptyString.

Fixpoint drop_chars (n : nat) (s : string) : string :=
  match n, s with
  | O, _ => s
  | S n, String _ r => drop_chars n r
  | S _, EmptyString => EmptyString
  end.

(** [s.replace(pat, '')]: the first occurrence of [pat] is removed. *)
Fixpoint remove_first (pat s : string) : string :=
  if String.prefix pat s then drop_chars (String.length pat) s
  else match s with
       | EmptyString => EmptyString
       | String c r => String c (remove_first pat r)
       end.

(** [a || b] on strings that may be [undefined]. *)
Definition or_string (a : option string) (b : string) : string :=
  match a with
  | Some (String c r) => String c r
  | _ => b
  end.

(** ** The transformations queued on the codec's batch *)

(** A value handed to the codec: a number, [false], or an object. *)
Inductive Value : Type :=
| VNumber (n : JS.number)
| VBoolean (b : bool)
| VObject (w h : option Z).

Abbreviation VFalse := (VBoolean false).

Definition to_number (v : Value) : JS.number :=
  match v with
  | VNumber n => n
  | VBoolean b => if b then JS.Fin 1 else JS.Fin 0
  | VObject _ _ => JS.NaN
  end.

Definition value_truthy (v : Value) : bool :=
  match v with
  | VNumber n => JS.truthy n
  | VBoolean b => b
  | VObject _ _ => true
  end.

(** [x || false] for an optional integer [x]. *)
Definition or_false (x : option Z) : Value :=
  match x with
  | Some z => if JS.truthy (JS.of_Z z) then VNumber (JS.of_Z z) else VFalse
  | None => VFalse
  end.

(** [x || 0] for an optional integer [x]. *)
Definition or_zero (x : option Z) : JS.number :=
  match x with
  | Some z => if JS.truthy (JS.of_Z z) then JS.of_Z z else JS.Fin 0
  | None => JS.Fin 0
  end.

Inductive Op : Type :=
| Contain (w h : Value) (color : string)
| Resize (w h : JS.number)
| CropRect (l t r b : JS.number)
| CropSize (w h : Value).

Definition adapt_truthy (a : option Adapt) : bool :=
  match a with
  | None => false
  | Some (AdaptBoolean b) => b
  | Some (AdaptNumber n) => JS.truthy (JS.of_Z n)
  | Some (AdaptObject _ _) => true
  end.

Definition adapt_value (a : option Adapt) : Value :=
  match a with
  | None => VFalse
  | Some (AdaptBoolean b) => VBoolean b
  | Some (AdaptNumber n) => VNumber (JS.of_Z n)
  | Some (AdaptObject w h) => VObject w h
  end.

(** [c.width || false], [c.height || false], [c.top || 0] and
    [c.left || 0]. *)
Definition file_width (c : File.t) : Value := or_false (File.width c).
Definition file_height (c : File.t) : Value := or_false (File.height c).
Definition crop_top (c : File.t) : JS.number := or_zero (File.top c).
Definition crop_left (c : File.t) : JS.number := or_zero (File.left c).

(** [c.colorPad || config.colorPad || 'white'] *)
Definition color_pad (config : Config.t) (c : File.t) : string :=
  or_string (File.colorPad c) (or_string (Config.colorPad config) "white").

(** The first half of the branch [if (width || height)]: the image is
    contained, or resized to the dimensions one of the geometry
    functions returns. *)
Definition resize_pass (config : Config.t) (c : File.t) (image : Image) : list Op :=
  let width := file_width c in
  let height := file_height c in
  let colorPad := color_pad config c in
  if value_truthy width && value_truthy height then
    if File.crop c then
      if adapt_truthy (File.adapt c) then
        match File.adapt c with
        | Some (AdaptObject (Some aw) (Some ah)) =>
            if JS.truthy (JS.of_Z aw) && JS.truthy (JS.of_Z ah)
            then [Contain (VNumber (JS.of_Z aw)) (VNumber (JS.of_Z ah)) colorPad]
            else [Contain (adapt_value (File.adapt c)) (adapt_value (File.adapt c)) colorPad]
        | Some (AdaptBoolean _) =>
            let m := JS.max (to_number width) (to_number height) in
            [Contain (VNumber m) (VNumber m) colorPad]
        | _ => [Contain (adapt_value (File.adapt c)) (adapt_value (File.adapt c)) colorPad]
        end
      else
        let dim := getCropDimensions image (to_number width) (to_number height) in
        [Resize (Dim.width dim) (Dim.height dim)]
    else
      let dim := adaptDimensions image (to_number width) (to_number height) in
      [Resize (Dim.width dim) (Dim.height dim)]
  else
    let dim :=
      if negb (value_truthy height)
      then getDimensionsWidthMax image (to_number width)
      else getDimensionsHeightMax image (to_number height) in
    [Resize (Dim.width dim) (Dim.height dim)].

(** The second half: [if (c.crop) { ... }]. *)
Definition crop_pass (c : File.t) : list Op :=
  let width := file_width c in
  let height := file_height c in
  if File.crop c then
    if JS.gt (crop_top c) (JS.Fin 0) || JS.gt (crop_left c) (JS.Fin 0)
    then [CropRect (crop_left c) (crop_top c)
                   (JS.add (crop_left c) (to_number width))
                   (JS.add (crop_top c) (to_number height))]
    else [CropSize width height]
  else [].

(** The body of the task between [lwip.open] and [batch.toBuffer]: the
    operations queued on [image.batch()], in order. *)
Definition transformations (config : Config.t) (c : File.t) (image : Image) : list Op :=
  if value_truthy (file_width c) || value_truthy (file_height c)
  then resize_pass config c image ++ crop_pass c
  else [].

(** *** What the codec does with a crop

    [crop(left, top, right, bottom)] takes the rectangle with these
    corners; [crop(width, height)] takes a rectangle of that size from
    the centre of the image, which is what the documentation of
    [upload] announces for a file without [top] and [left] ("le crop est
    centré si omis").  The offsets of the centred rectangle are
    [0 | (size.width - width) / 2] and [0 | (size.height - height) / 2]. *)

(** The canvas the crop works on: the size the operations before it
    leave. *)
Definition canvas (image : Image) (ops : list Op) : Dimensions :=
  fold_left
    (fun size op =>
       match op with
       | Contain w h _ => {| Dim.width := to_number w; Dim.height := to_number h |}
       | Resize w h => {| Dim.width := w; Dim.height := h |}
       | CropRect _ _ _ _ | CropSize _ _ => size
       end)
    ops
    {| Dim.width := image_width image; Dim.height := image_height image |}.

Definition centred (size length : JS.number) : JS.number :=
  JS.to_int32 (JS.div (JS.sub size length) (JS.Fin 2)).

(** The left and top offsets of the rectangle a crop takes. *)
Definition crop_offsets (size : Dimensions) (op : Op) : option (JS.number * JS.number) :=
  match op with
  | CropRect l t _ _ => Some (l, t)
  | CropSize w h =>
      Some (centred (Dim.width size) (to_number w),
            centred (Dim.height size) (to_number h))
  | _ => None
  end.

(** Whether the rectangle of a four-argument crop lies within the
    canvas. *)
Definition within_canvas (size : Dimensions) (op : Op) : bool :=
  match op with
  | CropRect l t r b =>
      JS.ge l (JS.Fin 0) && JS.ge t (JS.Fin 0)
      && JS.le r (Dim.width size) && JS.le b (Dim.height size)
  | _ => false
  end.

(** ** The task of one file *)

Inductive Error : Type := MkError (message : string).

Definition no_type_error : Error :=
  MkError "Image doesn't have any type (jpg, png, etc.)!".

Definition no_files_error : Error :=
  MkError "Image upload configuration must contain a 'files' array.".

(** The entry stored in [images] for one file. *)
Record Uploaded : Type := { url : string; filename : string }.

(** The plain object [images = {}]: its own keys, and its prototype
    once an object has been assigned to it ([None] stands for
    [Object.prototype]). *)
Record Images : Type := {
  own : gmap string Uploaded;
  prototype : option Uploaded
}.

#[global] Instance Images_empty : Empty Images :=
  {| own := ∅; prototype := None |}.

(** [images[k] = entry].  The key ["__proto__"] is the accessor that
    [Object.prototype] defines: assigning an object to it replaces the
    prototype of [images] and adds no key.  Every other key becomes an
    own key. *)
Definition assign (k : string) (entry : Uploaded) (images : Images) : Images :=
  if String.eqb k "__proto__"
  then {| own := own images; prototype := Some entry |}
  else {| own := <[k := entry]> (own images); prototype := prototype images |}.

(** What the last assignment at the key [k] has left in [images]. *)
Definition stored (k : string) (images : Images) : option Uploaded :=
  if String.eqb k "__proto__" then prototype images else own images !! k.

(** What the caller's [cb] is called with: [cb(err)] or
    [cb(null, images)]. *)
Inductive Reply : Type :=
| Failure (err : Error)
| Success (images : Images).

(** [source && source.mimetype && source.mimetype.replace('image/', '')],
    then [source.split('.').pop()] when the source is a string; [None]
    stands for [undefined]. *)
Definition source_type (source : Source) : option string :=
  match source with
  | SourcePath path => Some (pop (split "." path))
  | SourceUpload (Some mimetype) _ => Some (remove_first "image/" mimetype)
  | SourceUpload None _ => None
  | SourceMissing => None
  end.

(** [!type] *)
Definition no_type (type : option string) : bool :=
  match type with
  | Some (String _ _) => false
  | _ => true
  end.

Module Batch.

Section Upload.

(** [globalConfig.staticUrl] and [globalConfig.resizeLimit]. *)
Variable staticUrl : string.
Variable resizeLimit : option nat.

(** The collaborators: the codec ([lwip.open], [batch.toBuffer]), the
    templater ([lodash.template]) and the object storage
    ([os.uploadFromBuffer]).  Each answers every asynchronous call,
    with an error or with a result. *)
Variable lwip_open : Source -> string -> Error + Image.
Variable toBuffer : Image -> list Op -> string -> Error + list Byte.byte.

(** The codec checks the arguments of [contain], [resize] and [crop]
    when the operation is queued, and throws on those it refuses. *)
Variable throws : Op -> bool.
Variable template : string -> File.t -> string.
Variable uploadFromBuffer : list Byte.byte -> string -> Error + string.

Variable source : Source.
Variable config : Config.t.

Definition type : string := default EmptyString (source_type source).
Definition default_format : string := or_string (Config.format config) "".

(** The name under which the file is uploaded. *)
Definition file_name (c : File.t) : string :=
  let compiled := template (or_string (File.format c) default_format) in
  let omit_ext := File.omitExtension c || Config.omitExtension config || false in
  (compiled c ++ (if omit_ext then "" else "." ++ type))%string.

(** [c.key || c.name] *)
Definition file_key (c : File.t) : string := or_string (File.key c) (File.name c).

(** One task, from [lwip.open] to its [callback]: the error it calls
    back with, or the entry it has written into [images]. *)
Definition task (c : File.t) : Error + (string * Uploaded) :=
  match lwip_open source type with
  | inl err => inl err
  | inr image =>
      match toBuffer image (transformations config c image) type with
      | inl err => inl err
      | inr buffer =>
          let filename := file_name c in
          match uploadFromBuffer buffer filename with
          | inl err => inl err
          | inr path =>
              inr (file_key c,
                   {| url := (staticUrl ++ path)%string; filename := filename |})
          end
      end
  end.

(** Whether the task of [c] gets to call back.  The operations are
    queued inside the callback of [lwip.open], which has no [try]: when
    the codec throws on one of them nothing after it runs, and
    [callback] is never called. *)
Definition calls_back (c : File.t) : bool :=
  match lwip_open source type with
  | inl _ => true
  | inr image => negb (existsb throws (transformations config c image))
  end.

(** *** [async.parallelLimit]

    The library starts tasks while fewer than the limit are running.
    When a task calls back without error it starts the next ones; when
    one calls back with an error it calls the final callback with that
    error and starts no further task, while the tasks already started
    go on and call back later.  When no task is left and none is
    running it calls the final callback without error.  The final
    callback runs once, later calls are dropped.  A task calls back
    once, or never when the codec has thrown in it: such a task stays
    among the running ones for good.  Whatever becomes of the exception,
    what the call does is a run of these steps, stopped at some point.

    The state of one [upload] call: [pending] are the tasks not yet
    started, [running] those started and not yet called back; [images]
    is the object the tasks write into; [errored] and [done] are the
    flags of the limiter, [called] that of the final callback;
    [replies] are the calls made to the caller's [cb]; [completed]
    records the tasks that have called back, latest first. *)
Record State : Type := {
  pending : list File.t;
  running : list File.t;
  images : Images;
  errored : bool;
  done : bool;
  called : bool;
  replies : list Reply;
  completed : list File.t
}.

(** [globalConfig.resizeLimit || 8], the limit being a natural number. *)
Definition limit : nat :=
  match resizeLimit with
  | Some (S n) => S n
  | _ => 8%nat
  end.

(** The final callback of [async.parallelLimit], wrapped so that only
    its first call reaches [cb]:
    [function (err) { if (err) { return cb(err); } cb(null, images); }] *)
Definition final_callback (err : option Error) (s : State) : State :=
  if called s then s
  else
    {| pending := pending s; running := running s; images := images s;
       errored := errored s; done := done s; called := true;
       replies :=
         replies s ++
         [match err with
          | Some e => Failure e
          | None => Success (images s)
          end];
       completed := completed s |}.

(** The limiter's loop: start tasks while fewer than [limit] are
    running and none has failed; when it finds no task left it sets
    [done], and calls the final callback once nothing is running. *)
Definition replenish (s : State) : State :=
  if done s && (length (running s) =? 0)%nat then final_callback None s
  else if errored s then s
  else
    let free := (limit - length (running s))%nat in
    let started := take free (pending s) in
    let s' :=
      {| pending := drop free (pending s);
         running := running s ++ started;
         images := images s; errored := errored s; done := done s;
         called := called s; replies := replies s;
         completed := completed s |} in
    if (length (running s') <? limit)%nat then
      let s'' :=
        {| pending := pending s'; running := running s'; images := images s';
           errored := errored s'; done := true; called := called s';
           replies := replies s'; completed := completed s' |} in
      if (length (running s'') =? 0)%nat then final_callback None s'' else s''
    else s'.

(** The running task [c] calls back, [rest] being the other running
    tasks. *)
Definition complete (c : File.t) (rest : list File.t) (s : State) : State :=
  match task c with
  | inr (k, entry) =>
      replenish
        {| pending := pending s; running := rest;
           images := assign k entry (images s);
           errored := errored s; done := done s; called := called s;
           replies := replies s; completed := c :: completed s |}
  | inl err =>
      let s' :=
        final_callback (Some err)
          {| pending := pending s; running := rest; images := images s;
             errored := errored s; done := done s; called := called s;
             replies := replies s; completed := c :: completed s |} in
      {| pending := pending s'; running := running s'; images := images s';
         errored := true; done := done s'; called := called s';
         replies := replies s'; completed := completed s' |}
  end.

(** Any running task that gets to call back may be the next one to do
    so. *)
Inductive step : State -> State -> Prop :=
| step_complete s before c after :
    running s = before ++ c :: after ->
    calls_back c = true ->
    step s (complete c (before ++ after) s).

Definition idle : State :=
  {| pending := []; running := []; images := ∅; errored := false;
     done := false; called := false; replies := []; completed := [] |}.

(** [upload(source, config, cb)] up to the point where it returns:
    the two checks, then the tasks are built and handed to
    [async.parallelLimit]. *)
Definition upload : State :=
  if no_type (source_type source) then final_callback (Some no_type_error) idle
  else
    match Config.files config with
    | FilesUndefined | FilesNotArray => final_callback (Some no_files_error) idle
    | FilesArray files =>
        replenish
          {| pending := files; running := []; images := ∅; errored := false;
             done := false; called := false; replies := []; completed := [] |}
    end.

(** [steps n s s']: [n] tasks call back, one after the other, and
    take the call from state [s] to state [s']. *)
Inductive steps : nat -> State -> State -> Prop :=
| steps_none s : steps 0 s s
| steps_more n s s' s'' : steps n s s' -> step s' s'' -> steps (S n) s s''.

(** A task has succeeded. *)
Definition succeeded (c : File.t) : Prop := exists k entry, task c = inr (k, entry).

(** What holds of every state of an [upload] call over [files]. *)
Record invariant (files : list File.t) (s : State) : Prop := {
  inv_files : running s ++ pending s ++ completed s ≡ₚ files;
  inv_limit : (length (running s) <= limit)%nat;
  inv_done : done s = true -> pending s = [];
  inv_sound : forall k v,
    stored k (images s) = Some v -> exists c, c ∈ completed s /\ task c = inr (k, v);
  inv_complete : forall c k v,
    c ∈ completed s -> task c = inr (k, v) -> is_Some (stored k (images s));
  inv_own : own (images s) !! "__proto__" = None;
  inv_replies :
    match replies s with
    | [] =>
        called s = false /\ errored s = false /\
        Forall succeeded (completed s) /\ running s <> []
    | [Success m] =>
        called s = true /\ m = images s /\ pending s = [] /\ running s = [] /\
        Forall succeeded (completed s)
    | [Failure e] =>
        called s = true /\ errored s = true /\
        exists later c earlier,
          completed s = later ++ c :: earlier /\ task c = inl e /\
          Forall succeeded earlier
    | _ => False
    end
}.

End Upload.

End Batch.

Import Batch.

(** ** A sample call

    A photo of 800 x 600 pixels, three files that ask for a 100 x 100
    thumbnail, one that asks for nothing, and collaborators that always
    succeed. *)

Module Sample.

Definition photo : Image := {| pixel_width := 800; pixel_height := 600 |}.

Definition thumb : File.t :=
  {| File.format := None; File.name := "thumb"; File.key := None;
     File.width := Some 100; File.height := Some 100;
     File.top := None; File.left := None; File.crop := true;
     File.adapt := None; File.omitExtension := false; File.colorPad := None |}.

(** The same with the offsets [top: 50, left: 50]. *)
Definition offset_thumb : File.t :=
  {| File.format := None; File.name := "offset"; File.key := None;
     File.width := Some 100; File.height := Some 100;
     File.top := Some 50; File.left := Some 50; File.crop := true;
     File.adapt := None; File.omitExtension := false; File.colorPad := None |}.

(** The same with [adapt: 200] and the offsets [top: 0, left: 0]. *)
Definition padded_thumb : File.t :=
  {| File.format := None; File.name := "padded"; File.key := None;
     File.width := Some 100; File.height := Some 100;
     File.top := Some 0; File.left := Some 0; File.crop := true;
     File.adapt := Some (AdaptNumber 200); File.omitExtension := false;
     File.colorPad := None |}.

Definition config (files : Files) : Config.t :=
  {| Config.format := Some "<%= name %>"; Config.omitExtension := false;
     Config.colorPad := None; Config.files := files |}.

Definition source : Source := SourcePath "photo.jpg".

Definition lwip_open (_ : Source) (_ : string) : Error + Image := inr photo.

(** A codec that refuses a length that is not a number. *)
Definition throws (op : Op) : bool :=
  match op with
  | Contain (VNumber _) (VNumber _) _ => false
  | Contain _ _ _ => true
  | CropSize (VNumber _) (VNumber _) => false
  | CropSize _ _ => true
  | Resize _ _ | CropRect _ _ _ _ => false
  end.

Definition toBuffer (_ : Image) (_ : list Op) (_ : string) : Error + list Byte.byte :=
  inr [].

(** The template ["<%= name %>"]. *)
Definition template (_ : string) (c : File.t) : string := File.name c.

Definition uploadFromBuffer (_ : list Byte.byte) (filename : string) : Error + string :=
  inr ("/" ++ filename)%string.

Definition staticUrl : string := "https://static.example".

(** A file without dimensions. *)
Definition original : File.t :=
  {| File.format := None; File.name := "original"; File.key := None;
     File.width := None; File.height := Some 0%Z;
     File.top := None; File.left := None; File.crop := true;
     File.adapt := None; File.omitExtension := false; File.colorPad := None |}.

(** The call for the one file [thumb], and the state after its task has
    called back. *)
Definition started : State := upload None source (config (FilesArray [thumb])).

Definition finished : State :=
  complete staticUrl None lwip_open toBuffer template uploadFromBuffer
    source (config (FilesArray [thumb])) thumb ([] ++ []) started.

End Sample.

(** ** Vocabulary of the further properties *)

(** [w] is the quotient [x / y] rounded down or up: no integer lies
    between the two. *)
Definition rounded (x y w : Z) : Prop :=
  forall t : Z, ((t * y <= x)%Z -> (t <= w)%Z) /\ ((x <= t * y)%Z -> (w <= t)%Z).

(** [z] is a nearest integer to the quotient [x / y]. *)
Definition nearest (x y z : Z) : Prop := (2 * Z.abs (z * y - x) <= y)%Z.

(** Whether the character [c] occurs in [s]. *)
Fixpoint occurs (c : ascii) (s : string) : bool :=
  match s with
  | EmptyString => false
  | String d r => Ascii.eqb d c || occurs c r
  end.

(** The operations that set the size of the canvas, and those that
    cut it. *)
Definition sizes (op : Op) : bool :=
  match op with
  | Contain _ _ _ | Resize _ _ => true
  | CropRect _ _ _ _ | CropSize _ _ => false
  end.

Definition cuts (op : Op) : bool := negb (sizes op).

(** As long as no task has failed and some are left to start, [limit]
    tasks are running. *)
Definition saturated (resizeLimit : option nat) (s : State) : Prop :=
  errored s = false -> pending s <> [] ->
  length (running s) = limit resizeLimit.

(** ** Sample runs over two files

    The files [thumb] and [offset_thumb] of the sample call; both tasks
    are started at once and call back in either order.  In the runs
    with [refused] the object storage refuses every upload. *)

Module Runs.

Import Sample.

Definition files : list File.t := [thumb; offset_thumb].

Definition started : State := upload None source (config (FilesArray files)).

Definition run (uploadFromBuffer : list Byte.byte -> string -> Error + string)
    (c : File.t) (rest : list File.t) (s : State) : State :=
  complete staticUrl None lwip_open toBuffer template uploadFromBuffer
    source (config (FilesArray files)) c rest s.

Definition thumb_done : State := run uploadFromBuffer thumb [offset_thumb] started.
Definition thumb_first : State := run uploadFromBuffer offset_thumb [] thumb_done.

Definition offset_done : State := run uploadFromBuffer offset_thumb [thumb] started.
Definition offset_first : State := run uploadFromBuffer thumb [] offset_done.

Definition refused (_ : list Byte.byte) (_ : string) : Error + string :=
  inl (MkError "refused").

Definition thumb_refused : State := run refused thumb [offset_thumb] started.
Definition both_refused : State := run refused offset_thumb [] thumb_refused.

End Runs.

(** ** Further sample files *)

Module Variants.

(** A box of 100 x 100 without crop, and the same with settings that
    only a crop reads. *)
Definition boxed : File.t :=
  {| File.format := None; File.name := "boxed"; File.key := None;
     File.width := Some 100; File.height := Some 100;
     File.top := None; File.left := None; File.crop := false;
     File.adapt := None; File.omitExtension := false; File.colorPad := None |}.

Definition boxed_adapt : File.t :=
  {| File.format := None; File.name := "boxed"; File.key := None;
     File.width := Some 100; File.height := Some 100;
     File.top := Some 10; File.left := Some 10; File.crop := false;
     File.adapt := Some (AdaptBoolean true); File.omitExtension := false;
     File.colorPad := Some "black" |}.

(** A crop with a width only. *)
Definition wide : File.t :=
  {| File.format := None; File.name := "wide"; File.key := None;
     File.width := Some 100; File.height := None;
     File.top := None; File.left := None; File.crop := true;
     File.adapt := None; File.omitExtension := false; File.colorPad := None |}.

(** A crop of 100 x 50 with [adapt: true]. *)
Definition squared : File.t :=
  {| File.format := None; File.name := "squared"; File.key := None;
     File.width := Some 100; File.height := Some 50;
     File.top := None; File.left := None; File.crop := true;
     File.adapt := Some (AdaptBoolean true); File.omitExtension := false;
     File.colorPad := None |}.

(** The 100 x 100 thumbnail with [left: 20] and no [top]. *)
Definition shifted : File.t :=
  {| File.format := None; File.name := "shifted"; File.key := None;
     File.width := Some 100; File.height := Some 100;
     File.top := None; File.left := Some 20; File.crop := true;
     File.adapt := None; File.omitExtension := false; File.colorPad := None |}.

(** A file named ["__proto__"]. *)
Definition proto : File.t :=
  {| File.format := None; File.name := "__proto__"; File.key := None;
     File.width := None; File.height := None;
     File.top := None; File.left := None; File.crop := false;
     File.adapt := None; File.omitExtension := false; File.colorPad := None |}.

(** A file with a template and a key of its own, and a templater that
    shows which template it was given. *)
Definition named : File.t :=
  {| File.format := Some "small"; File.name := "photo"; File.key := Some "s";
     File.width := None; File.height := None;
     File.top := None; File.left := None; File.crop := false;
     File.adapt := None; File.omitExtension := true; File.colorPad := None |}.

Definition template (format : string) (c : File.t) : string :=
  (format ++ "-" ++ File.name c)%string.

(** The call for the one file [proto] and the state after its task has
    called back; the call for the one file [wide], whose crop the codec
    refuses. *)
Definition proto_started : State :=
  upload None Sample.source (Sample.config (FilesArray [proto])).

Definition proto_done : State :=
  complete Sample.staticUrl None Sample.lwip_open Sample.toBuffer Sample.template
    Sample.uploadFromBuffer Sample.source (Sample.config (FilesArray [proto]))
    proto [] proto_started.


End Variants.

(** * Properties *)

(** ** Rounding to binary64 *)

Module JSFacts.

Import JS.
Local Open Scope Q_scope.

Lemma one_le_inject_Z (z : Z) : (0 < z)%Z -> 1 <= inject_Z z.
Proof. intros Hz. change 1 with (inject_Z 1). rewrite <- Zle_Qle. lia. Qed.

Lemma two_pow_pos (e : Z) : 0 < two_pow e.
Proof. apply Qpower_0_lt. reflexivity. Qed.

Lemma two_pow_add (a b : Z) : two_pow (a + b) == two_pow a * two_pow b.
Proof. apply Qpower_plus. discriminate. Qed.

Lemma two_pow_Z (n : Z) : (0 <= n)%Z -> two_pow n == inject_Z (2 ^ n).
Proof. intros Hn. unfold two_pow. now rewrite Zpower_Qpower. Qed.

Lemma two_pow_le (a b : Z) : (a <= b)%Z -> two_pow a <= two_pow b.
Proof. intros H. apply Qpower_le_compat_l; [exact H | discriminate]. Qed.

Lemma two_pow_succ (a : Z) : two_pow (a + 1) == 2 * two_pow a.
Proof. rewrite two_pow_add. change (two_pow 1) with (2 # 1). ring. Qed.

Lemma two_pow_pred (a : Z) : two_pow a == 2 * two_pow (a - 1).
Proof. rewrite <- two_pow_succ. now replace (a - 1 + 1)%Z with a by ring. Qed.

(** [flog2] brackets the magnitude of its argument. *)
Lemma flog2_spec (q : Q) :
  0 < q -> two_pow (flog2 q) <= q /\ q < two_pow (flog2 q + 1).
Proof.
  intros Hq.
  assert (Hn : (0 < Qnum q)%Z).
  { unfold Qlt in Hq. simpl in Hq. lia. }
  pose proof (Z.log2_spec (Qnum q) Hn) as [Hn1 Hn2].
  pose proof (Z.log2_spec (Zpos (Qden q)) (Pos2Z.is_pos _)) as [Hd1 Hd2].
  pose proof (Z.log2_nonneg (Qnum q)) as Ha.
  pose proof (Z.log2_nonneg (Zpos (Qden q))) as Hb.
  set (a := Z.log2 (Qnum q)) in *.
  set (b := Z.log2 (Zpos (Qden q))) in *.
  assert (Hq' : q == inject_Z (Qnum q) / inject_Z (Zpos (Qden q))).
  { destruct q as [n d]. simpl. rewrite Qmake_Qdiv. reflexivity. }
  assert (Hdpos : 0 < inject_Z (Zpos (Qden q))) by reflexivity.
  assert (Hlo : two_pow (a - b - 1) <= q).
  { rewrite Hq'. apply Qle_shift_div_l; [exact Hdpos|].
    apply Qle_trans with (two_pow (a - b - 1) * two_pow (b + 1)).
    - apply Qmult_le_l; [apply two_pow_pos|].
      rewrite two_pow_Z by lia. rewrite <- Zle_Qle. lia.
    - rewrite <- two_pow_add. replace (a - b - 1 + (b + 1))%Z with a by ring.
      rewrite two_pow_Z by lia. rewrite <- Zle_Qle. exact Hn1. }
  assert (Hhi : q < two_pow (a - b + 1)).
  { rewrite Hq'. apply Qlt_shift_div_r; [exact Hdpos|].
    apply Qlt_le_trans with (two_pow (a - b + 1) * two_pow b).
    - rewrite <- two_pow_add. replace (a - b + 1 + b)%Z with (a + 1)%Z by ring.
      rewrite two_pow_Z by lia. rewrite <- Zlt_Qlt.
      replace (a + 1)%Z with (Z.succ a) by lia. exact Hn2.
    - apply Qmult_le_l; [apply two_pow_pos|].
      rewrite two_pow_Z by lia. rewrite <- Zle_Qle. exact Hd1. }
  unfold flog2.
  rewrite (Z.abs_eq (Qnum q)) by lia. fold a b.
  rewrite (Qabs_pos q) by (apply Qlt_le_weak; exact Hq).
  destruct (Qle_bool (two_pow (a - b)) q) eqn:E.
  - apply Qle_bool_iff in E. split; [exact E | exact Hhi].
  - split; [exact Hlo|].
    replace (a - b - 1 + 1)%Z with (a - b)%Z by ring.
    apply Qnot_le_lt. intros H. apply Qle_bool_iff in H. congruence.
Qed.

#[local] Instance rne_proper : Proper (Qeq ==> eq) rne.
Proof.
  intros p q Hpq. unfold rne.
  rewrite (Qfloor_comp p q Hpq).
  now rewrite (Qcompare_comp (p - inject_Z (Qfloor q)) (q - inject_Z (Qfloor q))
                 ltac:(rewrite Hpq; reflexivity) (1 # 2) (1 # 2) ltac:(reflexivity)).
Qed.

Lemma rne_Z (z : Z) : rne (inject_Z z) = z.
Proof.
  unfold rne. rewrite Qfloor_Z.
  assert (E : (inject_Z z - inject_Z z ?= 1 # 2) = Lt).
  { apply (proj1 (Qlt_alt _ _)). lra. }
  now rewrite E.
Qed.

(** The nearest integer is at most one half away. *)
Lemma rne_error (q : Q) :
  q - (1 # 2) <= inject_Z (rne q) /\ inject_Z (rne q) <= q + (1 # 2).
Proof.
  pose proof (Qfloor_le q) as Hlo.
  pose proof (Qlt_floor q) as Hhi.
  rewrite inject_Z_plus in Hhi. change (inject_Z 1) with 1 in Hhi.
  unfold rne.
  destruct (Qcompare (q - inject_Z (Qfloor q)) (1 # 2)) eqn:E.
  - apply Qeq_alt in E.
    destruct (Z.even (Qfloor q));
      [|rewrite inject_Z_plus; change (inject_Z 1) with 1]; split; lra.
  - apply Qlt_alt in E. split; lra.
  - apply Qgt_alt in E. rewrite inject_Z_plus. change (inject_Z 1) with 1.
    split; lra.
Qed.

Lemma eps_two_pow : eps == two_pow (-53).
Proof. reflexivity. Qed.

(** [b64] does not depend on the fraction that represents its argument. *)
#[local] Instance b64_proper : Proper (Qeq ==> eq) b64.
Proof. intros p q Hpq. unfold b64. now rewrite (Qred_complete p q Hpq). Qed.

(** Within [2^-200, 2^200] the rounded value is finite and carries a
    relative error of at most [eps]. *)
Lemma b64_relative (q : Q) :
  two_pow (-200) <= q -> q <= two_pow 200 ->
  exists r, b64 q = Fin r /\ q - eps * q <= r /\ r <= q + eps * q.
Proof.
  intros Hlo Hhi.
  assert (Hq : 0 < q) by (eapply Qlt_le_trans; [apply two_pow_pos | exact Hlo]).
  unfold b64.
  pose proof (Qred_correct q) as Hred.
  set (q0 := Qred q) in *.
  assert (Hq0 : 0 < q0) by (rewrite Hred; exact Hq).
  destruct (Qeq_bool q0 0) eqn:E0.
  { apply Qeq_bool_iff in E0. rewrite E0 in Hq0. discriminate. }
  destruct (flog2_spec q0 Hq0) as [Hk1 Hk2].
  set (k := flog2 q0) in *.
  assert (Hklo : (-200 < k + 1)%Z).
  { apply Qpower_lt_compat_l_inv with (q := 2 # 1); [|reflexivity].
    apply Qle_lt_trans with q0; [rewrite Hred; exact Hlo | exact Hk2]. }
  assert (Hkhi : (k <= 200)%Z).
  { apply Qpower_le_compat_l_inv with (q := 2 # 1); [|reflexivity].
    eapply Qle_trans; [exact Hk1|]. rewrite Hred. exact Hhi. }
  assert (He : cexp q0 = (k - 52)%Z).
  { unfold cexp, prec, emin. fold k. lia. }
  rewrite He.
  set (e := (k - 52)%Z) in *.
  pose proof (two_pow_pos e) as Hepos.
  pose proof (rne_error (q0 / two_pow e)) as [Hm1 Hm2].
  set (m := inject_Z (rne (q0 / two_pow e))) in *.
  assert (Hx : q0 / two_pow e * two_pow e == q0).
  { field. intros H. rewrite H in Hepos. discriminate. }
  assert (Hv : q0 - (1 # 2) * two_pow e <= m * two_pow e /\
               m * two_pow e <= q0 + (1 # 2) * two_pow e).
  { clearbody m. revert Hm1 Hm2 Hx Hepos.
    generalize (q0 / two_pow e) (two_pow e). intros x t Hm1 Hm2 Hx Ht.
    split; nra. }
  destruct Hv as [Hv1 Hv2].
  assert (Hulp : (1 # 2) * two_pow e <= eps * q0).
  { apply Qle_trans with (eps * two_pow k).
    - rewrite eps_two_pow, <- two_pow_add.
      replace (-53 + k)%Z with (e - 1)%Z by (unfold e; ring).
      rewrite (two_pow_pred e). apply Qle_lteq. right. field.
    - apply Qmult_le_l; [reflexivity | exact Hk1]. }
  assert (Hq200 : q0 <= two_pow 200) by (rewrite Hred; exact Hhi).
  assert (Hfin : Qle_bool (two_pow emax) (Qabs (m * two_pow e)) = false).
  { destruct (Qle_bool (two_pow emax) (Qabs (m * two_pow e))) eqn:E; [|reflexivity].
    exfalso. apply Qle_bool_iff in E.
    assert (Hvpos : 0 <= m * two_pow e).
    { apply Qle_trans with (q0 - eps * q0); [|lra].
      unfold eps. lra. }
    rewrite Qabs_pos in E by exact Hvpos.
    assert (Hbig : two_pow 200 + two_pow 200 < two_pow emax) by reflexivity.
    unfold eps in Hulp. lra. }
  rewrite Hfin.
  exists (Qred (m * two_pow e)).
  split; [reflexivity|].
  rewrite (Qred_correct (m * two_pow e)), <- Hred. split; lra.
Qed.

Lemma Qred_inject_Z (z : Z) : Qred (inject_Z z) = inject_Z z.
Proof. apply Qcanon.Qred_identity. simpl. apply Z.gcd_1_r. Qed.

(** A number [m * 2^e] with [m] below [2^53] is a binary64 value. *)
Lemma b64_dyadic (m e : Z) :
  (0 < m < 2 ^ 53)%Z -> (-1022 <= e <= 970)%Z ->
  b64 (inject_Z m * two_pow e) = Fin (Qred (inject_Z m * two_pow e)).
Proof.
  intros [Hm0 Hm] He.
  unfold b64.
  pose proof (Qred_correct (inject_Z m * two_pow e)) as Hred.
  set (q := Qred (inject_Z m * two_pow e)) in *.
  pose proof (two_pow_pos e) as Hepos.
  pose proof (one_le_inject_Z m ltac:(lia)) as Hm1.
  assert (Hm53 : inject_Z m < two_pow 53).
  { rewrite two_pow_Z by lia. rewrite <- Zlt_Qlt. exact Hm. }
  assert (Hqlo : two_pow e <= q).
  { rewrite Hred. rewrite <- (Qmult_1_l (two_pow e)) at 1.
    apply Qmult_le_compat_r; lra. }
  assert (Hqhi : q < two_pow (53 + e)).
  { rewrite Hred, two_pow_add. apply Qmult_lt_compat_r; lra. }
  assert (Hq : 0 < q) by lra.
  destruct (Qeq_bool q 0) eqn:E0.
  { apply Qeq_bool_iff in E0. lra. }
  destruct (flog2_spec q Hq) as [Hk1 Hk2].
  set (k := flog2 q) in *.
  assert (Hk53 : (k < 53 + e)%Z).
  { apply Qpower_lt_compat_l_inv with (q := 2 # 1); [|reflexivity].
    eapply Qle_lt_trans; [exact Hk1 | exact Hqhi]. }
  assert (Hk0 : (e < k + 1)%Z).
  { apply Qpower_lt_compat_l_inv with (q := 2 # 1); [|reflexivity].
    eapply Qle_lt_trans; [exact Hqlo | exact Hk2]. }
  assert (Hc : cexp q = (k - 52)%Z) by (unfold cexp, prec, emin; fold k; lia).
  rewrite Hc.
  set (c := (k - 52)%Z) in *.
  pose proof (two_pow_pos c) as Hcpos.
  assert (Hsplit : two_pow e == two_pow (e - c) * two_pow c).
  { rewrite <- two_pow_add. now replace (e - c + c)%Z with e by ring. }
  assert (Hscaled : q / two_pow c == inject_Z (m * 2 ^ (e - c))).
  { rewrite inject_Z_mult, <- two_pow_Z, Hred, Hsplit by lia.
    field. lra. }
  assert (Hr : rne (q / two_pow c) = (m * 2 ^ (e - c))%Z).
  { rewrite Hscaled. apply rne_Z. }
  rewrite Hr.
  assert (Hv : inject_Z (m * 2 ^ (e - c)) * two_pow c == q).
  { rewrite <- Hscaled. field. lra. }
  assert (Hfin : Qle_bool (two_pow emax) (Qabs (inject_Z (m * 2 ^ (e - c)) * two_pow c)) = false).
  { destruct (Qle_bool _ _) eqn:E; [|reflexivity].
    exfalso. apply Qle_bool_iff in E. rewrite Hv, Qabs_pos in E by lra.
    assert (Hbig : two_pow (53 + e) <= two_pow emax) by (apply two_pow_le; unfold emax; lia).
    lra. }
  rewrite Hfin. apply f_equal.
  transitivity (Qred q); [apply Qred_complete; exact Hv|].
  unfold q. apply Qred_complete. apply Qred_correct.
Qed.

(** Integers below [2^53] are binary64 values. *)
Lemma b64_Z (z : Z) :
  (0 <= z < 2 ^ 53)%Z -> b64 (inject_Z z) = Fin (inject_Z z).
Proof.
  intros [Hz0 Hz].
  destruct (Z.eq_dec z 0%Z) as [->|Hnz]; [reflexivity|].
  assert (E : inject_Z z == inject_Z z * two_pow 0).
  { change (two_pow 0) with 1. ring. }
  rewrite (b64_proper _ _ E), b64_dyadic by lia.
  apply f_equal. rewrite <- (Qred_inject_Z z) at 2.
  apply Qred_complete. symmetry. exact E.
Qed.

(** So are their halves. *)
Lemma b64_half (z : Z) :
  (0 <= z < 2 ^ 53)%Z -> b64 (inject_Z z / 2) = Fin (Qred (z # 2)).
Proof.
  intros [Hz0 Hz].
  destruct (Z.eq_dec z 0%Z) as [->|Hnz]; [reflexivity|].
  assert (E : inject_Z z / 2 == inject_Z z * two_pow (-1)).
  { change (two_pow (-1)) with (1 # 2). field. }
  rewrite (b64_proper _ _ E), b64_dyadic by lia.
  apply f_equal. apply Qred_complete. rewrite <- E.
  rewrite (Qmake_Qdiv z 2). reflexivity.
Qed.

Lemma of_Z_exact (z : Z) : (0 <= z < 2 ^ 53)%Z -> of_Z z = Fin (inject_Z z).
Proof. apply b64_Z. Qed.

Lemma of_N_exact (n : N) : (Z.of_N n < 2 ^ 53)%Z -> of_N n = Fin (inject_Z (Z.of_N n)).
Proof. intros H. apply b64_Z. lia. Qed.

(** A quotient of two integers below [2^49] is rounded with a relative
    error of at most [eps]; the bound is stated without division. *)
Lemma b64_quotient (n d : Z) :
  (0 < n < 2 ^ 49)%Z -> (0 < d < 2 ^ 49)%Z ->
  exists r, b64 (inject_Z n / inject_Z d) = Fin r /\
            inject_Z n - eps * inject_Z n <= r * inject_Z d /\
            r * inject_Z d <= inject_Z n + eps * inject_Z n.
Proof.
  intros Hn Hd.
  pose proof (one_le_inject_Z n ltac:(lia)) as Hn1.
  pose proof (one_le_inject_Z d ltac:(lia)) as Hd1.
  assert (Hn2 : inject_Z n <= inject_Z (2 ^ 49)) by (rewrite <- Zle_Qle; lia).
  assert (Hd2 : inject_Z d <= inject_Z (2 ^ 49)) by (rewrite <- Zle_Qle; lia).
  assert (Hlo : two_pow (-200) <= 1 # 562949953421312) by discriminate.
  assert (Hhi : inject_Z (2 ^ 49) <= two_pow 200) by discriminate.
  change (inject_Z (2 ^ 49)) with (562949953421312 # 1) in *.
  revert Hn1 Hd1 Hn2 Hd2.
  generalize (inject_Z n) (inject_Z d).
  intros N D Hn1 Hd1 Hn2 Hd2.
  assert (HD : 0 < D) by lra.
  destruct (b64_relative (N / D)) as (r & Hr & Hr1 & Hr2).
  - apply Qle_shift_div_l; [exact HD|].
    apply Qle_trans with ((1 # 562949953421312) * D);
      [apply Qmult_le_compat_r; lra | lra].
  - apply Qle_shift_div_r; [exact HD|].
    apply Qle_trans with ((562949953421312 # 1) * 1); [lra|].
    apply Qmult_le_compat_nonneg; split; lra.
  - exists r. split; [exact Hr|].
    assert (Hx : N / D * D == N) by (field; lra).
    revert Hr1 Hr2 Hx. generalize (N / D). intros x Hr1 Hr2 Hx.
    unfold eps in *. split; nra.
Qed.

Lemma Qmult_le_compat_l (x y z : Q) : x <= y -> 0 <= z -> z * x <= z * y.
Proof.
  intros H Hz. rewrite (Qmult_comm z x), (Qmult_comm z y).
  now apply Qmult_le_compat_r.
Qed.

(** The same bound on a range given by two numerals, [2^-60] and
    [2^60]. *)
Lemma b64_mid (q : Q) :
  1 # 1152921504606846976 <= q -> q <= 1152921504606846976 # 1 ->
  exists r, b64 q = Fin r /\ q - eps * q <= r /\ r <= q + eps * q.
Proof.
  intros Hlo Hhi. apply b64_relative.
  - apply Qle_trans with (1 # 1152921504606846976); [discriminate | exact Hlo].
  - apply Qle_trans with (1152921504606846976 # 1); [exact Hhi | discriminate].
Qed.

Section Scaled.

(** [c], [n] and [d] are pixel counts below [2^24]; [r] is the
    rounded quotient [n / d]. *)
Variables c n d : Z.
Hypothesis Hc : (0 < c < 2 ^ 24)%Z.
Hypothesis Hn : (0 < n < 2 ^ 24)%Z.
Hypothesis Hd : (0 < d < 2 ^ 24)%Z.
Variable r : Q.
Hypothesis Hr1 : inject_Z n - eps * inject_Z n <= r * inject_Z d.
Hypothesis Hr2 : r * inject_Z d <= inject_Z n + eps * inject_Z n.

Local Abbreviation C := (inject_Z c).
Local Abbreviation N := (inject_Z n).
Local Abbreviation D := (inject_Z d).

Lemma pixel_bounds :
  1 <= C /\ C <= 16777216 # 1 /\ 1 <= N /\ N <= 16777216 # 1 /\
  1 <= D /\ D <= 16777216 # 1.
Proof.
  change 1 with (inject_Z 1).
  change (16777216 # 1) with (inject_Z (2 ^ 24)).
  rewrite <- !Zle_Qle. lia.
Qed.

Lemma ratio_bounds : 1 # 33554432 <= r /\ r <= 33554432 # 1.
Proof.
  destruct pixel_bounds as (HC1 & HC2 & HN1 & HN2 & HD1 & HD2).
  unfold eps in *.
  split.
  - destruct (Qlt_le_dec r (1 # 33554432)) as [H|H]; [|exact H].
    exfalso.
    assert (r * D <= (1 # 33554432) * D).
    { apply Qmult_le_compat_r; lra. }
    lra.
  - destruct (Qlt_le_dec (33554432 # 1) r) as [H|H]; [|exact H].
    exfalso.
    assert ((33554432 # 1) * 1 <= r * D).
    { apply Qmult_le_compat_nonneg; split; lra. }
    lra.
Qed.

(** [c * r], rounded. *)
Lemma b64_times_ratio :
  exists r2, b64 (C * r) = Fin r2 /\
             C * N - 3 * eps * (C * N) <= r2 * D /\
             r2 * D <= C * N + 3 * eps * (C * N).
Proof.
  destruct pixel_bounds as (HC1 & HC2 & HN1 & HN2 & HD1 & HD2).
  destruct ratio_bounds as [Hrlo Hrhi].
  destruct (b64_mid (C * r)) as (r2 & E & H1 & H2).
  - apply Qle_trans with (1 * (1 # 33554432)); [discriminate|].
    apply Qmult_le_compat_nonneg; split; lra.
  - apply Qle_trans with ((16777216 # 1) * (33554432 # 1)); [|discriminate].
    apply Qmult_le_compat_nonneg; split; lra.
  - exists r2. split; [exact E|].
    assert (HCr1 : C * N - eps * (C * N) <= C * (r * D)).
    { setoid_replace (C * N - eps * (C * N)) with (C * (N - eps * N))
        using relation Qeq by ring.
      apply Qmult_le_l; lra. }
    assert (HCr2 : C * (r * D) <= C * N + eps * (C * N)).
    { setoid_replace (C * N + eps * (C * N)) with (C * (N + eps * N))
        using relation Qeq by ring.
      apply Qmult_le_l; lra. }
    assert (H1' : (C * r - eps * (C * r)) * D <= r2 * D).
    { apply Qmult_le_compat_r; lra. }
    assert (H2' : r2 * D <= (C * r + eps * (C * r)) * D).
    { apply Qmult_le_compat_r; lra. }
    assert (HCN : 0 <= C * N) by (apply Qmult_le_0_compat; lra).
    unfold eps in *. split; nra.
Qed.

(** [c / r], rounded. *)
Lemma b64_over_ratio :
  exists r2, b64 (C / r) = Fin r2 /\
             C * D - 3 * eps * (C * D) <= r2 * N /\
             r2 * N <= C * D + 3 * eps * (C * D).
Proof.
  destruct pixel_bounds as (HC1 & HC2 & HN1 & HN2 & HD1 & HD2).
  destruct ratio_bounds as [Hrlo Hrhi].
  assert (Hrpos : 0 < r) by lra.
  destruct (b64_mid (C / r)) as (r2 & E & H1 & H2).
  - apply Qle_shift_div_l; [exact Hrpos|].
    apply Qle_trans with ((1 # 1152921504606846976) * (33554432 # 1)).
    + apply Qmult_le_l; [reflexivity | exact Hrhi].
    + apply Qle_trans with 1; [discriminate | exact HC1].
  - apply Qle_shift_div_r; [exact Hrpos|].
    apply Qle_trans with ((1152921504606846976 # 1) * (1 # 33554432)).
    + apply Qle_trans with (16777216 # 1); [exact HC2 | discriminate].
    + apply Qmult_le_l; [reflexivity | exact Hrlo].
  - exists r2. split; [exact E|].
    assert (Hx : C / r * r == C) by (field; lra).
    revert H1 H2 Hx. generalize (C / r). intros x H1 H2 Hx.
    assert (Hx0 : 0 <= x).
    { destruct (Qlt_le_dec x 0) as [H|H]; [|exact H]. exfalso.
      assert (x * r <= 0 * r) by (apply Qmult_le_compat_r; lra). lra. }
    assert (Hr20 : 0 <= r2) by (unfold eps in *; lra).
    assert (A1 : r2 * (N - eps * N) <= r2 * (r * D)) by (apply Qmult_le_compat_l; lra).
    assert (A2 : r2 * (r * D) <= r2 * (N + eps * N)) by (apply Qmult_le_compat_l; lra).
    assert (B1 : (x - eps * x) * (r * D) <= r2 * (r * D)).
    { apply Qmult_le_compat_r; [lra|]. unfold eps in *. lra. }
    assert (B2 : r2 * (r * D) <= (x + eps * x) * (r * D)).
    { apply Qmult_le_compat_r; [lra|]. unfold eps in *. lra. }
    assert (Hxr : x * (r * D) == C * D) by (rewrite Qmult_assoc, Hx; reflexivity).
    assert (HCD : 0 <= C * D) by (apply Qmult_le_0_compat; lra).
    assert (Hr2N : 0 <= r2 * N) by (apply Qmult_le_0_compat; lra).
    unfold eps in *. split; nra.
Qed.

End Scaled.

Lemma is_zero_inject_Z (z : Z) : z <> 0%Z -> is_zero (inject_Z z) = false.
Proof.
  intros Hz. unfold is_zero. destruct (Qeq_bool (inject_Z z) 0) eqn:E; [|reflexivity].
  apply Qeq_bool_iff in E. unfold Qeq in E. simpl in E. lia.
Qed.

Lemma div_integers (a b : Z) :
  b <> 0%Z -> div (Fin (inject_Z a)) (Fin (inject_Z b)) = b64 (inject_Z a / inject_Z b).
Proof. intros Hb. simpl. now rewrite (is_zero_inject_Z b Hb). Qed.

Lemma mul_integers (a b : Z) :
  (0 <= a * b < 2 ^ 53)%Z ->
  mul (Fin (inject_Z a)) (Fin (inject_Z b)) = Fin (inject_Z (a * b)).
Proof.
  intros H. simpl. rewrite <- (b64_Z (a * b) H).
  apply b64_proper. now rewrite inject_Z_mult.
Qed.

Lemma add_integers (a b : Z) :
  (0 <= a + b < 2 ^ 53)%Z ->
  add (Fin (inject_Z a)) (Fin (inject_Z b)) = Fin (inject_Z (a + b)).
Proof.
  intros H. simpl. rewrite <- (b64_Z (a + b) H).
  apply b64_proper. now rewrite inject_Z_plus.
Qed.

Lemma gt_Fin (x y : Q) : gt (Fin x) (Fin y) = true <-> y < x.
Proof.
  unfold gt, lt. destruct (Qle_bool x y) eqn:E; simpl.
  - apply Qle_bool_iff in E. split; [discriminate | intros H; lra].
  - split; [intros _|reflexivity].
    apply Qnot_le_lt. intros H. apply Qle_bool_iff in H. congruence.
Qed.

Lemma ge_Fin (x y : Q) : ge (Fin x) (Fin y) = true <-> y <= x.
Proof. unfold ge, le. apply Qle_bool_iff. Qed.

Lemma gt_integers (a b : Z) :
  gt (Fin (inject_Z a)) (Fin (inject_Z b)) = (b <? a)%Z.
Proof.
  destruct (Z.ltb_spec b a) as [H|H].
  - apply gt_Fin. now rewrite <- Zlt_Qlt.
  - destruct (gt (Fin (inject_Z a)) (Fin (inject_Z b))) eqn:E; [|reflexivity].
    apply gt_Fin in E. rewrite <- Zlt_Qlt in E. lia.
Qed.

Lemma lt_integers (a b : Z) :
  lt (Fin (inject_Z a)) (Fin (inject_Z b)) = (a <? b)%Z.
Proof. apply (gt_integers b a). Qed.

Lemma ge_integers (a b : Z) :
  ge (Fin (inject_Z a)) (Fin (inject_Z b)) = (b <=? a)%Z.
Proof.
  destruct (Z.leb_spec b a) as [H|H].
  - apply ge_Fin. now rewrite <- Zle_Qle.
  - destruct (ge (Fin (inject_Z a)) (Fin (inject_Z b))) eqn:E; [|reflexivity].
    apply ge_Fin in E. rewrite <- Zle_Qle in E. lia.
Qed.

(** Two quotients of pixel counts compare, once rounded, as they do
    exactly: the rounding error is smaller than the gap between two
    different quotients. *)
Lemma gt_quotients (a b c d : Z) :
  (0 < a < 2 ^ 24)%Z -> (0 < b < 2 ^ 24)%Z ->
  (0 < c < 2 ^ 24)%Z -> (0 < d < 2 ^ 24)%Z ->
  gt (b64 (inject_Z a / inject_Z b)) (b64 (inject_Z c / inject_Z d))
  = (c * b <? a * d)%Z.
Proof.
  intros Ha Hb Hc Hd.
  destruct (b64_quotient a b ltac:(lia) ltac:(lia)) as (x & Ex & Hx1 & Hx2).
  destruct (b64_quotient c d ltac:(lia) ltac:(lia)) as (y & Ey & Hy1 & Hy2).
  destruct (pixel_bounds a b d Ha Hb Hd) as (HA1 & HA2 & HB1 & HB2 & HD1 & HD2).
  destruct (pixel_bounds c b d Hc Hb Hd) as (HC1 & HC2 & _).
  assert (Hgap : forall p q s t x y : Q,
             1 <= p -> p <= 16777216 # 1 -> 1 <= q -> q <= 16777216 # 1 ->
             1 <= s -> s <= 16777216 # 1 -> 1 <= t -> t <= 16777216 # 1 ->
             p - eps * p <= x * q -> y * t <= s + eps * s ->
             s * q + 1 <= p * t -> y < x).
  { clear. intros p q s t x y Hp1 Hp2 Hq1 Hq2 Hs1 Hs2 Ht1 Ht2 Hx Hy Hgap.
    apply Qnot_le_lt. intros Hxy.
    assert (A : (p - eps * p) * t <= x * q * t) by (apply Qmult_le_compat_r; lra).
    assert (B : y * t * q <= (s + eps * s) * q) by (apply Qmult_le_compat_r; lra).
    assert (C : x * (q * t) <= y * (q * t)).
    { apply Qmult_le_compat_r; [exact Hxy|]. apply Qmult_le_0_compat; lra. }
    assert (P : p * t <= (16777216 # 1) * (16777216 # 1))
      by (apply Qmult_le_compat_nonneg; split; lra).
    assert (S : s * q <= (16777216 # 1) * (16777216 # 1))
      by (apply Qmult_le_compat_nonneg; split; lra).
    unfold eps in *. nra. }
  rewrite Ex, Ey.
  destruct (Z.ltb_spec (c * b) (a * d)) as [H|H].
  - apply gt_Fin.
    apply (Hgap (inject_Z a) (inject_Z b) (inject_Z c) (inject_Z d)); try assumption.
    change 1 with (inject_Z 1). rewrite <- !inject_Z_mult, <- inject_Z_plus, <- Zle_Qle. lia.
  - destruct (gt (Fin x) (Fin y)) eqn:E; [|reflexivity].
    apply gt_Fin in E. exfalso.
    destruct (Z.eq_dec (a * d) (c * b))%Z as [Heq|Hne].
    + assert (Hsame : inject_Z a / inject_Z b == inject_Z c / inject_Z d).
      { apply (proj1 (Qmult_inj_r _ _ (inject_Z b * inject_Z d)
                        ltac:(intros H0; nra))).
        transitivity (inject_Z (a * d)); [rewrite inject_Z_mult; field; lra|].
        rewrite Heq, inject_Z_mult. field. lra. }
      rewrite (b64_proper _ _ Hsame), Ey in Ex.
      injection Ex as ->. lra.
    + assert (Hyx : x < y).
      { apply (Hgap (inject_Z c) (inject_Z d) (inject_Z a) (inject_Z b)); try assumption.
        change 1 with (inject_Z 1).
        rewrite <- !inject_Z_mult, <- inject_Z_plus, <- Zle_Qle. lia. }
      lra.
Qed.

Lemma inject_Z_minus (x y : Z) : inject_Z (x - y) = inject_Z x - inject_Z y.
Proof. unfold Z.sub, Qminus. now rewrite inject_Z_plus, inject_Z_opp. Qed.

Lemma Qfloor_unique (q : Q) (z : Z) :
  inject_Z z <= q -> q < inject_Z z + 1 -> Qfloor q = z.
Proof.
  intros H1 H2.
  pose proof (Qfloor_resp_le _ _ H1) as A. rewrite Qfloor_Z in A.
  pose proof (Qfloor_le q) as B.
  assert (C : inject_Z (Qfloor q) < inject_Z (z + 1)).
  { rewrite inject_Z_plus. change (inject_Z 1) with 1. lra. }
  rewrite <- Zlt_Qlt in C. lia.
Qed.

Lemma round_integer (z : Z) : round (Fin (inject_Z z)) = Fin (inject_Z z).
Proof. unfold round. rewrite (Qfloor_unique _ z); [reflexivity | lra | lra]. Qed.

Lemma round_bounds (r : Q) :
  r - (1 # 2) < inject_Z (Qfloor (r + (1 # 2))) /\
  inject_Z (Qfloor (r + (1 # 2))) <= r + (1 # 2).
Proof.
  pose proof (Qfloor_le (r + (1 # 2))) as A.
  pose proof (Qlt_floor (r + (1 # 2))) as B.
  rewrite inject_Z_plus in B. change (inject_Z 1) with 1 in B.
  split; lra.
Qed.

Lemma round_nonneg (r : Q) : 0 <= r -> (0 <= Qfloor (r + (1 # 2)))%Z.
Proof.
  intros Hr. rewrite <- (Qfloor_Z 0). apply Qfloor_resp_le.
  change (inject_Z 0) with 0. lra.
Qed.

(** Rounding a value [r] that is within [3 eps] of the quotient
    [x / y]: the result is not below an integer [t <= x / y], and it is
    less than one away from [x / y]. *)
Lemma round_near_quotient (r : Q) (x y t : Z) :
  (0 < y)%Z -> (0 < x <= 2 ^ 48)%Z -> (t * y <= x)%Z ->
  inject_Z x - 3 * eps * inject_Z x <= r * inject_Z y ->
  r * inject_Z y <= inject_Z x + 3 * eps * inject_Z x ->
  (t <= Qfloor (r + (1 # 2)) /\
   - y <= Qfloor (r + (1 # 2)) * y - x <= y)%Z.
Proof.
  intros Hy Hx Ht H1 H2.
  destruct (round_bounds r) as [A B].
  set (w := Qfloor (r + (1 # 2))) in *.
  pose proof (one_le_inject_Z y ltac:(lia)) as Hy1.
  assert (Hx1 : 0 <= inject_Z x) by (change 0 with (inject_Z 0); rewrite <- Zle_Qle; lia).
  assert (Hx2 : inject_Z x <= inject_Z (2 ^ 48)) by (rewrite <- Zle_Qle; lia).
  change (inject_Z (2 ^ 48)) with (281474976710656 # 1) in Hx2.
  assert (Hty : inject_Z t * inject_Z y <= inject_Z x).
  { rewrite <- inject_Z_mult, <- Zle_Qle. exact Ht. }
  assert (Aw : (r - (1 # 2)) * inject_Z y <= inject_Z w * inject_Z y).
  { apply Qmult_le_compat_r; lra. }
  assert (Bw : inject_Z w * inject_Z y <= (r + (1 # 2)) * inject_Z y).
  { apply Qmult_le_compat_r; lra. }
  unfold eps in *.
  split; [|split].
  - destruct (Z.le_gt_cases t w) as [Hle|Hgt]; [exact Hle|exfalso].
    assert (Hw1 : inject_Z (w + 1) <= inject_Z t) by (rewrite <- Zle_Qle; lia).
    rewrite inject_Z_plus in Hw1. change (inject_Z 1) with 1 in Hw1.
    assert (Hlt : r + (1 # 2) < inject_Z w + 1).
    { pose proof (Qlt_floor (r + (1 # 2))) as F. fold w in F.
      rewrite inject_Z_plus in F. exact F. }
    assert (Hr : (r + (1 # 2)) * inject_Z y <= inject_Z t * inject_Z y).
    { apply Qmult_le_compat_r; lra. }
    assert (Hstrict : (r + (1 # 2)) * inject_Z y < inject_Z t * inject_Z y).
    { apply Qmult_lt_compat_r; lra. }
    lra.
  - rewrite Zle_Qle, inject_Z_opp, inject_Z_minus, inject_Z_mult. lra.
  - rewrite Zle_Qle, inject_Z_minus, inject_Z_mult. lra.
Qed.

(** ... and it is not above an integer [t >= x / y]. *)
Lemma round_near_quotient_upper (r : Q) (x y t : Z) :
  (0 < y)%Z -> (0 <= x <= 2 ^ 48)%Z -> (x <= t * y)%Z ->
  r * inject_Z y <= inject_Z x + 3 * eps * inject_Z x ->
  (Qfloor (r + (1 # 2)) <= t)%Z.
Proof.
  intros Hy Hx Ht H2.
  destruct (round_bounds r) as [A B].
  set (w := Qfloor (r + (1 # 2))) in *.
  pose proof (one_le_inject_Z y ltac:(lia)) as Hy1.
  assert (Hx1 : 0 <= inject_Z x) by (change 0 with (inject_Z 0); rewrite <- Zle_Qle; lia).
  assert (Hx2 : inject_Z x <= inject_Z (2 ^ 48)) by (rewrite <- Zle_Qle; lia).
  change (inject_Z (2 ^ 48)) with (281474976710656 # 1) in Hx2.
  assert (Hty : inject_Z x <= inject_Z t * inject_Z y).
  { rewrite <- inject_Z_mult, <- Zle_Qle. exact Ht. }
  assert (Bw : inject_Z w * inject_Z y <= (r + (1 # 2)) * inject_Z y).
  { apply Qmult_le_compat_r; lra. }
  unfold eps in *.
  destruct (Z.le_gt_cases w t) as [Hle|Hgt]; [exact Hle|exfalso].
  assert (Hw1 : inject_Z (t + 1) <= inject_Z w) by (rewrite <- Zle_Qle; lia).
  rewrite inject_Z_plus in Hw1. change (inject_Z 1) with 1 in Hw1.
  assert (Hr : (inject_Z t + 1) * inject_Z y <= inject_Z w * inject_Z y).
  { apply Qmult_le_compat_r; lra. }
  lra.
Qed.

(** [a * c / b] as the geometry functions compute it: the product is
    exact, the quotient is rounded once. *)
Lemma mul_div_pixels (a c b : Z) :
  (0 < a < 2 ^ 24)%Z -> (0 < c < 2 ^ 24)%Z -> (0 < b < 2 ^ 24)%Z ->
  exists r,
    div (mul (Fin (inject_Z a)) (Fin (inject_Z c))) (Fin (inject_Z b)) = Fin r /\
    0 <= r /\
    inject_Z (a * c) - 3 * eps * inject_Z (a * c) <= r * inject_Z b /\
    r * inject_Z b <= inject_Z (a * c) + 3 * eps * inject_Z (a * c).
Proof.
  intros Ha Hc Hb.
  rewrite mul_integers by nia.
  rewrite div_integers by lia.
  destruct (b64_quotient (a * c) b ltac:(nia) ltac:(lia)) as (r & E & H1 & H2).
  exists r. split; [exact E|].
  assert (Hx : 1 <= inject_Z (a * c)).
  { change 1 with (inject_Z 1). rewrite <- Zle_Qle. nia. }
  assert (Hb1 : 1 <= inject_Z b).
  { change 1 with (inject_Z 1). rewrite <- Zle_Qle. lia. }
  unfold eps in *.
  split; [|split; lra].
  destruct (Qlt_le_dec r 0) as [Hneg|Hpos]; [exfalso|exact Hpos].
  assert (r * inject_Z b <= 0 * inject_Z b) by (apply Qmult_le_compat_r; lra).
  lra.
Qed.

Lemma sub_integers (a b : Z) :
  (0 <= a - b < 2 ^ 53)%Z ->
  sub (Fin (inject_Z a)) (Fin (inject_Z b)) = Fin (inject_Z (a - b)).
Proof.
  intros H. simpl. rewrite <- (b64_Z (a - b) H).
  apply b64_proper. now rewrite inject_Z_minus.
Qed.

Lemma le_integers (a b : Z) :
  le (Fin (inject_Z a)) (Fin (inject_Z b)) = (a <=? b)%Z.
Proof. apply (ge_integers b a). Qed.

Lemma truthy_integer (z : Z) : z <> 0%Z -> truthy (Fin (inject_Z z)) = true.
Proof. intros H. simpl. now rewrite is_zero_inject_Z. Qed.

(** [0 | n / 2] for a natural number [n] below [2^32]. *)
Lemma to_int32_half (n : Z) :
  (0 <= n < 2 ^ 32)%Z ->
  to_int32 (div (Fin (inject_Z n)) (Fin 2)) = Fin (inject_Z (n / 2)).
Proof.
  intros Hn.
  change (Fin 2) with (Fin (inject_Z 2)).
  rewrite div_integers by discriminate.
  change (inject_Z 2) with 2. rewrite b64_half by lia.
  unfold to_int32.
  pose proof (Qred_correct (n # 2)) as Hred.
  set (q := Qred (n # 2)) in *.
  assert (Hq : 0 <= q).
  { rewrite Hred. unfold Qle. simpl. lia. }
  assert (Hnum : (0 <= Qnum q)%Z).
  { unfold Qle in Hq. simpl in Hq. lia. }
  rewrite Z.quot_div_nonneg by (try exact Hnum; reflexivity).
  assert (Hfloor : (Qnum q / Zpos (Qden q))%Z = (n / 2)%Z).
  { assert (F : forall x : Q, (Qnum x / Zpos (Qden x))%Z = Qfloor x)
      by (intros [a b]; reflexivity).
    rewrite F, (Qfloor_comp _ _ Hred). reflexivity. }
  rewrite Hfloor.
  assert (Hhalf : (0 <= n / 2 < 2 ^ 31)%Z).
  { split; [apply Z.div_pos; lia|]. apply Z.div_lt_upper_bound; lia. }
  do 2 f_equal. rewrite Z.mod_small by lia. lia.
Qed.

(** On every triple of integers below 16, zero included, the
    operations above give what the Standard Library's binary64
    operations give; so they do on 400 triples of pixel counts drawn
    below [2^24] and on a few chosen values. *)
Lemma agree_small : Spec64.agree_upto 16 = true.
Proof. vm_compute. reflexivity. Qed.

Lemma agree_drawn : Spec64.agree_draws 400 2024 = true.
Proof. vm_compute. reflexivity. Qed.

Lemma agree_large :
  Spec64.agree 1 98 49 = true /\
  Spec64.agree 800 600 100 = true /\
  Spec64.agree 16777215 16777213 16777211 = true /\
  Spec64.agree 4099 3001 1920 = true /\
  Spec64.agree 9007199254740993 3 7 = true.
Proof. vm_compute. repeat split; reflexivity. Qed.

(** *** Negative integers *)

(** Rounding to the nearest even integer is symmetric. *)
Lemma rne_opp (x : Q) : rne (- x) = (- rne x)%Z.
Proof.
  pose proof (Qfloor_le x) as A. pose proof (Qlt_floor x) as B.
  rewrite inject_Z_plus in B. change (inject_Z 1) with 1 in B.
  set (f := Qfloor x) in *.
  assert (Ef : rne x = match Qcompare (x - inject_Z f) (1 # 2) with
                       | Lt => f | Gt => (f + 1)%Z
                       | Eq => if Z.even f then f else (f + 1)%Z end) by reflexivity.
  assert (Eg : forall g, Qfloor (- x) = g ->
               rne (- x) = match Qcompare (- x - inject_Z g) (1 # 2) with
                           | Lt => g | Gt => (g + 1)%Z
                           | Eq => if Z.even g then g else (g + 1)%Z end).
  { intros g <-. reflexivity. }
  assert (E1 : inject_Z (- f - 1) = - inject_Z f - 1).
  { rewrite inject_Z_minus, inject_Z_opp. reflexivity. }
  assert (E0 : inject_Z (- f) = - inject_Z f) by apply inject_Z_opp.
  destruct (Qeq_dec x (inject_Z f)) as [Hint|Hfrac].
  - rewrite (Eg (- f)%Z), Ef.
    + destruct (Qcompare_spec (x - inject_Z f) (1 # 2)) as [H|H|H]; try lra.
      destruct (Qcompare_spec (- x - inject_Z (- f)) (1 # 2)) as [H'|H'|H'];
        rewrite E0 in H'; try lra. reflexivity.
    + apply Qfloor_unique; rewrite E0; lra.
  - assert (Hlt : inject_Z f < x).
    { apply Qle_lteq in A as [A|A]; [exact A|]. exfalso. apply Hfrac. now symmetry. }
    rewrite (Eg (- f - 1)%Z), Ef.
    + destruct (Qcompare_spec (x - inject_Z f) (1 # 2)) as [H|H|H];
        destruct (Qcompare_spec (- x - inject_Z (- f - 1)) (1 # 2)) as [H'|H'|H'];
        rewrite E1 in H'; try lra; try lia.
      replace (- f - 1)%Z with (- (f + 1))%Z by lia.
      rewrite Z.even_opp, Z.even_add. simpl.
      destruct (Z.even f); simpl; lia.
    + apply Qfloor_unique; rewrite E1; lra.
Qed.

Lemma b64_opp (q r : Q) : b64 q = Fin r -> b64 (- q) = Fin (- r).
Proof.
  unfold b64. rewrite Qred_opp. set (p := Qred q).
  assert (Hzero : Qeq_bool (- p) 0 = Qeq_bool p 0).
  { destruct (Qeq_bool p 0) eqn:E.
    - apply Qeq_bool_iff in E. apply Qeq_bool_iff. lra.
    - destruct (Qeq_bool (- p) 0) eqn:E'; [|reflexivity].
      apply Qeq_bool_iff in E'. assert (H : p == 0) by lra.
      apply Qeq_bool_iff in H. congruence. }
  rewrite Hzero. destruct (Qeq_bool p 0).
  { intros H. injection H as <-. reflexivity. }
  assert (Hexp : cexp (- p) = cexp p).
  { unfold cexp, flog2. destruct p as [n d]. simpl. now rewrite Z.abs_opp. }
  rewrite Hexp. set (e := cexp p).
  assert (Hrne : rne (- p / two_pow e) = (- rne (p / two_pow e))%Z).
  { rewrite <- rne_opp. apply rne_proper. unfold Qdiv. ring. }
  rewrite Hrne. set (m := rne (p / two_pow e)).
  assert (Hv : inject_Z (- m) * two_pow e == - (inject_Z m * two_pow e)).
  { rewrite inject_Z_opp. ring. }
  assert (Habs : Qabs (inject_Z (- m) * two_pow e) == Qabs (inject_Z m * two_pow e)).
  { rewrite Hv. apply Qabs_opp. }
  rewrite (Qleb_comp _ _ (Qeq_refl (two_pow emax)) _ _ Habs).
  destruct (Qle_bool (two_pow emax) (Qabs (inject_Z m * two_pow e))); [discriminate|].
  intros H. injection H as <-. f_equal.
  rewrite <- Qred_opp. apply Qred_complete. exact Hv.
Qed.

(** Integers of either sign below [2^53] are binary64 values. *)
Lemma of_Z_signed (z : Z) : (Z.abs z < 2 ^ 53)%Z -> of_Z z = Fin (inject_Z z).
Proof.
  intros Hz. destruct (Z.le_gt_cases 0 z) as [Hpos|Hneg].
  - apply of_Z_exact. lia.
  - unfold of_Z.
    assert (E : inject_Z z = - inject_Z (- z)).
    { rewrite inject_Z_opp. unfold inject_Z, Qopp. simpl. now rewrite Z.opp_involutive. }
    rewrite E. apply b64_opp. apply b64_Z. lia.
Qed.

Lemma add_signed (a b : Z) :
  (Z.abs (a + b) < 2 ^ 53)%Z ->
  add (Fin (inject_Z a)) (Fin (inject_Z b)) = Fin (inject_Z (a + b)).
Proof.
  intros H. simpl. rewrite <- (of_Z_signed (a + b) H). unfold of_Z.
  apply b64_proper. now rewrite inject_Z_plus.
Qed.

End JSFacts.

(** ** The geometry functions on pixel counts *)

Module GeometryFacts.

Import JS JSFacts.

Lemma pixels_exact (z : Z) : pixels z -> of_Z z = Fin (inject_Z z).
Proof. intros [H1 H2]. apply of_Z_exact. lia. Qed.

Lemma image_width_exact (image : Image) :
  pixels (Z.of_N (pixel_width image)) ->
  image_width image = Fin (inject_Z (Z.of_N (pixel_width image))).
Proof. intros [H1 H2]. apply of_N_exact. lia. Qed.

Lemma image_height_exact (image : Image) :
  pixels (Z.of_N (pixel_height image)) ->
  image_height image = Fin (inject_Z (Z.of_N (pixel_height image))).
Proof. intros [H1 H2]. apply of_N_exact. lia. Qed.

(** [getCropDimensions] on pixel counts: which axis is fixed, that the
    result covers the target, and how far the derived axis is from the
    exact proportion. *)
Lemma getCropDimensions_pixels (image : Image) (tw th : Z) :
  let W := Z.of_N (pixel_width image) in
  let H := Z.of_N (pixel_height image) in
  pixels W -> pixels H -> pixels tw -> pixels th ->
  exists w h : Z,
    getCropDimensions image (of_Z tw) (of_Z th)
    = {| Dim.width := Fin (inject_Z w); Dim.height := Fin (inject_Z h) |} /\
    (tw <= w)%Z /\ (th <= h)%Z /\
    if (tw * H <? W * th)%Z
    then h = th /\ (- H <= w * H - th * W <= H)%Z
    else w = tw /\ (- W <= h * W - tw * H <= W)%Z.
Proof.
  intros W H HW HH Htw Hth.
  unfold getCropDimensions.
  rewrite (image_width_exact image HW), (image_height_exact image HH).
  rewrite (pixels_exact tw Htw), (pixels_exact th Hth).
  fold W H.
  unfold pixels in *.
  rewrite (div_integers W H), (div_integers tw th) by lia.
  rewrite (gt_quotients W H tw th) by assumption.
  destruct (b64_quotient W H ltac:(lia) ltac:(lia)) as (r & Er & Hr1 & Hr2).
  rewrite Er.
  destruct (Z.ltb_spec (tw * H) (W * th)) as [Hlt|Hge].
  - destruct (b64_times_ratio th W H Hth HW HH r Hr1 Hr2) as (r2 & E2 & H1 & H2).
    change (mul (Fin (inject_Z th)) (Fin r)) with (b64 (inject_Z th * r)).
    rewrite E2, round_integer. unfold round.
    rewrite <- !inject_Z_mult in H1, H2.
    destruct (round_near_quotient r2 (th * W) H tw) as [A B];
      [lia | nia | lia | exact H1 | exact H2 |].
    exists (Qfloor (r2 + (1 # 2))), th.
    repeat split; lia.
  - destruct (ratio_bounds tw W H Htw HW HH r Hr1 Hr2) as [Hrlo Hrhi].
    destruct (b64_over_ratio tw W H Htw HW HH r Hr1 Hr2) as (r2 & E2 & H1 & H2).
    assert (Ediv : div (Fin (inject_Z tw)) (Fin r) = b64 (inject_Z tw / r)).
    { simpl. unfold is_zero. destruct (Qeq_bool r 0) eqn:E; [|reflexivity].
      apply Qeq_bool_iff in E. lra. }
    rewrite Ediv, E2, round_integer. unfold round.
    rewrite <- !inject_Z_mult in H1, H2.
    destruct (round_near_quotient r2 (tw * H) W th) as [A B];
      [lia | nia | lia | exact H1 | exact H2 |].
    exists tw, (Qfloor (r2 + (1 # 2))).
    repeat split; lia.
Qed.

(** [adaptDimensions] on pixel counts.  The result stays within the
    natural size except when the container is relatively wider than the
    image and exactly as high: then the target comes back unchanged. *)
Lemma adaptDimensions_pixels (image : Image) (tw th : Z) :
  let W := Z.of_N (pixel_width image) in
  let H := Z.of_N (pixel_height image) in
  pixels W -> pixels H -> pixels tw -> pixels th ->
  exists w h : Z,
    adaptDimensions image (of_Z tw) (of_Z th)
    = {| Dim.width := Fin (inject_Z w); Dim.height := Fin (inject_Z h) |} /\
    (0 <= w)%Z /\ (0 <= h)%Z /\
    if ((W * th <? tw * H) && (H =? th))%Z
    then w = tw /\ h = th /\ (W < tw)%Z
    else (w <= W)%Z /\ (h <= H)%Z.
Proof.
  intros W H HW HH Htw Hth.
  unfold adaptDimensions.
  rewrite (image_width_exact image HW), (image_height_exact image HH).
  rewrite (pixels_exact tw Htw), (pixels_exact th Hth).
  fold W H.
  unfold pixels in *.
  rewrite (div_integers W H), (div_integers tw th) by lia.
  rewrite (gt_quotients tw th W H) by assumption.
  destruct (Z.ltb_spec (W * th) (tw * H)) as [Hlt|Hge]; simpl andb.
  - rewrite lt_integers.
    destruct (Z.ltb_spec H th) as [Hsmall|Hbig].
    + rewrite gt_integers, Z.ltb_irrefl, !round_integer.
      exists W, H. destruct (Z.eqb_spec H th); repeat split; lia.
    + rewrite gt_integers.
      destruct (Z.ltb_spec th H) as [Hshrink|Hsame].
      * destruct (mul_div_pixels W th H HW Hth HH) as (r & E & Hr0 & _ & Hr2).
        rewrite E, round_integer. unfold round.
        exists (Qfloor (r + (1 # 2))), th.
        pose proof (round_near_quotient_upper r (W * th) H W
                      ltac:(lia) ltac:(nia) ltac:(nia) Hr2) as Hup.
        pose proof (round_nonneg r Hr0) as Hnonneg.
        destruct (Z.eqb_spec H th); repeat split; lia.
      * rewrite !round_integer. exists tw, th.
        destruct (Z.eqb_spec H th); repeat split; nia.
  - rewrite lt_integers.
    destruct (Z.ltb_spec W tw) as [Hsmall|Hbig].
    + rewrite ge_integers, Z.leb_refl.
      destruct (mul_div_pixels H W W HH HW HW) as (r & E & Hr0 & Hr1 & Hr2).
      rewrite E, round_integer. unfold round.
      exists W, (Qfloor (r + (1 # 2))).
      pose proof (round_near_quotient_upper r (H * W) W H
                    ltac:(lia) ltac:(nia) ltac:(nia) Hr2) as Hup.
      pose proof (round_nonneg r Hr0) as Hnonneg.
      repeat split; lia.
    + rewrite ge_integers.
      destruct (Z.leb_spec tw W) as [_|Habs]; [|lia].
      destruct (mul_div_pixels H tw W HH Htw HW) as (r & E & Hr0 & Hr1 & Hr2).
      rewrite E, round_integer. unfold round.
      exists tw, (Qfloor (r + (1 # 2))).
      pose proof (round_near_quotient_upper r (H * tw) W H
                    ltac:(lia) ltac:(nia) ltac:(nia) Hr2) as Hup.
      pose proof (round_nonneg r Hr0) as Hnonneg.
      repeat split; lia.
Qed.

(** The scaled axis [c * t / a], rounded, when it does not exceed the
    natural length [c]: the result is a natural number not above [c],
    and the requested length [t] is not above [a]. *)
Lemma single_axis (a c t : Z) (r : Q) :
  (0 < a < 2 ^ 24)%Z -> (0 < c < 2 ^ 24)%Z -> (0 < t < 2 ^ 24)%Z ->
  (0 <= r)%Q ->
  (inject_Z (c * t) - 3 * eps * inject_Z (c * t) <= r * inject_Z a)%Q ->
  gt (Fin r) (Fin (inject_Z c)) = false ->
  (0 <= Qfloor (r + (1 # 2)) <= c)%Z /\ (t <= a)%Z.
Proof.
  intros Ha Hc Ht Hr0 Hr1 Hgt.
  assert (Hle : (r <= inject_Z c)%Q).
  { destruct (Qlt_le_dec (inject_Z c) r) as [H|H]; [|exact H].
    apply gt_Fin in H. congruence. }
  split; [split|].
  - apply round_nonneg. exact Hr0.
  - apply Z.le_trans with (Qfloor (inject_Z c + (1 # 2))).
    + apply Qfloor_resp_le. lra.
    + rewrite (Qfloor_unique (inject_Z c + (1 # 2)) c) by lra. lia.
  - destruct (Z.le_gt_cases t a) as [H|H]; [exact H|exfalso].
    assert (Hta : (inject_Z a + 1 <= inject_Z t)%Q).
    { change 1%Q with (inject_Z 1). rewrite <- inject_Z_plus, <- Zle_Qle. lia. }
    assert (Ha1 : (1 <= inject_Z a)%Q).
    { change 1%Q with (inject_Z 1). rewrite <- Zle_Qle. lia. }
    assert (Hc1 : (1 <= inject_Z c)%Q).
    { change 1%Q with (inject_Z 1). rewrite <- Zle_Qle. lia. }
    assert (Ht2 : (inject_Z t <= 16777216 # 1)%Q).
    { change (16777216 # 1) with (inject_Z (2 ^ 24)). rewrite <- Zle_Qle. lia. }
    rewrite inject_Z_mult in Hr1.
    assert (A : (r * inject_Z a <= inject_Z c * inject_Z a)%Q).
    { apply Qmult_le_compat_r; lra. }
    assert (B : (inject_Z c * (inject_Z a + 1) <= inject_Z c * inject_Z t)%Q).
    { apply Qmult_le_compat_l; lra. }
    assert (C : (inject_Z c * inject_Z t <= inject_Z c * (16777216 # 1))%Q).
    { apply Qmult_le_compat_l; lra. }
    unfold eps in *. nra.
Qed.

(** [getDimensionsWidthMax] on pixel counts. *)
Lemma getDimensionsWidthMax_pixels (image : Image) (tw : Z) :
  let W := Z.of_N (pixel_width image) in
  let H := Z.of_N (pixel_height image) in
  pixels W -> pixels H -> pixels tw ->
  exists w h : Z,
    getDimensionsWidthMax image (of_Z tw)
    = {| Dim.width := Fin (inject_Z w); Dim.height := Fin (inject_Z h) |} /\
    (0 < w <= W)%Z /\ (0 <= h <= H)%Z.
Proof.
  intros W H HW HH Htw.
  unfold getDimensionsWidthMax.
  rewrite (image_width_exact image HW), (image_height_exact image HH).
  rewrite (pixels_exact tw Htw).
  fold W H. unfold pixels in *.
  destruct (mul_div_pixels H tw W HH Htw HW) as (r & E & Hr0 & Hr1 & Hr2).
  rewrite E.
  destruct (gt (Fin r) (Fin (inject_Z H))) eqn:Hgt.
  - rewrite !round_integer. exists W, H. repeat split; lia.
  - rewrite round_integer. unfold round.
    destruct (single_axis W H tw r HW HH Htw Hr0 Hr1 Hgt) as [[A B] C].
    exists tw, (Qfloor (r + (1 # 2))). repeat split; lia.
Qed.

(** [getDimensionsHeightMax] on pixel counts. *)
Lemma getDimensionsHeightMax_pixels (image : Image) (th : Z) :
  let W := Z.of_N (pixel_width image) in
  let H := Z.of_N (pixel_height image) in
  pixels W -> pixels H -> pixels th ->
  exists w h : Z,
    getDimensionsHeightMax image (of_Z th)
    = {| Dim.width := Fin (inject_Z w); Dim.height := Fin (inject_Z h) |} /\
    (0 <= w <= W)%Z /\ (0 < h <= H)%Z.
Proof.
  intros W H HW HH Hth.
  unfold getDimensionsHeightMax.
  rewrite (image_width_exact image HW), (image_height_exact image HH).
  rewrite (pixels_exact th Hth).
  fold W H. unfold pixels in *.
  destruct (mul_div_pixels W th H HW Hth HH) as (r & E & Hr0 & Hr1 & Hr2).
  rewrite E.
  destruct (gt (Fin r) (Fin (inject_Z W))) eqn:Hgt.
  - rewrite !round_integer. exists W, H. repeat split; lia.
  - rewrite round_integer. unfold round.
    destruct (single_axis H W th r HH HW Hth Hr0 Hr1 Hgt) as [[A B] C].
    exists (Qfloor (r + (1 # 2))), th. repeat split; lia.
Qed.

(** C5: on pixel counts [getCropDimensions] returns integers that cover
    the target (so in particular are not below it by more than one
    pixel); when the image is relatively wider than the target the
    height is the target's and the width is derived, otherwise (a tie
    included) the width is the target's and the height is derived; and
    the derived side is less than one pixel away from the exact
    proportion of the image. *)
Theorem getCropDimensions_cover (image : Image) (tw th : Z) :
  let W := Z.of_N (pixel_width image) in
  let H := Z.of_N (pixel_height image) in
  pixels W -> pixels H -> pixels tw -> pixels th ->
  exists w h : Z,
    getCropDimensions image (of_Z tw) (of_Z th)
    = {| Dim.width := Fin (inject_Z w); Dim.height := Fin (inject_Z h) |} /\
    (tw - 1 <= w)%Z /\ (th - 1 <= h)%Z /\
    ((tw * H < W * th)%Z -> h = th /\ (Z.abs (w * H - th * W) <= H)%Z) /\
    ((W * th <= tw * H)%Z -> w = tw /\ (Z.abs (h * W - tw * H) <= W)%Z).
Proof.
  intros W H HW HH Htw Hth.
  destruct (getCropDimensions_pixels image tw th HW HH Htw Hth)
    as (w & h & E & Hw & Hh & Hbranch).
  fold W H in Hbranch.
  exists w, h. split; [exact E|].
  split; [lia|]. split; [lia|].
  destruct (Z.ltb_spec (tw * H) (W * th)) as [Hlt|Hge];
    destruct Hbranch as [-> Hnear]; split; intros Hcmp; try lia;
    (split; [reflexivity | lia]).
Qed.

(** C8 as the specification has it fails: a wide image scaled down to a
    width of 100 gets the height zero. *)
Lemma getDimensionsWidthMax_zero_height :
  pixels 1000 /\ pixels 1 /\ pixels 100 /\
  getDimensionsWidthMax {| pixel_width := 1000; pixel_height := 1 |} (of_Z 100)
  = {| Dim.width := Fin 100; Dim.height := Fin 0 |}.
Proof. unfold pixels. repeat split; try lia. Qed.

(** C1: the code enlarges the image when the container is relatively
    wider than the image and exactly as high: a 100 x 100 image asked
    into 200 x 100 comes back 200 x 100. *)
Theorem adaptDimensions_equal_height :
  adaptDimensions {| pixel_width := 100; pixel_height := 100 |} (of_Z 200) (of_Z 100)
  = {| Dim.width := Fin 200; Dim.height := Fin 100 |}.
Proof. vm_compute. reflexivity. Qed.

Lemma div_by_zero (a : Z) :
  (0 < a)%Z -> div (Fin (inject_Z a)) (Fin 0) = Inf false.
Proof.
  intros Ha. simpl. rewrite is_zero_inject_Z by lia.
  unfold is_neg. simpl. destruct (Z.ltb_spec a 0); [lia | reflexivity].
Qed.

Lemma div_zero_by (b : Z) :
  b <> 0%Z -> div (Fin 0) (Fin (inject_Z b)) = Fin 0.
Proof.
  intros Hb. change (Fin 0) with (Fin (inject_Z 0)) at 1.
  rewrite div_integers by exact Hb.
  assert (E : inject_Z 0 / inject_Z b == 0) by (unfold Qdiv; ring).
  now rewrite (b64_proper _ _ E).
Qed.

(** C3, as the code has it: the geometry functions check nothing and
    have no error to signal; they return a record for whatever they are
    given.  With an image dimension of zero and pixel counts otherwise,
    [getCropDimensions] returns [Infinity] on the side it derives; with
    both image dimensions zero each function returns [NaN] on one
    side. *)
Theorem zero_dimension_results (image : Image) (tw th : Z) :
  let W := Z.of_N (pixel_width image) in
  let H := Z.of_N (pixel_height image) in
  pixels tw -> pixels th ->
  (pixels W -> H = 0%Z ->
   getCropDimensions image (of_Z tw) (of_Z th)
   = {| Dim.width := Inf false; Dim.height := Fin (inject_Z th) |}) /\
  (W = 0%Z -> pixels H ->
   getCropDimensions image (of_Z tw) (of_Z th)
   = {| Dim.width := Fin (inject_Z tw); Dim.height := Inf false |}) /\
  (W = 0%Z -> H = 0%Z ->
   getCropDimensions image (of_Z tw) (of_Z th)
   = {| Dim.width := Fin (inject_Z tw); Dim.height := NaN |} /\
   adaptDimensions image (of_Z tw) (of_Z th)
   = {| Dim.width := Fin 0; Dim.height := NaN |} /\
   getDimensionsWidthMax image (of_Z tw)
   = {| Dim.width := Fin (inject_Z tw); Dim.height := NaN |} /\
   getDimensionsHeightMax image (of_Z th)
   = {| Dim.width := NaN; Dim.height := Fin (inject_Z th) |}).
Proof.
  intros W H Htw Hth.
  assert (Hzero : forall n : N, Z.of_N n = 0%Z -> of_N n = Fin 0).
  { intros n Hn. assert (n = 0%N) as -> by lia. reflexivity. }
  pose proof (pixels_exact tw Htw) as Etw.
  pose proof (pixels_exact th Hth) as Eth.
  unfold pixels in Htw, Hth.
  destruct (b64_quotient tw th ltac:(lia) ltac:(lia)) as (r & Er & Hr1 & Hr2).
  destruct (ratio_bounds tw tw th Htw Htw Hth r Hr1 Hr2) as [Hrlo _].
  split; [|split].
  - intros HW HH.
    unfold getCropDimensions, image_height.
    rewrite (image_width_exact image HW), (Hzero _ HH), Etw, Eth.
    fold W. unfold pixels in HW.
    rewrite div_by_zero, div_integers, Er by lia.
    simpl gt. cbv iota.
    assert (Emul : mul (Fin (inject_Z th)) (Inf false) = Inf false).
    { simpl. rewrite is_zero_inject_Z by lia.
      unfold is_neg. simpl. destruct (Z.ltb_spec th 0); [lia | reflexivity]. }
    rewrite Emul, round_integer. reflexivity.
  - intros HW HH.
    unfold getCropDimensions, image_width.
    rewrite (image_height_exact image HH), (Hzero _ HW), Etw, Eth.
    fold H. unfold pixels in HH.
    rewrite div_zero_by, div_integers, Er by lia.
    assert (Egt : gt (Fin 0) (Fin r) = false).
    { destruct (gt (Fin 0) (Fin r)) eqn:E; [|reflexivity].
      apply gt_Fin in E. lra. }
    rewrite Egt, div_by_zero, round_integer by lia. reflexivity.
  - intros HW HH.
    unfold getCropDimensions, adaptDimensions, getDimensionsWidthMax,
      getDimensionsHeightMax, image_width, image_height.
    rewrite (Hzero _ HW), (Hzero _ HH), Etw, Eth.
    rewrite div_integers, Er by lia.
    assert (E00 : div (Fin 0) (Fin 0) = NaN) by reflexivity.
    assert (Em0 : forall z, mul (Fin 0) (Fin (inject_Z z)) = Fin 0).
    { intros z. simpl. assert (E : 0 * inject_Z z == 0) by ring.
      now rewrite (b64_proper _ _ E). }
    assert (Elt : lt (Fin 0) (Fin (inject_Z tw)) = true).
    { change (Fin 0) with (Fin (inject_Z 0)). rewrite lt_integers.
      apply Z.ltb_lt. lia. }
    rewrite E00. simpl gt. cbv iota.
    rewrite Elt. change (ge (Fin 0) (Fin 0)) with true. cbv iota.
    rewrite !Em0. change (mul (Fin 0) (Fin 0)) with (Fin 0).
    rewrite E00. simpl gt. cbv iota.
    rewrite !round_integer. repeat split; reflexivity.
Qed.

(** C3 as the specification has it fails: an image of height zero makes
    [getCropDimensions] return [Infinity] as the width, not an error. *)
Lemma getCropDimensions_infinite_width :
  getCropDimensions {| pixel_width := 100; pixel_height := 0 |} (of_Z 10) (of_Z 10)
  = {| Dim.width := Inf false; Dim.height := Fin 10 |}.
Proof. vm_compute. reflexivity. Qed.

(** The 800 x 600 photo and the 100 x 100 target. *)
Lemma getCropDimensions_cover_photo :
  exists w h : Z,
    getCropDimensions Sample.photo (of_Z 100) (of_Z 100)
    = {| Dim.width := Fin (inject_Z w); Dim.height := Fin (inject_Z h) |} /\
    (100 - 1 <= w)%Z /\ (100 - 1 <= h)%Z /\
    ((100 * 600 < 800 * 100)%Z -> h = 100%Z /\ (Z.abs (w * 600 - 100 * 800) <= 600)%Z) /\
    ((800 * 100 <= 100 * 600)%Z -> w = 100%Z /\ (Z.abs (h * 800 - 100 * 600) <= 800)%Z).
Proof.
  apply (getCropDimensions_cover Sample.photo 100 100); unfold pixels; simpl; lia.
Defined.

Lemma zero_dimension_results_sample :
  getCropDimensions {| pixel_width := 800; pixel_height := 0 |} (of_Z 100) (of_Z 100)
  = {| Dim.width := Inf false; Dim.height := Fin (inject_Z 100) |}.
Proof.
  apply (zero_dimension_results {| pixel_width := 800; pixel_height := 0 |} 100 100);
    unfold pixels; simpl; lia.
Defined.

End GeometryFacts.

(** ** The upload *)

Section UploadFacts.

Variable staticUrl : string.
Variable resizeLimit : option nat.
Variable lwip_open : Source -> string -> Error + Image.
Variable toBuffer : Image -> list Op -> string -> Error + list Byte.byte.
Variable throws : Op -> bool.
Variable template : string -> File.t -> string.
Variable uploadFromBuffer : list Byte.byte -> string -> Error + string.
Variable source : Source.
Variable config : Config.t.

Local Abbreviation task := (task staticUrl lwip_open toBuffer template uploadFromBuffer source config).
Local Abbreviation limit := (limit resizeLimit).
Local Abbreviation replenish := (replenish resizeLimit).
Local Abbreviation complete :=
  (complete staticUrl resizeLimit lwip_open toBuffer template uploadFromBuffer source config).
Local Abbreviation step :=
  (step staticUrl resizeLimit lwip_open toBuffer throws template uploadFromBuffer
     source config).
Local Abbreviation upload := (upload resizeLimit source config).
Local Abbreviation type := (type source).
Local Abbreviation steps :=
  (steps staticUrl resizeLimit lwip_open toBuffer throws template uploadFromBuffer
     source config).
Local Abbreviation succeeded :=
  (succeeded staticUrl lwip_open toBuffer template uploadFromBuffer source config).
Local Abbreviation file_name := (file_name template source config).
Local Abbreviation calls_back := (calls_back lwip_open throws source config).
Local Abbreviation invariant :=
  (invariant staticUrl resizeLimit lwip_open toBuffer template uploadFromBuffer
     source config).

Lemma limit_pos : (0 < limit)%nat.
Proof. unfold Batch.limit. destruct resizeLimit as [[|n]|]; lia. Qed.

Lemma final_callback_fields (err : option Error) (s : State) :
  pending (final_callback err s) = pending s /\
  running (final_callback err s) = running s /\
  images (final_callback err s) = images s /\
  errored (final_callback err s) = errored s /\
  done (final_callback err s) = done s /\
  completed (final_callback err s) = completed s /\
  called (final_callback err s) = true /\
  replies (final_callback err s) =
    if called s then replies s
    else replies s ++ [match err with
                       | Some e => Failure e
                       | None => Success (images s)
                       end].
Proof.
  unfold final_callback. destruct (called s) eqn:E; simpl; repeat split; auto.
Qed.

Lemma replenish_fields (s : State) :
  images (replenish s) = images s /\
  errored (replenish s) = errored s /\
  completed (replenish s) = completed s /\
  running (replenish s) ++ pending (replenish s) = running s ++ pending s.
Proof.
  unfold Batch.replenish, final_callback.
  repeat (case_match; simpl); repeat split; auto;
    rewrite <- ?app_assoc, ?take_drop; reflexivity.
Qed.

Lemma replenish_completed (s : State) : completed (replenish s) = completed s.
Proof. apply replenish_fields. Qed.

Lemma replenish_limit (s : State) :
  (length (running s) <= limit)%nat -> (length (running (replenish s)) <= limit)%nat.
Proof.
  intros H. unfold Batch.replenish, final_callback.
  repeat (case_match; simpl); auto;
    rewrite ?length_app, ?length_take; lia.
Qed.

Lemma replenish_done (s : State) :
  (done s = true -> pending s = []) ->
  done (replenish s) = true -> pending (replenish s) = [].
Proof.
  intros H. unfold Batch.replenish.
  destruct (done s && (length (running s) =? 0)%nat) eqn:E1.
  { destruct (final_callback_fields None s) as (-> & _ & _ & _ & -> & _). exact H. }
  destruct (errored s); [exact H|].
  cbv zeta. simpl running. simpl pending.
  destruct (length (running s ++ take (limit - length (running s)) (pending s)) <? limit)%nat eqn:E2.
  - apply Nat.ltb_lt in E2.
    assert (Hdrop : drop (limit - length (running s)) (pending s) = []).
    { apply drop_ge. rewrite length_app, length_take in E2. lia. }
    intros _.
    destruct (length (running s ++ take (limit - length (running s)) (pending s)) =? 0)%nat.
    + match goal with |- pending (final_callback ?e ?t) = [] =>
        destruct (final_callback_fields e t) as (-> & _) end.
      exact Hdrop.
    + exact Hdrop.
  - simpl. intros Hd. rewrite (H Hd). apply drop_nil.
Qed.

(** Once the final callback has run, the limiter calls nothing. *)
Lemma replenish_called (s : State) :
  called s = true ->
  called (replenish s) = true /\ replies (replenish s) = replies s.
Proof.
  intros H. unfold Batch.replenish, final_callback.
  repeat (case_match; simpl); auto; simpl in *; congruence.
Qed.

(** Before that, and while no task has failed, it either leaves some
    task running or finds nothing left and calls back with [images]. *)
Lemma replenish_open (s : State) :
  called s = false -> errored s = false ->
  (done s = true -> pending s = []) ->
  (called (replenish s) = false /\ replies (replenish s) = replies s /\
   running (replenish s) <> []) \/
  (called (replenish s) = true /\
   replies (replenish s) = replies s ++ [Success (images s)] /\
   running (replenish s) = [] /\ pending (replenish s) = []).
Proof.
  intros Hc He Hd. pose proof limit_pos as Hl.
  unfold Batch.replenish, final_callback. rewrite Hc, He.
  destruct (done s && (length (running s) =? 0)%nat) eqn:E1; simpl.
  { apply andb_true_iff in E1 as [E1 E2]. apply Nat.eqb_eq in E2.
    right. rewrite (Hd E1). destruct (running s); [auto|discriminate]. }
  rewrite ?Hc.
  destruct (length (running s ++ take (limit - length (running s)) (pending s)) <? limit)%nat eqn:E2;
    simpl.
  - apply Nat.ltb_lt in E2.
    assert (Hdrop : drop (limit - length (running s)) (pending s) = []).
    { apply drop_ge. rewrite length_app, length_take in E2. lia. }
    destruct (length (running s ++ take (limit - length (running s)) (pending s)) =? 0)%nat eqn:E3;
      simpl.
    + apply Nat.eqb_eq in E3. right. rewrite Hdrop.
      destruct (running s ++ take (limit - length (running s)) (pending s));
        [auto|discriminate].
    + apply Nat.eqb_neq in E3. left. repeat split; auto.
      intros Habs. rewrite Habs in E3. simpl in E3. lia.
  - apply Nat.ltb_ge in E2. left. repeat split; auto.
    intros Habs. rewrite Habs in E2. simpl in E2. lia.
Qed.

Lemma stored_empty (k : string) : stored k ∅ = None.
Proof. unfold stored. destruct (String.eqb k "__proto__"); reflexivity. Qed.

Lemma stored_assign (k : string) (entry : Uploaded) (o : Images) :
  stored k (assign k entry o) = Some entry.
Proof.
  unfold stored, assign. destruct (String.eqb k "__proto__"); simpl;
    [reflexivity | apply lookup_insert_eq].
Qed.

Lemma stored_assign_ne (k k' : string) (entry : Uploaded) (o : Images) :
  k <> k' -> stored k' (assign k entry o) = stored k' o.
Proof.
  intros Hne. unfold stored, assign.
  destruct (String.eqb_spec k "__proto__") as [->|Hk];
    destruct (String.eqb_spec k' "__proto__") as [->|Hk']; simpl;
    try reflexivity; try congruence.
  apply lookup_insert_ne. exact Hne.
Qed.

Lemma own_assign (k : string) (entry : Uploaded) (o : Images) :
  own (assign k entry o) !! "__proto__" = own o !! "__proto__".
Proof.
  unfold assign. destruct (String.eqb_spec k "__proto__") as [->|Hk]; simpl;
    [reflexivity | apply lookup_insert_ne; exact Hk].
Qed.

(** Two objects without the own key ["__proto__"] are equal when every
    key has been left the same value. *)
Lemma stored_ext (o o' : Images) :
  own o !! "__proto__" = None -> own o' !! "__proto__" = None ->
  (forall k, stored k o = stored k o') -> o = o'.
Proof.
  intros Ho Ho' H. destruct o as [m p], o' as [m' p']. simpl in *.
  f_equal.
  - apply map_eq. intros k. pose proof (H k) as Hk. unfold stored in Hk. simpl in Hk.
    destruct (String.eqb k "__proto__") eqn:E; [|exact Hk].
    apply String.eqb_eq in E. rewrite E. congruence.
  - apply (H "__proto__").
Qed.

Lemma invariant_upload (files : list File.t) :
  invariant files
    (replenish
       {| pending := files; running := []; images := ∅; errored := false;
          done := false; called := false; replies := []; completed := [] |}).
Proof.
  set (s0 := {| pending := files; running := []; images := ∅; errored := false;
                done := false; called := false; replies := []; completed := [] |}).
  destruct (replenish_fields s0) as (Hi & He & Hc & Hrp).
  split.
  - rewrite Hc, app_nil_r, Hrp. reflexivity.
  - apply replenish_limit. simpl. lia.
  - apply replenish_done. discriminate.
  - rewrite Hi. intros k v H. simpl in H. rewrite stored_empty in H. discriminate.
  - rewrite Hc. intros c k v H. simpl in H. inversion H.
  - rewrite Hi. reflexivity.
  - destruct (replenish_open s0) as [(H1 & H2 & H3)|(H1 & H2 & H3 & H4)];
      try reflexivity; try discriminate; rewrite H2; simpl.
    + rewrite He, Hc. repeat split; auto.
    + rewrite Hi, Hc. repeat split; auto.
Qed.

Lemma invariant_step (files : list File.t) (s s' : State) :
  invariant files s -> step s s' -> invariant files s'.
Proof.
  intros [Hfiles Hlimit Hdone Hsound Hcomplete Hown Hreplies] Hstep.
  destruct Hstep as [s before c after Hrun _].
  assert (Hrest : (length (before ++ after) <= limit)%nat).
  { rewrite Hrun in Hlimit. rewrite !length_app in *. simpl in Hlimit. lia. }
  assert (Hperm : (before ++ after) ++ pending s ++ c :: completed s ≡ₚ files).
  { rewrite <- Hfiles, Hrun.
    rewrite <- !app_assoc. apply Permutation_app_head. simpl.
    symmetry. rewrite !app_assoc. apply Permutation_middle. }
  unfold Batch.complete.
  destruct (task c) as [err|[k entry]] eqn:Etask.
  - (* the task has failed *)
    match goal with |- invariant _ ?t => set (s2 := t) end.
    match goal with s2 := context [final_callback ?e ?t] |- _ =>
      set (s1 := t) in *;
      destruct (final_callback_fields e s1) as (F1 & F2 & F3 & F4 & F5 & F6 & F7 & F8)
    end.
    split; simpl.
    + rewrite F1, F2, F6. exact Hperm.
    + rewrite F2. exact Hrest.
    + rewrite F5, F1. exact Hdone.
    + rewrite F3, F6. simpl. intros k v H.
      destruct (Hsound k v H) as (c' & Hc' & Ht). exists c'. split; [|exact Ht].
      apply elem_of_cons. now right.
    + rewrite F3, F6. simpl. intros c' k v Hin Ht.
      apply elem_of_cons in Hin as [->|Hin]; [congruence|].
      apply (Hcomplete c' k v Hin Ht).
    + rewrite F3. exact Hown.
    + rewrite F8, F7, F6. simpl.
      destruct (replies s) as [|[e0|m] [|]]; try contradiction.
      * destruct Hreplies as (Hc & He & Hall & _). rewrite Hc. simpl.
        repeat split; auto. exists [], c, (completed s). auto.
      * destruct Hreplies as (Hc & He & later & c0 & earlier & Hl & Ht & Hall).
        rewrite Hc. repeat split; auto.
        exists (c :: later), c0, earlier. rewrite Hl. auto.
      * destruct Hreplies as (_ & _ & _ & Hnil & _).
        rewrite Hrun in Hnil. destruct before; discriminate.
  - (* the task has succeeded *)
    match goal with |- invariant _ (replenish ?t) => remember t as s1 eqn:Es1 end.
    assert (Rp : pending s1 = pending s) by (subst s1; reflexivity).
    assert (Rr : running s1 = before ++ after) by (subst s1; reflexivity).
    assert (Ri : images s1 = assign k entry (images s)) by (subst s1; reflexivity).
    assert (Re : errored s1 = errored s) by (subst s1; reflexivity).
    assert (Rd : done s1 = done s) by (subst s1; reflexivity).
    assert (Rc : called s1 = called s) by (subst s1; reflexivity).
    assert (Ry : replies s1 = replies s) by (subst s1; reflexivity).
    assert (Rh : completed s1 = c :: completed s) by (subst s1; reflexivity).
    clear Es1.
    destruct (replenish_fields s1) as (Hi & He & Hc & Hrp).
    rewrite Ri in Hi. rewrite Re in He. rewrite Rh in Hc. rewrite Rr, Rp in Hrp.
    assert (Hdone1 : done s1 = true -> pending s1 = []).
    { rewrite Rd, Rp. exact Hdone. }
    split.
    + rewrite Hc, app_assoc, Hrp. rewrite <- app_assoc. exact Hperm.
    + apply replenish_limit. rewrite Rr. exact Hrest.
    + apply replenish_done. exact Hdone1.
    + rewrite Hi, Hc. intros k' v H.
      destruct (decide (k = k')) as [->|Hne].
      * rewrite stored_assign in H. injection H as <-.
        exists c. split; [apply elem_of_cons; now left | exact Etask].
      * rewrite stored_assign_ne in H by exact Hne.
        destruct (Hsound k' v H) as (c' & Hc' & Ht). exists c'.
        split; [apply elem_of_cons; now right | exact Ht].
    + rewrite Hi, Hc. intros c' k' v Hin Ht.
      destruct (decide (k = k')) as [->|Hne].
      * rewrite stored_assign. eauto.
      * rewrite stored_assign_ne by exact Hne.
        apply elem_of_cons in Hin as [->|Hin]; [congruence|].
        apply (Hcomplete c' k' v Hin Ht).
    + rewrite Hi, own_assign. exact Hown.
    + assert (Hsucc : succeeded c) by (exists k, entry; exact Etask).
      destruct (replies s) as [|[e0|m] [|]] eqn:Er; try contradiction.
      * destruct Hreplies as (Hcl & Her & Hall & _).
        rewrite <- Rc in Hcl. rewrite <- Re in Her.
        destruct (replenish_open s1 Hcl Her Hdone1)
          as [(H1 & H2 & H3)|(H1 & H2 & H3 & H4)]; rewrite H2, Ry; simpl.
        -- rewrite He, Hc, <- Re. repeat split; auto.
        -- rewrite Hi, Hc, Ri. repeat split; auto.
      * destruct Hreplies as (Hcl & Her & later & c0 & earlier & Hl & Ht & Hall).
        rewrite <- Rc in Hcl.
        destruct (replenish_called s1 Hcl) as [H1 H2]. rewrite H2, Ry.
        rewrite He, Hc. repeat split; auto.
        exists (c :: later), c0, earlier. rewrite Hl. auto.
      * destruct Hreplies as (_ & _ & _ & Hnil & _).
        rewrite Hrun in Hnil. destruct before; discriminate.
Qed.

Lemma step_completed (s s' : State) :
  step s s' -> length (completed s') = S (length (completed s)).
Proof.
  intros [s0 before c after Hrun _]. unfold Batch.complete.
  destruct (task c) as [err|[k entry]]; simpl.
  - match goal with |- context [final_callback ?e ?t] =>
      destruct (final_callback_fields e t) as (_ & _ & _ & _ & _ & -> & _) end.
    reflexivity.
  - match goal with |- context [replenish ?t] =>
      destruct (replenish_fields t) as (_ & _ & -> & _) end.
    reflexivity.
Qed.

Lemma invariant_steps (files : list File.t) (n : nat) (s0 s : State) :
  invariant files s0 -> steps n s0 s ->
  invariant files s /\ length (completed s) = (n + length (completed s0))%nat.
Proof.
  intros Hinv Hsteps. induction Hsteps as [s|n s s' s'' _ IH Hstep].
  - split; [exact Hinv | reflexivity].
  - destruct (IH Hinv) as [Hinv' Hlen]. split.
    + exact (invariant_step files s' s'' Hinv' Hstep).
    + rewrite (step_completed s' s'' Hstep), Hlen. reflexivity.
Qed.

Lemma task_key (c : File.t) (k : string) (entry : Uploaded) :
  task c = inr (k, entry) -> k = file_key c /\ filename entry = file_name c.
Proof.
  unfold Batch.task.
  destruct (lwip_open _ _) as [?|image]; [discriminate|].
  destruct (toBuffer _ _ _) as [?|buffer]; [discriminate|].
  destruct (uploadFromBuffer _ _) as [?|path]; [discriminate|].
  intros H. injection H as <- <-. split; reflexivity.
Qed.

Lemma NoDup_fmap_eq {A B : Type} (f : A -> B) (l : list A) (x y : A) :
  NoDup (f <$> l) -> x ∈ l -> y ∈ l -> f x = f y -> x = y.
Proof.
  induction l as [|a l IH]; intros Hnd Hx Hy Hf; [inversion Hx|].
  rewrite fmap_cons in Hnd. apply NoDup_cons in Hnd as [Hnotin Hnd].
  apply elem_of_cons in Hx as [->|Hx]; apply elem_of_cons in Hy as [->|Hy].
  - reflexivity.
  - exfalso. apply Hnotin. rewrite Hf. apply list_elem_of_fmap. eauto.
  - exfalso. apply Hnotin. rewrite <- Hf. apply list_elem_of_fmap. eauto.
  - apply IH; assumption.
Qed.

Lemma upload_valid (files : list File.t) :
  no_type (source_type source) = false ->
  Config.files config = FilesArray files ->
  upload =
    replenish
      {| pending := files; running := []; images := ∅; errored := false;
         done := false; called := false; replies := []; completed := [] |}.
Proof. intros Ht Hf. unfold Batch.upload. now rewrite Ht, Hf. Qed.


Lemma no_step_idle (s : State) : running s = [] -> forall s', ~ step s s'.
Proof.
  intros Hrun s' Hstep. destruct Hstep as [s before c after H _].
  rewrite Hrun in H. destruct before; discriminate.
Qed.

(** C2, as the code has it: when the type of the source is known and
    [config.files] is [undefined] or not an array, the caller gets the
    configuration error, no task has been started or run and no
    mapping exists; an empty array passes the check, starts no task
    and the caller gets the empty mapping. *)
Theorem upload_files_check :
  no_type (source_type source) = false ->
  (Config.files config = FilesUndefined \/ Config.files config = FilesNotArray ->
   replies upload = [Failure no_files_error] /\
   pending upload = [] /\ running upload = [] /\ completed upload = [] /\
   images upload = ∅ /\ forall s', ~ step upload s') /\
  (Config.files config = FilesArray [] ->
   replies upload = [Success ∅] /\
   pending upload = [] /\ running upload = [] /\ completed upload = [] /\
   forall s', ~ step upload s').
Proof.
  intros Ht. split.
  - intros Hf. unfold Batch.upload. rewrite Ht.
    assert (E : match Config.files config with
                | FilesUndefined | FilesNotArray =>
                    final_callback (Some no_files_error) idle
                | FilesArray files =>
                    replenish
                      {| pending := files; running := []; images := ∅;
                         errored := false; done := false; called := false;
                         replies := []; completed := [] |}
                end = final_callback (Some no_files_error) idle).
    { destruct Hf as [-> | ->]; reflexivity. }
    rewrite E. repeat split; try reflexivity.
    apply no_step_idle. reflexivity.
  - intros Hf. rewrite (upload_valid [] Ht Hf).
    assert (E : replenish
                  {| pending := []; running := []; images := ∅; errored := false;
                     done := false; called := false; replies := []; completed := [] |}
                = {| pending := []; running := []; images := ∅; errored := false;
                     done := true; called := true; replies := [Success ∅];
                     completed := [] |}).
    { unfold Batch.replenish. simpl. rewrite take_nil, drop_nil. simpl.
      pose proof limit_pos as Hl.
      destruct (0 <? limit)%nat eqn:E; [reflexivity|].
      apply Nat.ltb_ge in E. lia. }
    rewrite E. repeat split; try reflexivity.
    apply no_step_idle. reflexivity.
Qed.

Lemma or_string_set (a b : string) : a <> ""%string -> or_string (Some a) b = a.
Proof. intros H. destruct a; [contradiction | reflexivity]. Qed.

Lemma or_string_unset (a : option string) (b : string) :
  a = None \/ a = Some ""%string -> or_string a b = b.
Proof. intros [-> | ->]; reflexivity. Qed.

(** C9, as the code has it: a task that succeeds has uploaded the
    buffer under the name the template gives for the file: the file's
    own [format] when it has a non-empty one, otherwise the
    configuration's when that is non-empty, otherwise the empty
    template; the name is followed by ['.'] and the type unless
    [omitExtension] holds for the file or for the configuration.  Its
    entry pairs [staticUrl + path] with that name.  The key is the
    file's [key] when it has a non-empty one, its [name] otherwise;
    when the task calls back the entry is in [images] under that key,
    except under the key ["__proto__"], where it becomes the prototype
    of [images] and the keys stay as they are. *)
Theorem task_entry (c : File.t) (k : string) (entry : Uploaded) :
  task c = inr (k, entry) ->
  let extension :=
    (if File.omitExtension c || Config.omitExtension config
     then "" else "." ++ type)%string in
  (forall f, File.format c = Some f -> f <> ""%string ->
     filename entry = (template f c ++ extension)%string) /\
  (File.format c = None \/ File.format c = Some ""%string ->
   (forall g, Config.format config = Some g -> g <> ""%string ->
      filename entry = (template g c ++ extension)%string) /\
   (Config.format config = None \/ Config.format config = Some ""%string ->
      filename entry = (template "" c ++ extension)%string)) /\
  (exists image buffer path,
      lwip_open source type = inr image /\
      toBuffer image (transformations config c image) type = inr buffer /\
      uploadFromBuffer buffer (filename entry) = inr path /\
      url entry = (staticUrl ++ path)%string) /\
  (forall key, File.key c = Some key -> key <> ""%string -> k = key) /\
  (File.key c = None \/ File.key c = Some ""%string -> k = File.name c) /\
  forall s before after,
    running s = before ++ c :: after ->
    (k <> "__proto__"%string ->
     own (images (complete c (before ++ after) s)) !! k = Some entry /\
     prototype (images (complete c (before ++ after) s)) = prototype (images s)) /\
    (k = "__proto__"%string ->
     prototype (images (complete c (before ++ after) s)) = Some entry /\
     own (images (complete c (before ++ after) s)) = own (images s)).
Proof.
  intros Htask extension. pose proof Htask as Hrun. revert Htask.
  unfold Batch.task.
  destruct (lwip_open source type) as [?|image] eqn:Eopen; [discriminate|].
  destruct (toBuffer image (transformations config c image) type)
    as [?|buffer] eqn:Ebuf; [discriminate|].
  destruct (uploadFromBuffer buffer (file_name c)) as [?|path] eqn:Eup; [discriminate|].
  intros H. injection H as <- <-. simpl.
  assert (Hname : forall f,
            or_string (File.format c) (or_string (Config.format config) "") = f ->
            file_name c = (template f c ++ extension)%string).
  { intros f <-. unfold Batch.file_name, default_format, extension.
    now rewrite orb_false_r. }
  split; [|split; [|split; [|split; [|split]]]].
  - intros f Hf Hne. apply Hname. rewrite Hf. apply or_string_set. exact Hne.
  - intros Hunset. split.
    + intros g Hg Hne. apply Hname.
      rewrite (or_string_unset _ _ Hunset), Hg. apply or_string_set. exact Hne.
    + intros Hunset'. apply Hname.
      rewrite (or_string_unset _ _ Hunset). apply or_string_unset. exact Hunset'.
  - exists image, buffer, path. auto.
  - intros key Hkey Hne. unfold file_key. rewrite Hkey. apply or_string_set. exact Hne.
  - intros Hunset. unfold file_key. apply or_string_unset. exact Hunset.
  - intros s before after _. unfold Batch.complete. rewrite Hrun.
    match goal with |- context [images (replenish ?t)] =>
      destruct (replenish_fields t) as (-> & _) end.
    simpl. unfold assign. split.
    + intros Hne. apply String.eqb_neq in Hne. rewrite Hne. simpl.
      split; [apply lookup_insert_eq | reflexivity].
    + intros Heq. apply String.eqb_eq in Heq. rewrite Heq. simpl.
      split; reflexivity.
Qed.

(** C10: a file whose [width] and [height] are both missing or zero
    queues no operation at all, whatever its [crop] flag: the task
    decodes the source and encodes it again, nothing else. *)
Theorem no_dimensions_no_transformation (c : File.t) (image : Image) :
  (File.width c = None \/ File.width c = Some 0%Z) ->
  (File.height c = None \/ File.height c = Some 0%Z) ->
  transformations config c image = [] /\
  (lwip_open source type = inr image ->
   task c =
     match toBuffer image [] type with
     | inl err => inl err
     | inr buffer =>
         match uploadFromBuffer buffer (file_name c) with
         | inl err => inl err
         | inr path =>
             inr (file_key c,
                  {| url := (staticUrl ++ path)%string; filename := file_name c |})
         end
     end).
Proof.
  intros Hw Hh.
  assert (E : transformations config c image = []).
  { unfold transformations, file_width, file_height.
    destruct Hw as [-> | ->], Hh as [-> | ->]; reflexivity. }
  split; [exact E|].
  intros Hopen. unfold Batch.task. rewrite Hopen, E. reflexivity.
Qed.

End UploadFacts.

(** ** The crop *)

Module CropFacts.

Import JS JSFacts GeometryFacts.

Lemma or_false_pixels (z : Z) :
  pixels z -> or_false (Some z) = VNumber (Fin (inject_Z z)).
Proof.
  intros Hz. unfold or_false. rewrite (pixels_exact z Hz).
  unfold pixels in Hz. now rewrite truthy_integer by lia.
Qed.

Lemma or_zero_pixels (z : Z) :
  pixels z -> or_zero (Some z) = Fin (inject_Z z).
Proof.
  intros Hz. unfold or_zero. rewrite (pixels_exact z Hz).
  unfold pixels in Hz. now rewrite truthy_integer by lia.
Qed.

Lemma gt_zero_pixels (z : Z) : pixels z -> gt (Fin (inject_Z z)) (Fin 0) = true.
Proof.
  intros Hz. change (Fin 0) with (Fin (inject_Z 0)). rewrite gt_integers.
  unfold pixels in Hz. apply Z.ltb_lt. lia.
Qed.

(** The centred offset on natural numbers. *)
Lemma centred_integers (size length : Z) :
  (0 <= length <= size)%Z -> (size < 2 ^ 32)%Z ->
  centred (Fin (inject_Z size)) (Fin (inject_Z length))
  = Fin (inject_Z ((size - length) / 2)).
Proof.
  intros H1 H2. unfold centred.
  rewrite sub_integers by lia. apply to_int32_half. lia.
Qed.

(** C6, as the code has it: when neither offset is greater than zero
    the task queues the two-argument crop, which the codec takes from
    the centre of the canvas, at the offsets [(size - length) / 2]
    rounded down; when one is, it queues the four-argument crop at the
    requested offsets. *)
Theorem crop_pass_offsets (config : Config.t) (c : File.t) (image : Image) :
  File.crop c = true ->
  value_truthy (file_width c) || value_truthy (file_height c) = true ->
  let before := resize_pass config c image in
  let size := canvas image before in
  (gt (crop_top c) (Fin 0) || gt (crop_left c) (Fin 0) = false ->
   transformations config c image
   = before ++ [CropSize (file_width c) (file_height c)] /\
   crop_offsets size (CropSize (file_width c) (file_height c))
   = Some (centred (Dim.width size) (to_number (file_width c)),
           centred (Dim.height size) (to_number (file_height c)))) /\
  (gt (crop_top c) (Fin 0) || gt (crop_left c) (Fin 0) = true ->
   exists right bottom,
     transformations config c image
     = before ++ [CropRect (crop_left c) (crop_top c) right bottom] /\
     crop_offsets size (CropRect (crop_left c) (crop_top c) right bottom)
     = Some (crop_left c, crop_top c)) /\
  (forall size length : Z,
      (0 <= length <= size)%Z -> (size < 2 ^ 32)%Z ->
      centred (Fin (inject_Z size)) (Fin (inject_Z length))
      = Fin (inject_Z ((size - length) / 2))).
Proof.
  intros Hcrop Hdim before size.
  split; [|split].
  - intros Hoff. unfold transformations, crop_pass.
    rewrite Hdim, Hcrop, Hoff. split; reflexivity.
  - intros Hoff. unfold transformations, crop_pass.
    rewrite Hdim, Hcrop, Hoff. eexists _, _. split; reflexivity.
  - exact centred_integers.
Qed.

(** C6 as the specification has it fails: on a canvas of 200 x 200 the
    100 x 100 crop without offsets is taken at (50, 50), not (0, 0). *)
Lemma padded_thumb_offsets :
  transformations (Sample.config FilesUndefined) Sample.padded_thumb Sample.photo
  = [Contain (VNumber (Fin 200)) (VNumber (Fin 200)) "white";
     CropSize (VNumber (Fin 100)) (VNumber (Fin 100))] /\
  crop_offsets {| Dim.width := Fin 200; Dim.height := Fin 200 |}
    (CropSize (VNumber (Fin 100)) (VNumber (Fin 100)))
  = Some (Fin 50, Fin 50) /\
  crop_offsets {| Dim.width := Fin 200; Dim.height := Fin 200 |}
    (CropSize (VNumber (Fin 100)) (VNumber (Fin 100)))
  <> Some (Fin 0, Fin 0).
Proof.
  repeat split; try (vm_compute; reflexivity).
  intros H. vm_compute in H. discriminate H.
Qed.

Lemma or_zero_signed (x : option Z) :
  (Z.abs (default 0%Z x) < 2 ^ 53)%Z -> or_zero x = Fin (inject_Z (default 0%Z x)).
Proof.
  destruct x as [z|]; [|reflexivity]. simpl. intros Hz.
  unfold or_zero. rewrite (of_Z_signed z Hz).
  destruct (Z.eq_dec z 0) as [->|Hne]; [reflexivity|].
  now rewrite truthy_integer.
Qed.

Lemma or_false_natural (x : option Z) :
  (0 <= default 0%Z x < 2 ^ 53)%Z ->
  to_number (or_false x) = Fin (inject_Z (default 0%Z x)) /\
  value_truthy (or_false x) = negb (default 0%Z x =? 0)%Z.
Proof.
  destruct x as [z|]; [|split; reflexivity]. simpl. intros Hz.
  unfold or_false. rewrite (of_Z_exact z Hz).
  destruct (Z.eqb_spec z 0) as [->|Hne]; [split; reflexivity|].
  rewrite truthy_integer by exact Hne. simpl.
  rewrite is_zero_inject_Z by exact Hne. split; reflexivity.
Qed.

(** C7, as the code has it: when [top] or [left] is greater than
    zero the task queues the rectangle from (left, top) to (left +
    width, top + height), a missing offset or dimension counting as
    zero.  The offsets are passed as they are given: the one that is
    not greater than zero may be negative.  Nothing confines the
    rectangle to the canvas: it lies within a canvas of [w] by [h]
    exactly when [0 <= left], [0 <= top], [left + width <= w] and
    [top + height <= h], and after [getCropDimensions], which leaves
    one side at the target's length, it does not when both offsets are
    greater than zero. *)
Theorem explicit_crop_rectangle
    (config : Config.t) (c : File.t) (image : Image) (tw th l t : Z) :
  File.crop c = true ->
  default 0%Z (File.width c) = tw -> default 0%Z (File.height c) = th ->
  default 0%Z (File.left c) = l -> default 0%Z (File.top c) = t ->
  (0 <= tw < 2 ^ 24)%Z -> (0 <= th < 2 ^ 24)%Z -> (tw <> 0 \/ th <> 0)%Z ->
  (Z.abs l < 2 ^ 24)%Z -> (Z.abs t < 2 ^ 24)%Z ->
  (0 < t \/ 0 < l)%Z ->
  let rectangle :=
    CropRect (Fin (inject_Z l)) (Fin (inject_Z t))
             (Fin (inject_Z (l + tw))) (Fin (inject_Z (t + th))) in
  transformations config c image = resize_pass config c image ++ [rectangle] /\
  ge (Fin (inject_Z l)) (Fin 0) = (0 <=? l)%Z /\
  ge (Fin (inject_Z t)) (Fin 0) = (0 <=? t)%Z /\
  (forall w h : Z,
     within_canvas {| Dim.width := Fin (inject_Z w); Dim.height := Fin (inject_Z h) |}
       rectangle
     = (0 <=? l)%Z && (0 <=? t)%Z && (l + tw <=? w)%Z && (t + th <=? h)%Z) /\
  (adapt_truthy (File.adapt c) = false -> tw <> 0%Z -> th <> 0%Z ->
   pixels (Z.of_N (pixel_width image)) -> pixels (Z.of_N (pixel_height image)) ->
   exists w h : Z,
     canvas image (resize_pass config c image)
     = {| Dim.width := Fin (inject_Z w); Dim.height := Fin (inject_Z h) |} /\
     (tw <= w)%Z /\ (th <= h)%Z /\ (w = tw \/ h = th) /\
     ((0 < l)%Z -> (0 < t)%Z ->
      within_canvas (canvas image (resize_pass config c image)) rectangle = false)).
Proof.
  intros Hcrop Hw Hh Hl Ht Btw Bth Hdim Bl Bt Hoff rectangle.
  destruct (or_false_natural (File.width c)) as [Nw Tw]; [rewrite Hw; lia|].
  destruct (or_false_natural (File.height c)) as [Nh Th]; [rewrite Hh; lia|].
  rewrite Hw in Nw, Tw. rewrite Hh in Nh, Th.
  assert (El : crop_left c = Fin (inject_Z l)).
  { unfold crop_left. rewrite <- Hl. apply or_zero_signed. rewrite Hl. lia. }
  assert (Et : crop_top c = Fin (inject_Z t)).
  { unfold crop_top. rewrite <- Ht. apply or_zero_signed. rewrite Ht. lia. }
  assert (Hin : forall w h : Z,
     within_canvas {| Dim.width := Fin (inject_Z w); Dim.height := Fin (inject_Z h) |}
       rectangle
     = (0 <=? l)%Z && (0 <=? t)%Z && (l + tw <=? w)%Z && (t + th <=? h)%Z).
  { intros w h. unfold within_canvas, rectangle. cbn [Dim.width Dim.height].
    change (Fin 0) with (Fin (inject_Z 0)).
    now rewrite !ge_integers, !le_integers. }
  split; [|split; [|split; [|split]]].
  - unfold transformations, crop_pass. fold (file_width c) (file_height c).
    unfold file_width, file_height. rewrite Tw, Th, Hcrop, El, Et, Nw, Nh.
    change (Fin 0) with (Fin (inject_Z 0)). rewrite !gt_integers.
    assert (Htruthy : negb (tw =? 0)%Z || negb (th =? 0)%Z = true).
    { destruct Hdim as [H|H]; apply Z.eqb_neq in H; rewrite H;
        [reflexivity | apply orb_true_r]. }
    assert (Hbranch : (0 <? t)%Z || (0 <? l)%Z = true).
    { destruct Hoff as [H|H]; apply Z.ltb_lt in H; rewrite H;
        [reflexivity | apply orb_true_r]. }
    rewrite Htruthy, Hbranch, !add_signed by lia. reflexivity.
  - change (Fin 0) with (Fin (inject_Z 0)). apply ge_integers.
  - change (Fin 0) with (Fin (inject_Z 0)). apply ge_integers.
  - exact Hin.
  - intros Hadapt Htw Hth PW PH.
    assert (Ptw : pixels tw) by (unfold pixels; lia).
    assert (Pth : pixels th) by (unfold pixels; lia).
    assert (Ew : file_width c = VNumber (Fin (inject_Z tw))).
    { unfold file_width. destruct (File.width c) as [z|]; simpl in Hw; [|lia].
      subst z. apply or_false_pixels. exact Ptw. }
    assert (Eh : file_height c = VNumber (Fin (inject_Z th))).
    { unfold file_height. destruct (File.height c) as [z|]; simpl in Hh; [|lia].
      subst z. apply or_false_pixels. exact Pth. }
    unfold resize_pass. rewrite Ew, Eh, Hcrop, Hadapt.
    unfold value_truthy. rewrite !truthy_integer by assumption.
    cbn [andb to_number].
    rewrite <- (pixels_exact tw Ptw), <- (pixels_exact th Pth).
    destruct (getCropDimensions_pixels image tw th PW PH Ptw Pth)
      as (w & h & E & Hcw & Hch & Hbranch).
    rewrite E. exists w, h.
    assert (Ecanvas : canvas image
                        [Resize (Dim.width {| Dim.width := Fin (inject_Z w);
                                              Dim.height := Fin (inject_Z h) |})
                                (Dim.height {| Dim.width := Fin (inject_Z w);
                                               Dim.height := Fin (inject_Z h) |})]
                      = {| Dim.width := Fin (inject_Z w);
                           Dim.height := Fin (inject_Z h) |}) by reflexivity.
    rewrite Ecanvas, Hin. split; [reflexivity|].
    assert (Hside : w = tw \/ h = th).
    { destruct (Z.ltb (tw * Z.of_N (pixel_height image))
                      (Z.of_N (pixel_width image) * th));
        destruct Hbranch as [-> _]; [right | left]; reflexivity. }
    split; [exact Hcw|]. split; [exact Hch|]. split; [exact Hside|].
    intros Hlpos Htpos.
    destruct Hside as [-> | ->].
    + destruct (Z.leb_spec (l + tw) tw); [lia|].
      rewrite andb_false_r. reflexivity.
    + destruct (Z.leb_spec (t + th) th); [lia|]. apply andb_false_r.
Qed.

(** C7 as the specification has it fails: the 800 x 600 photo is
    resized to 133 x 100 and the rectangle asked for reaches (150,
    150). *)
Lemma offset_thumb_rectangle :
  transformations (Sample.config FilesUndefined) Sample.offset_thumb Sample.photo
  = [Resize (Fin 133) (Fin 100);
     CropRect (Fin 50) (Fin 50) (Fin 150) (Fin 150)] /\
  within_canvas {| Dim.width := Fin 133; Dim.height := Fin 100 |}
    (CropRect (Fin 50) (Fin 50) (Fin 150) (Fin 150))
  = false.
Proof. split; vm_compute; reflexivity. Qed.

Lemma crop_pass_offsets_thumb :
  transformations (Sample.config FilesUndefined) Sample.thumb Sample.photo
  = resize_pass (Sample.config FilesUndefined) Sample.thumb Sample.photo
    ++ [CropSize (file_width Sample.thumb) (file_height Sample.thumb)].
Proof.
  apply (crop_pass_offsets (Sample.config FilesUndefined) Sample.thumb Sample.photo);
    reflexivity.
Defined.

(** The offsets (50, 50) reach beyond the canvas of 133 x 100; the
    offset [left: 20] alone stays within it. *)
Lemma explicit_crop_rectangle_offset_thumb :
  within_canvas
    (canvas Sample.photo
       (resize_pass (Sample.config FilesUndefined) Sample.offset_thumb Sample.photo))
    (CropRect (Fin (inject_Z 50)) (Fin (inject_Z 50))
              (Fin (inject_Z (50 + 100))) (Fin (inject_Z (50 + 100))))
  = false /\
  transformations (Sample.config FilesUndefined) Variants.shifted Sample.photo
  = resize_pass (Sample.config FilesUndefined) Variants.shifted Sample.photo
    ++ [CropRect (Fin (inject_Z 20)) (Fin (inject_Z 0))
                 (Fin (inject_Z (20 + 100))) (Fin (inject_Z (0 + 100)))] /\
  within_canvas {| Dim.width := Fin (inject_Z 133); Dim.height := Fin (inject_Z 100) |}
    (CropRect (Fin (inject_Z 20)) (Fin (inject_Z 0))
              (Fin (inject_Z (20 + 100))) (Fin (inject_Z (0 + 100))))
  = true.
Proof.
  split; [|split].
  - destruct (explicit_crop_rectangle (Sample.config FilesUndefined)
                Sample.offset_thumb Sample.photo 100 100 50 50
                eq_refl eq_refl eq_refl eq_refl eq_refl
                ltac:(lia) ltac:(lia) ltac:(lia) ltac:(lia) ltac:(lia) ltac:(lia))
      as (_ & _ & _ & _ & H).
    destruct H as (w & h & _ & _ & _ & _ & Hout);
      [reflexivity | lia | lia | unfold pixels; simpl; lia
       | unfold pixels; simpl; lia |].
    apply Hout; lia.
  - apply (explicit_crop_rectangle (Sample.config FilesUndefined)
             Variants.shifted Sample.photo 100 100 20 0
             eq_refl eq_refl eq_refl eq_refl eq_refl
             ltac:(lia) ltac:(lia) ltac:(lia) ltac:(lia) ltac:(lia) ltac:(lia)).
  - destruct (explicit_crop_rectangle (Sample.config FilesUndefined)
                Variants.shifted Sample.photo 100 100 20 0
                eq_refl eq_refl eq_refl eq_refl eq_refl
                ltac:(lia) ltac:(lia) ltac:(lia) ltac:(lia) ltac:(lia) ltac:(lia))
      as (_ & _ & _ & H & _).
    rewrite (H 133 100)%Z. reflexivity.
Defined.

End CropFacts.

(** ** The sample call *)

Module SampleFacts.

Import Sample.

(** C2 as the specification has it fails: with an empty [files] array the
    caller gets the empty mapping, not an error. *)
Lemma empty_files_succeed :
  Config.files (config (FilesArray [])) = FilesArray [] /\
  replies (upload None source (config (FilesArray []))) = [Success ∅] /\
  replies (upload None source (config (FilesArray []))) <> [Failure no_files_error].
Proof. repeat split; try reflexivity. intros H. discriminate H. Qed.

Lemma upload_files_check_sample :
  replies (upload None source (config FilesUndefined)) = [Failure no_files_error] /\
  running (upload None source (config FilesUndefined)) = [].
Proof.
  destruct (upload_files_check staticUrl None lwip_open toBuffer throws template
              uploadFromBuffer source (config FilesUndefined) eq_refl) as [H _].
  destruct (H (or_introl eq_refl)) as (H1 & _ & H2 & _).
  split; [exact H1 | exact H2].
Defined.

Lemma started_finished :
  steps staticUrl None lwip_open toBuffer throws template uploadFromBuffer
    source (config (FilesArray [thumb])) 1 started finished.
Proof.
  apply steps_more with (s' := started); [apply steps_none|].
  apply step_complete; [reflexivity | vm_compute; reflexivity].
Defined.

(** C9 as the specification has it fails: the result of a file named
    ["__proto__"] is not stored under that key. *)
Lemma proto_not_stored :
  task staticUrl lwip_open toBuffer template uploadFromBuffer source
    (config (FilesArray [Variants.proto])) Variants.proto
  = inr ("__proto__"%string,
         {| url := "https://static.example/__proto__.jpg";
            filename := "__proto__.jpg" |}) /\
  own (images Variants.proto_done) !! "__proto__"%string = None /\
  own (images Variants.proto_done) = ∅.
Proof. repeat split; vm_compute; reflexivity. Qed.

Lemma task_entry_named :
  filename {| url := "https://static.example/small-photo"; filename := "small-photo" |}
  = (Variants.template "small" Variants.named ++ "")%string /\
  own (images (complete staticUrl None lwip_open toBuffer Variants.template
                 uploadFromBuffer source (config (FilesArray [Variants.named]))
                 Variants.named ([] ++ [])
                 (upload None source (config (FilesArray [Variants.named])))))
    !! "s"%string
  = Some {| url := "https://static.example/small-photo"; filename := "small-photo" |}.
Proof.
  destruct (task_entry staticUrl None lwip_open toBuffer Variants.template
              uploadFromBuffer source (config (FilesArray [Variants.named]))
              Variants.named "s"
              {| url := "https://static.example/small-photo";
                 filename := "small-photo" |} eq_refl)
    as (Hown & _ & _ & _ & _ & Hstore).
  split.
  - apply (Hown "small"%string eq_refl). discriminate.
  - apply (Hstore (upload None source (config (FilesArray [Variants.named]))) [] []
             eq_refl).
    discriminate.
Defined.

Lemma no_dimensions_no_transformation_original :
  transformations (config (FilesArray [original])) original photo = [].
Proof.
  apply (no_dimensions_no_transformation staticUrl lwip_open toBuffer template
           uploadFromBuffer source (config (FilesArray [original])) original photo).
  - left. reflexivity.
  - right. reflexivity.
Defined.

End SampleFacts.

(** * Further properties *)

(** ** The derived side of the geometry functions *)

Module GeometryMore.

Import JS JSFacts GeometryFacts.

Lemma rounded_floor (r : Q) (x y : Z) :
  (0 < y)%Z -> (0 < x <= 2 ^ 48)%Z ->
  (inject_Z x - 3 * eps * inject_Z x <= r * inject_Z y)%Q ->
  (r * inject_Z y <= inject_Z x + 3 * eps * inject_Z x)%Q ->
  rounded x y (Qfloor (r + (1 # 2))).
Proof.
  intros Hy Hx H1 H2 t. split; intros Ht.
  - apply (round_near_quotient r x y t Hy Hx Ht H1 H2).
  - apply (round_near_quotient_upper r x y t Hy ltac:(lia) Ht H2).
Qed.

Lemma rounded_division (x y w : Z) :
  (0 < y)%Z -> rounded x y w -> (x / y <= w <= (x + y - 1) / y)%Z.
Proof.
  intros Hy Hr. split.
  - apply (Hr (x / y)%Z). rewrite Z.mul_comm. apply Z.mul_div_le. exact Hy.
  - apply (Hr ((x + y - 1) / y)%Z).
    pose proof (Z.mul_succ_div_gt (x + y - 1) y Hy). lia.
Qed.

Lemma rounded_exact (x y w q : Z) :
  x = (q * y)%Z -> rounded x y w -> w = q.
Proof. intros Hx Hr. destruct (Hr q) as [A B]. lia. Qed.

(** The two branches of [getCropDimensions]. *)
Lemma getCropDimensions_cases (image : Image) (tw th : Z) :
  let W := Z.of_N (pixel_width image) in
  let H := Z.of_N (pixel_height image) in
  pixels W -> pixels H -> pixels tw -> pixels th ->
  exists w h : Z,
    getCropDimensions image (of_Z tw) (of_Z th)
    = {| Dim.width := Fin (inject_Z w); Dim.height := Fin (inject_Z h) |} /\
    ((tw * H < W * th)%Z -> h = th /\ rounded (th * W) H w) /\
    ((W * th <= tw * H)%Z -> w = tw /\ rounded (tw * H) W h).
Proof.
  intros W H HW HH Htw Hth.
  unfold getCropDimensions.
  rewrite (image_width_exact image HW), (image_height_exact image HH).
  rewrite (pixels_exact tw Htw), (pixels_exact th Hth).
  fold W H.
  unfold pixels in *.
  rewrite (div_integers W H), (div_integers tw th) by lia.
  rewrite (gt_quotients W H tw th) by assumption.
  destruct (b64_quotient W H ltac:(lia) ltac:(lia)) as (r & Er & Hr1 & Hr2).
  rewrite Er.
  destruct (Z.ltb_spec (tw * H) (W * th)) as [Hlt|Hge].
  - destruct (b64_times_ratio th W H Hth HW HH r Hr1 Hr2) as (r2 & E2 & H1 & H2).
    change (mul (Fin (inject_Z th)) (Fin r)) with (b64 (inject_Z th * r)).
    rewrite E2, round_integer. unfold round.
    rewrite <- !inject_Z_mult in H1, H2.
    exists (Qfloor (r2 + (1 # 2))), th.
    split; [reflexivity|]. split; [|lia].
    intros _. split; [reflexivity|].
    apply rounded_floor; [lia | nia | exact H1 | exact H2].
  - destruct (ratio_bounds tw W H Htw HW HH r Hr1 Hr2) as [Hrlo Hrhi].
    destruct (b64_over_ratio tw W H Htw HW HH r Hr1 Hr2) as (r2 & E2 & H1 & H2).
    assert (Ediv : div (Fin (inject_Z tw)) (Fin r) = b64 (inject_Z tw / r)).
    { simpl. unfold is_zero. destruct (Qeq_bool r 0) eqn:E; [|reflexivity].
      apply Qeq_bool_iff in E. lra. }
    rewrite Ediv, E2, round_integer. unfold round.
    rewrite <- !inject_Z_mult in H1, H2.
    exists tw, (Qfloor (r2 + (1 # 2))).
    split; [reflexivity|]. split; [lia|].
    intros _. split; [reflexivity|].
    apply rounded_floor; [lia | nia | exact H1 | exact H2].
Qed.

(** X1: an image that has the proportions of the target is resized to the
    target exactly: the crop that follows removes nothing. *)
Theorem getCropDimensions_same_proportions (image : Image) (tw th : Z) :
  let W := Z.of_N (pixel_width image) in
  let H := Z.of_N (pixel_height image) in
  pixels W -> pixels H -> pixels tw -> pixels th ->
  (W * th = tw * H)%Z ->
  getCropDimensions image (of_Z tw) (of_Z th)
  = {| Dim.width := Fin (inject_Z tw); Dim.height := Fin (inject_Z th) |}.
Proof.
  intros W H HW HH Htw Hth Hsame.
  destruct (getCropDimensions_cases image tw th HW HH Htw Hth)
    as (w & h & E & _ & Helse).
  fold W H in Helse. destruct (Helse ltac:(lia)) as [-> Hr].
  assert (h = th) as -> by (apply (rounded_exact (tw * H) W h th); [lia | exact Hr]).
  exact E.
Qed.

(** X2: [getCropDimensions] covers the target: one side is the target's,
    the other is the exact proportion of the image rounded down or up,
    and is not shorter than the target's.  The crop that follows fits. *)
Theorem getCropDimensions_covers (image : Image) (tw th : Z) :
  let W := Z.of_N (pixel_width image) in
  let H := Z.of_N (pixel_height image) in
  pixels W -> pixels H -> pixels tw -> pixels th ->
  exists w h : Z,
    getCropDimensions image (of_Z tw) (of_Z th)
    = {| Dim.width := Fin (inject_Z w); Dim.height := Fin (inject_Z h) |} /\
    (tw <= w)%Z /\ (th <= h)%Z /\
    ((tw * H < W * th)%Z -> h = th /\ rounded (th * W) H w) /\
    ((W * th <= tw * H)%Z -> w = tw /\ rounded (tw * H) W h).
Proof.
  intros W H HW HH Htw Hth.
  destruct (getCropDimensions_cases image tw th HW HH Htw Hth)
    as (w & h & E & Hthen & Helse).
  fold W H in Hthen, Helse.
  exists w, h. split; [exact E|].
  assert (Hcover : (tw <= w)%Z /\ (th <= h)%Z).
  { destruct (Z.lt_ge_cases (tw * H) (W * th)) as [Hlt|Hge].
    - destruct (Hthen Hlt) as [-> Hr]. split; [|lia].
      apply (Hr tw). lia.
    - destruct (Helse Hge) as [-> Hr]. split; [lia|].
      apply (Hr th). lia. }
  destruct Hcover as [H1 H2].
  split; [exact H1|]. split; [exact H2|]. split; [exact Hthen | exact Helse].
Qed.

(** [a * c / b] rounded, for a product [a * c] of pixel counts. *)
Lemma mul_div_rounded (a c b : Z) :
  (0 < a < 2 ^ 24)%Z -> (0 < c < 2 ^ 24)%Z -> (0 < b < 2 ^ 24)%Z ->
  exists r,
    div (mul (Fin (inject_Z a)) (Fin (inject_Z c))) (Fin (inject_Z b)) = Fin r /\
    rounded (a * c) b (Qfloor (r + (1 # 2))) /\
    (gt (Fin r) (Fin (inject_Z a)) = (b <? c)%Z).
Proof.
  intros Ha Hc Hb.
  destruct (mul_div_pixels a c b Ha Hc Hb) as (r & E & Hr0 & Hr1 & Hr2).
  exists r. split; [exact E|]. split.
  - apply rounded_floor; [lia | nia | exact Hr1 | exact Hr2].
  - pose proof (one_le_inject_Z a ltac:(lia)) as Ha1.
    pose proof (one_le_inject_Z b ltac:(lia)) as Hb1.
    assert (Ha2 : (inject_Z a <= 16777216 # 1)%Q).
    { change (16777216 # 1) with (inject_Z (2 ^ 24)). rewrite <- Zle_Qle. lia. }
    assert (Hb2 : (inject_Z b <= 16777216 # 1)%Q).
    { change (16777216 # 1) with (inject_Z (2 ^ 24)). rewrite <- Zle_Qle. lia. }
    rewrite inject_Z_mult in Hr1, Hr2.
    destruct (Z.ltb_spec b c) as [Hlt|Hge].
    + apply gt_Fin.
      assert (Hcb : (inject_Z b + 1 <= inject_Z c)%Q).
      { change 1%Q with (inject_Z 1). rewrite <- inject_Z_plus, <- Zle_Qle. lia. }
      assert (A : (inject_Z a * (inject_Z b + 1) <= inject_Z a * inject_Z c)%Q).
      { apply Qmult_le_compat_l; lra. }
      assert (B : (inject_Z a * inject_Z c
                   <= (16777216 # 1) * (16777216 # 1))%Q).
      { assert (Hc2 : (inject_Z c <= 16777216 # 1)%Q).
        { change (16777216 # 1) with (inject_Z (2 ^ 24)). rewrite <- Zle_Qle. lia. }
        apply Qmult_le_compat_nonneg; split; lra. }
      apply Qnot_le_lt. intros Hle.
      assert (C : (r * inject_Z b <= inject_Z a * inject_Z b)%Q).
      { apply Qmult_le_compat_r; lra. }
      unfold eps in *. lra.
    + destruct (gt (Fin r) (Fin (inject_Z a))) eqn:Egt; [|reflexivity].
      apply gt_Fin in Egt. exfalso.
      destruct (Z.eq_dec b c) as [->|Hne].
      * rewrite mul_integers, div_integers in E by nia.
        assert (Esame : (inject_Z (a * c) / inject_Z c == inject_Z a)%Q).
        { rewrite inject_Z_mult. field. lra. }
        rewrite (b64_proper _ _ Esame), b64_Z in E by lia.
        injection E as <-. lra.
      * assert (Hcb : (inject_Z c + 1 <= inject_Z b)%Q).
        { change 1%Q with (inject_Z 1). rewrite <- inject_Z_plus, <- Zle_Qle. lia. }
        assert (Hc1 : (1 <= inject_Z c)%Q) by (apply one_le_inject_Z; lia).
        assert (A : (inject_Z a * (inject_Z c + 1) <= inject_Z a * inject_Z b)%Q).
        { apply Qmult_le_compat_l; lra. }
        assert (B : (inject_Z a * inject_Z c
                     <= (16777216 # 1) * (16777216 # 1))%Q).
        { apply Qmult_le_compat_nonneg; split; lra. }
        assert (C : (inject_Z a * inject_Z b < r * inject_Z b)%Q).
        { apply Qmult_lt_compat_r; lra. }
        unfold eps in *. lra.
Qed.

(** The branches of [adaptDimensions] on pixel counts. *)
Lemma adaptDimensions_cases (image : Image) (tw th : Z) :
  let W := Z.of_N (pixel_width image) in
  let H := Z.of_N (pixel_height image) in
  pixels W -> pixels H -> pixels tw -> pixels th ->
  exists w h : Z,
    adaptDimensions image (of_Z tw) (of_Z th)
    = {| Dim.width := Fin (inject_Z w); Dim.height := Fin (inject_Z h) |} /\
    ((W * th < tw * H)%Z ->
     ((H < th)%Z -> w = W /\ h = H) /\
     (H = th -> w = tw /\ h = th) /\
     ((th < H)%Z -> h = th /\ rounded (W * th) H w)) /\
    ((tw * H <= W * th)%Z ->
     ((W < tw)%Z -> w = W /\ h = H) /\
     ((tw <= W)%Z -> w = tw /\ rounded (H * tw) W h)).
Proof.
  intros W H HW HH Htw Hth.
  unfold adaptDimensions.
  rewrite (image_width_exact image HW), (image_height_exact image HH).
  rewrite (pixels_exact tw Htw), (pixels_exact th Hth).
  fold W H.
  unfold pixels in *.
  rewrite (div_integers W H), (div_integers tw th) by lia.
  rewrite (gt_quotients tw th W H) by assumption.
  destruct (Z.ltb_spec (W * th) (tw * H)) as [Hlt|Hge].
  - rewrite lt_integers.
    destruct (Z.ltb_spec H th) as [Hsmall|Hbig].
    + rewrite gt_integers, Z.ltb_irrefl, !round_integer.
      exists W, H. split; [reflexivity|]. split; intros; [|lia].
      repeat split; lia.
    + rewrite gt_integers.
      destruct (Z.ltb_spec th H) as [Hshrink|Hsame].
      * destruct (mul_div_rounded W th H HW Hth HH) as (r & E & Hr & _).
        rewrite E, round_integer. unfold round.
        exists (Qfloor (r + (1 # 2))), th.
        split; [reflexivity|]. split; intros; [|lia].
        split; [intros; lia|]. split; [intros; lia|].
        intros _. split; [reflexivity | exact Hr].
      * rewrite !round_integer. exists tw, th.
        split; [reflexivity|]. split; intros; [|lia].
        repeat split; lia.
  - rewrite lt_integers.
    destruct (Z.ltb_spec W tw) as [Hsmall|Hbig].
    + rewrite ge_integers, Z.leb_refl.
      destruct (mul_div_rounded H W W HH HW HW) as (r & E & Hr & _).
      rewrite E, round_integer. unfold round.
      exists W, (Qfloor (r + (1 # 2))).
      split; [reflexivity|]. split; intros; [lia|].
      split; intros; [|lia]. split; [reflexivity|].
      apply (rounded_exact (H * W) W _ H); [reflexivity | exact Hr].
    + rewrite ge_integers.
      destruct (Z.leb_spec tw W) as [_|Habs]; [|lia].
      destruct (mul_div_rounded H tw W HH Htw HW) as (r & E & Hr & _).
      rewrite E, round_integer. unfold round.
      exists tw, (Qfloor (r + (1 # 2))).
      split; [reflexivity|]. split; intros; [lia|].
      split; intros; [lia|]. split; [reflexivity | exact Hr].
Qed.

(** X3: [adaptDimensions] fits the result into the box it is given. *)
Theorem adaptDimensions_fits (image : Image) (tw th : Z) :
  let W := Z.of_N (pixel_width image) in
  let H := Z.of_N (pixel_height image) in
  pixels W -> pixels H -> pixels tw -> pixels th ->
  exists w h : Z,
    adaptDimensions image (of_Z tw) (of_Z th)
    = {| Dim.width := Fin (inject_Z w); Dim.height := Fin (inject_Z h) |} /\
    (w <= tw)%Z /\ (h <= th)%Z.
Proof.
  intros W H HW HH Htw Hth.
  destruct (adaptDimensions_cases image tw th HW HH Htw Hth)
    as (w & h & E & Hwide & Hnarrow).
  fold W H in Hwide, Hnarrow.
  exists w, h. split; [exact E|].
  unfold pixels in *.
  destruct (Z.lt_ge_cases (W * th) (tw * H)) as [Hlt|Hge].
  - destruct (Hwide Hlt) as (A & B & C).
    destruct (Z.lt_trichotomy H th) as [Hc|[Hc|Hc]].
    + destruct (A Hc) as [-> ->]. nia.
    + destruct (B Hc) as [-> ->]. lia.
    + destruct (C Hc) as [-> Hr]. split; [|lia].
      apply (Hr tw). lia.
  - destruct (Hnarrow Hge) as (A & B).
    destruct (Z.lt_ge_cases W tw) as [Hc|Hc].
    + destruct (A Hc) as [-> ->]. nia.
    + destruct (B Hc) as [-> Hr]. split; [lia|].
      apply (Hr th). lia.
Qed.

(** X4: an image that fits into the box comes back at its natural size,
    except when the box is relatively wider than the image and exactly
    as high. *)
Theorem adaptDimensions_keeps (image : Image) (tw th : Z) :
  let W := Z.of_N (pixel_width image) in
  let H := Z.of_N (pixel_height image) in
  pixels W -> pixels H -> pixels tw -> pixels th ->
  (W <= tw)%Z -> (H <= th)%Z ->
  ~ ((W * th < tw * H)%Z /\ H = th) ->
  adaptDimensions image (of_Z tw) (of_Z th)
  = {| Dim.width := Fin (inject_Z W); Dim.height := Fin (inject_Z H) |}.
Proof.
  intros W H HW HH Htw Hth Hw Hh Hslip.
  destruct (adaptDimensions_cases image tw th HW HH Htw Hth)
    as (w & h & E & Hwide & Hnarrow).
  fold W H in Hwide, Hnarrow.
  unfold pixels in *.
  assert (w = W /\ h = H) as [-> ->]; [|exact E].
  destruct (Z.lt_ge_cases (W * th) (tw * H)) as [Hlt|Hge].
  - destruct (Hwide Hlt) as (A & _). apply A. lia.
  - destruct (Hnarrow Hge) as (A & B).
    destruct (Z.lt_ge_cases W tw) as [Hc|Hc]; [apply A; exact Hc|].
    destruct (B Hc) as [-> Hr]. split; [lia|].
    apply (rounded_exact (H * tw) W h H); [nia | exact Hr].
Qed.

(** X5: an image that does not fit is scaled down: the side that binds
    becomes the target's and the other one is the proportion of the
    image, rounded down or up. *)
Theorem adaptDimensions_scales (image : Image) (tw th : Z) :
  let W := Z.of_N (pixel_width image) in
  let H := Z.of_N (pixel_height image) in
  pixels W -> pixels H -> pixels tw -> pixels th ->
  (tw < W)%Z \/ (th < H)%Z ->
  exists w h : Z,
    adaptDimensions image (of_Z tw) (of_Z th)
    = {| Dim.width := Fin (inject_Z w); Dim.height := Fin (inject_Z h) |} /\
    ((W * th < tw * H)%Z -> h = th /\ rounded (W * th) H w) /\
    ((tw * H <= W * th)%Z -> w = tw /\ rounded (H * tw) W h).
Proof.
  intros W H HW HH Htw Hth Hover.
  destruct (adaptDimensions_cases image tw th HW HH Htw Hth)
    as (w & h & E & Hwide & Hnarrow).
  fold W H in Hwide, Hnarrow.
  exists w, h. split; [exact E|].
  unfold pixels in *. split.
  - intros Hlt. destruct (Hwide Hlt) as (_ & _ & C). apply C. nia.
  - intros Hge. destruct (Hnarrow Hge) as (_ & B). apply B. nia.
Qed.

(** X6: [getDimensionsWidthMax]: an image wider than the width asked for
    gets that width, and as height its proportion rounded down or up;
    an image that is not wider keeps its natural size. *)
Theorem getDimensionsWidthMax_cases (image : Image) (tw : Z) :
  let W := Z.of_N (pixel_width image) in
  let H := Z.of_N (pixel_height image) in
  pixels W -> pixels H -> pixels tw ->
  ((W < tw)%Z ->
   getDimensionsWidthMax image (of_Z tw)
   = {| Dim.width := Fin (inject_Z W); Dim.height := Fin (inject_Z H) |}) /\
  ((tw <= W)%Z ->
   exists h : Z,
     getDimensionsWidthMax image (of_Z tw)
     = {| Dim.width := Fin (inject_Z tw); Dim.height := Fin (inject_Z h) |} /\
     rounded (H * tw) W h /\ (h <= H)%Z).
Proof.
  intros W H HW HH Htw.
  unfold getDimensionsWidthMax.
  rewrite (image_width_exact image HW), (image_height_exact image HH).
  rewrite (pixels_exact tw Htw).
  fold W H. unfold pixels in *.
  destruct (mul_div_rounded H tw W HH Htw HW) as (r & E & Hr & Hgt).
  rewrite E, Hgt.
  split; intros Hc.
  - destruct (Z.ltb_spec W tw); [|lia]. rewrite !round_integer. reflexivity.
  - destruct (Z.ltb_spec W tw); [lia|]. rewrite round_integer. unfold round.
    exists (Qfloor (r + (1 # 2))). split; [reflexivity|]. split; [exact Hr|].
    apply (Hr H). nia.
Qed.

(** X7: [getDimensionsHeightMax], likewise. *)
Theorem getDimensionsHeightMax_cases (image : Image) (th : Z) :
  let W := Z.of_N (pixel_width image) in
  let H := Z.of_N (pixel_height image) in
  pixels W -> pixels H -> pixels th ->
  ((H < th)%Z ->
   getDimensionsHeightMax image (of_Z th)
   = {| Dim.width := Fin (inject_Z W); Dim.height := Fin (inject_Z H) |}) /\
  ((th <= H)%Z ->
   exists w : Z,
     getDimensionsHeightMax image (of_Z th)
     = {| Dim.width := Fin (inject_Z w); Dim.height := Fin (inject_Z th) |} /\
     rounded (W * th) H w /\ (w <= W)%Z).
Proof.
  intros W H HW HH Hth.
  unfold getDimensionsHeightMax.
  rewrite (image_width_exact image HW), (image_height_exact image HH).
  rewrite (pixels_exact th Hth).
  fold W H. unfold pixels in *.
  destruct (mul_div_rounded W th H HW Hth HH) as (r & E & Hr & Hgt).
  rewrite E, Hgt.
  split; intros Hc.
  - destruct (Z.ltb_spec H th); [|lia]. rewrite !round_integer. reflexivity.
  - destruct (Z.ltb_spec H th); [lia|]. rewrite round_integer. unfold round.
    exists (Qfloor (r + (1 # 2))). split; [reflexivity|]. split; [exact Hr|].
    apply (Hr W). nia.
Qed.

(** X8: [adaptDimensions] agrees with the function of the side that
    binds: with [getDimensionsWidthMax] when the box is not wider in
    proportion than the image, with [getDimensionsHeightMax] when it
    is, unless the image has exactly the height of the box. *)
Theorem adaptDimensions_single_side (image : Image) (tw th : Z) :
  let W := Z.of_N (pixel_width image) in
  let H := Z.of_N (pixel_height image) in
  pixels W -> pixels H -> pixels tw -> pixels th ->
  ((tw * H <= W * th)%Z ->
   adaptDimensions image (of_Z tw) (of_Z th) = getDimensionsWidthMax image (of_Z tw)) /\
  ((W * th < tw * H)%Z -> H <> th ->
   adaptDimensions image (of_Z tw) (of_Z th) = getDimensionsHeightMax image (of_Z th)).
Proof.
  intros W H HW HH Htw Hth.
  unfold adaptDimensions, getDimensionsWidthMax, getDimensionsHeightMax.
  rewrite (image_width_exact image HW), (image_height_exact image HH).
  rewrite (pixels_exact tw Htw), (pixels_exact th Hth).
  fold W H. unfold pixels in *.
  rewrite (div_integers W H), (div_integers tw th) by lia.
  rewrite (gt_quotients tw th W H) by assumption.
  split.
  - intros Hge. destruct (Z.ltb_spec (W * th) (tw * H)) as [Habs|_]; [lia|].
    rewrite lt_integers.
    destruct (mul_div_rounded H tw W HH Htw HW) as (r & E & Hr & Hgt).
    rewrite E, Hgt.
    destruct (Z.ltb_spec W tw) as [Hsmall|Hbig].
    + rewrite ge_integers, Z.leb_refl.
      destruct (mul_div_rounded H W W HH HW HW) as (r' & E' & Hr' & _).
      rewrite E', !round_integer. unfold round.
      rewrite (rounded_exact (H * W) W _ H eq_refl Hr'). reflexivity.
    + rewrite ge_integers.
      destruct (Z.leb_spec tw W) as [_|Habs]; [|lia].
      rewrite E. reflexivity.
  - intros Hlt Hne. destruct (Z.ltb_spec (W * th) (tw * H)) as [_|Habs]; [|lia].
    rewrite lt_integers.
    destruct (mul_div_rounded W th H HW Hth HH) as (r & E & Hr & Hgt).
    rewrite E, Hgt.
    destruct (Z.ltb_spec H th) as [Hsmall|Hbig].
    + rewrite gt_integers, Z.ltb_irrefl. reflexivity.
    + rewrite gt_integers.
      destruct (Z.ltb_spec th H) as [_|Habs]; [|lia].
      rewrite E. reflexivity.
Qed.

(** *** The 800 x 600 photo *)

Lemma getCropDimensions_covers_photo :
  exists w h : Z,
    getCropDimensions Sample.photo (of_Z 100) (of_Z 100)
    = {| Dim.width := Fin (inject_Z w); Dim.height := Fin (inject_Z h) |} /\
    (100 <= w)%Z /\ (100 <= h)%Z /\
    ((100 * 600 < 800 * 100)%Z -> h = 100%Z /\ rounded (100 * 800) 600 w) /\
    ((800 * 100 <= 100 * 600)%Z -> w = 100%Z /\ rounded (100 * 600) 800 h).
Proof.
  apply (getCropDimensions_covers Sample.photo 100 100); unfold pixels; simpl; lia.
Defined.

Lemma getCropDimensions_same_proportions_photo :
  getCropDimensions Sample.photo (of_Z 400) (of_Z 300)
  = {| Dim.width := Fin (inject_Z 400); Dim.height := Fin (inject_Z 300) |}.
Proof.
  apply (getCropDimensions_same_proportions Sample.photo 400 300);
    unfold pixels; simpl; lia.
Defined.

Lemma adaptDimensions_fits_photo :
  exists w h : Z,
    adaptDimensions Sample.photo (of_Z 100) (of_Z 100)
    = {| Dim.width := Fin (inject_Z w); Dim.height := Fin (inject_Z h) |} /\
    (w <= 100)%Z /\ (h <= 100)%Z.
Proof.
  apply (adaptDimensions_fits Sample.photo 100 100); unfold pixels; simpl; lia.
Defined.

Lemma adaptDimensions_keeps_photo :
  adaptDimensions Sample.photo (of_Z 1000) (of_Z 1000)
  = {| Dim.width := Fin (inject_Z 800); Dim.height := Fin (inject_Z 600) |}.
Proof.
  apply (adaptDimensions_keeps Sample.photo 1000 1000); unfold pixels; simpl; lia.
Defined.

Lemma adaptDimensions_scales_photo :
  exists w h : Z,
    adaptDimensions Sample.photo (of_Z 100) (of_Z 100)
    = {| Dim.width := Fin (inject_Z w); Dim.height := Fin (inject_Z h) |} /\
    ((800 * 100 < 100 * 600)%Z -> h = 100%Z /\ rounded (800 * 100) 600 w) /\
    ((100 * 600 <= 800 * 100)%Z -> w = 100%Z /\ rounded (600 * 100) 800 h).
Proof.
  apply (adaptDimensions_scales Sample.photo 100 100); unfold pixels; simpl; lia.
Defined.

Lemma getDimensionsWidthMax_cases_photo :
  ((800 < 100)%Z ->
   getDimensionsWidthMax Sample.photo (of_Z 100)
   = {| Dim.width := Fin (inject_Z 800); Dim.height := Fin (inject_Z 600) |}) /\
  ((100 <= 800)%Z ->
   exists h : Z,
     getDimensionsWidthMax Sample.photo (of_Z 100)
     = {| Dim.width := Fin (inject_Z 100); Dim.height := Fin (inject_Z h) |} /\
     rounded (600 * 100) 800 h /\ (h <= 600)%Z).
Proof.
  apply (getDimensionsWidthMax_cases Sample.photo 100); unfold pixels; simpl; lia.
Defined.

Lemma getDimensionsHeightMax_cases_photo :
  ((600 < 100)%Z ->
   getDimensionsHeightMax Sample.photo (of_Z 100)
   = {| Dim.width := Fin (inject_Z 800); Dim.height := Fin (inject_Z 600) |}) /\
  ((100 <= 600)%Z ->
   exists w : Z,
     getDimensionsHeightMax Sample.photo (of_Z 100)
     = {| Dim.width := Fin (inject_Z w); Dim.height := Fin (inject_Z 100) |} /\
     rounded (800 * 100) 600 w /\ (w <= 800)%Z).
Proof.
  apply (getDimensionsHeightMax_cases Sample.photo 100); unfold pixels; simpl; lia.
Defined.

Lemma adaptDimensions_single_side_photo :
  adaptDimensions Sample.photo (of_Z 100) (of_Z 100)
  = getDimensionsWidthMax Sample.photo (of_Z 100).
Proof.
  apply (adaptDimensions_single_side Sample.photo 100 100); unfold pixels; simpl; lia.
Defined.

End GeometryMore.

(** ** Rounding to the nearest integer *)

Module RoundingFacts.

Import JS JSFacts GeometryFacts GeometryMore.

(** [Math.round] of a binary64 value within three roundings of the
    quotient [x / y] is a nearest integer to the quotient. *)
Lemma nearest_floor (r : Q) (x y : Z) :
  (0 < y)%Z -> (0 < x <= 2 ^ 48)%Z ->
  (inject_Z x - 3 * eps * inject_Z x <= r * inject_Z y)%Q ->
  (r * inject_Z y <= inject_Z x + 3 * eps * inject_Z x)%Q ->
  nearest x y (Qfloor (r + (1 # 2))) /\ (0 <= Qfloor (r + (1 # 2)))%Z.
Proof.
  intros Hy Hx H1 H2.
  destruct (round_bounds r) as [A B].
  set (w := Qfloor (r + (1 # 2))) in *.
  pose proof (one_le_inject_Z y ltac:(lia)) as Hy1.
  assert (Hx1 : (1 <= inject_Z x)%Q) by (apply one_le_inject_Z; lia).
  assert (Hx2 : (inject_Z x <= inject_Z (2 ^ 48))%Q) by (rewrite <- Zle_Qle; lia).
  change (inject_Z (2 ^ 48)) with (281474976710656 # 1) in Hx2.
  assert (Aw : ((r - (1 # 2)) * inject_Z y <= inject_Z w * inject_Z y)%Q).
  { apply Qmult_le_compat_r; lra. }
  assert (Bw : (inject_Z w * inject_Z y <= (r + (1 # 2)) * inject_Z y)%Q).
  { apply Qmult_le_compat_r; lra. }
  unfold eps in *.
  assert (Hup : (2 * (w * y - x) < y + 1)%Z).
  { rewrite Zlt_Qlt, inject_Z_plus, inject_Z_mult, inject_Z_minus, inject_Z_mult.
    change (inject_Z 2) with 2%Q. change (inject_Z 1) with 1%Q. lra. }
  assert (Hlo : (2 * (x - w * y) < y + 1)%Z).
  { rewrite Zlt_Qlt, inject_Z_plus, inject_Z_mult, inject_Z_minus, inject_Z_mult.
    change (inject_Z 2) with 2%Q. change (inject_Z 1) with 1%Q. lra. }
  split; [unfold nearest; lia|].
  destruct (Z.le_gt_cases 0 w) as [Hw|Hw]; [exact Hw|exfalso]. nia.
Qed.

(** A quotient below one half is rounded to zero. *)
Lemma nearest_zero (x y z : Z) :
  (0 <= x)%Z -> nearest x y z -> (2 * x < y)%Z -> z = 0%Z.
Proof. unfold nearest. intros Hx Hn Hhalf. nia. Qed.

Lemma mul_div_nearest (a c b : Z) :
  (0 < a < 2 ^ 24)%Z -> (0 < c < 2 ^ 24)%Z -> (0 < b < 2 ^ 24)%Z ->
  exists r,
    div (mul (Fin (inject_Z a)) (Fin (inject_Z c))) (Fin (inject_Z b)) = Fin r /\
    nearest (a * c) b (Qfloor (r + (1 # 2))) /\
    (0 <= Qfloor (r + (1 # 2)))%Z /\
    (gt (Fin r) (Fin (inject_Z a)) = (b <? c)%Z).
Proof.
  intros Ha Hc Hb.
  destruct (mul_div_rounded a c b Ha Hc Hb) as (r & E & _ & Hgt).
  destruct (mul_div_pixels a c b Ha Hc Hb) as (r' & E' & _ & H1 & H2).
  rewrite E in E'. injection E' as <-.
  exists r. split; [exact E|].
  destruct (nearest_floor r (a * c) b) as [Hn H0]; [lia | nia | exact H1 | exact H2 |].
  auto.
Qed.

Lemma getCropDimensions_nearest (image : Image) (tw th : Z) :
  let W := Z.of_N (pixel_width image) in
  let H := Z.of_N (pixel_height image) in
  pixels W -> pixels H -> pixels tw -> pixels th ->
  exists w h : Z,
    getCropDimensions image (of_Z tw) (of_Z th)
    = {| Dim.width := Fin (inject_Z w); Dim.height := Fin (inject_Z h) |} /\
    ((tw * H < W * th)%Z -> h = th /\ nearest (th * W) H w) /\
    ((W * th <= tw * H)%Z -> w = tw /\ nearest (tw * H) W h).
Proof.
  intros W H HW HH Htw Hth.
  unfold getCropDimensions.
  rewrite (image_width_exact image HW), (image_height_exact image HH).
  rewrite (pixels_exact tw Htw), (pixels_exact th Hth).
  fold W H.
  unfold pixels in *.
  rewrite (div_integers W H), (div_integers tw th) by lia.
  rewrite (gt_quotients W H tw th) by assumption.
  destruct (b64_quotient W H ltac:(lia) ltac:(lia)) as (r & Er & Hr1 & Hr2).
  rewrite Er.
  destruct (Z.ltb_spec (tw * H) (W * th)) as [Hlt|Hge].
  - destruct (b64_times_ratio th W H Hth HW HH r Hr1 Hr2) as (r2 & E2 & H1 & H2).
    change (mul (Fin (inject_Z th)) (Fin r)) with (b64 (inject_Z th * r)).
    rewrite E2, round_integer. unfold round.
    rewrite <- !inject_Z_mult in H1, H2.
    exists (Qfloor (r2 + (1 # 2))), th.
    split; [reflexivity|]. split; [|lia].
    intros _. split; [reflexivity|].
    apply nearest_floor; [lia | nia | exact H1 | exact H2].
  - destruct (ratio_bounds tw W H Htw HW HH r Hr1 Hr2) as [Hrlo Hrhi].
    destruct (b64_over_ratio tw W H Htw HW HH r Hr1 Hr2) as (r2 & E2 & H1 & H2).
    assert (Ediv : div (Fin (inject_Z tw)) (Fin r) = b64 (inject_Z tw / r)).
    { simpl. unfold is_zero. destruct (Qeq_bool r 0) eqn:E; [|reflexivity].
      apply Qeq_bool_iff in E. lra. }
    rewrite Ediv, E2, round_integer. unfold round.
    rewrite <- !inject_Z_mult in H1, H2.
    exists tw, (Qfloor (r2 + (1 # 2))).
    split; [reflexivity|]. split; [lia|].
    intros _. split; [reflexivity|].
    apply nearest_floor; [lia | nia | exact H1 | exact H2].
Qed.

Lemma adaptDimensions_nearest (image : Image) (tw th : Z) :
  let W := Z.of_N (pixel_width image) in
  let H := Z.of_N (pixel_height image) in
  pixels W -> pixels H -> pixels tw -> pixels th ->
  exists w h : Z,
    adaptDimensions image (of_Z tw) (of_Z th)
    = {| Dim.width := Fin (inject_Z w); Dim.height := Fin (inject_Z h) |} /\
    (0 <= w)%Z /\ (0 <= h)%Z /\
    ((W * th < tw * H)%Z ->
     ((H < th)%Z -> w = W /\ h = H) /\
     (H = th -> w = tw /\ h = th) /\
     ((th < H)%Z -> h = th /\ nearest (W * th) H w)) /\
    ((tw * H <= W * th)%Z ->
     ((W < tw)%Z -> w = W /\ h = H) /\
     ((tw <= W)%Z -> w = tw /\ nearest (H * tw) W h)).
Proof.
  intros W H HW HH Htw Hth.
  unfold adaptDimensions.
  rewrite (image_width_exact image HW), (image_height_exact image HH).
  rewrite (pixels_exact tw Htw), (pixels_exact th Hth).
  fold W H.
  unfold pixels in *.
  rewrite (div_integers W H), (div_integers tw th) by lia.
  rewrite (gt_quotients tw th W H) by assumption.
  destruct (Z.ltb_spec (W * th) (tw * H)) as [Hlt|Hge].
  - rewrite lt_integers.
    destruct (Z.ltb_spec H th) as [Hsmall|Hbig].
    + rewrite gt_integers, Z.ltb_irrefl, !round_integer.
      exists W, H. split; [reflexivity|]. split; [lia|]. split; [lia|].
      split; intros; [|lia]. repeat split; lia.
    + rewrite gt_integers.
      destruct (Z.ltb_spec th H) as [Hshrink|Hsame].
      * destruct (mul_div_nearest W th H HW Hth HH) as (r & E & Hr & Hr0 & _).
        rewrite E, round_integer. unfold round.
        exists (Qfloor (r + (1 # 2))), th.
        split; [reflexivity|]. split; [exact Hr0|]. split; [lia|].
        split; intros; [|lia].
        split; [intros; lia|]. split; [intros; lia|].
        intros _. split; [reflexivity | exact Hr].
      * rewrite !round_integer. exists tw, th.
        split; [reflexivity|]. split; [lia|]. split; [lia|].
        split; intros; [|lia]. repeat split; lia.
  - rewrite lt_integers.
    destruct (Z.ltb_spec W tw) as [Hsmall|Hbig].
    + rewrite ge_integers, Z.leb_refl.
      destruct (mul_div_rounded H W W HH HW HW) as (r & E & Hr & _).
      rewrite E, round_integer. unfold round.
      rewrite (rounded_exact (H * W) W _ H eq_refl Hr).
      exists W, H.
      split; [reflexivity|]. split; [lia|]. split; [lia|].
      split; intros; [lia|]. split; intros; [|lia]. split; reflexivity.
    + rewrite ge_integers.
      destruct (Z.leb_spec tw W) as [_|Habs]; [|lia].
      destruct (mul_div_nearest H tw W HH Htw HW) as (r & E & Hr & Hr0 & _).
      rewrite E, round_integer. unfold round.
      exists tw, (Qfloor (r + (1 # 2))).
      split; [reflexivity|]. split; [lia|]. split; [exact Hr0|].
      split; intros; [lia|].
      split; intros; [lia|]. split; [reflexivity | exact Hr].
Qed.

Lemma getDimensionsWidthMax_nearest (image : Image) (tw : Z) :
  let W := Z.of_N (pixel_width image) in
  let H := Z.of_N (pixel_height image) in
  pixels W -> pixels H -> pixels tw ->
  exists w h : Z,
    getDimensionsWidthMax image (of_Z tw)
    = {| Dim.width := Fin (inject_Z w); Dim.height := Fin (inject_Z h) |} /\
    (0 < w)%Z /\ (0 <= h)%Z /\
    ((W < tw)%Z -> w = W /\ h = H) /\
    ((tw <= W)%Z -> w = tw /\ nearest (H * tw) W h).
Proof.
  intros W H HW HH Htw.
  unfold getDimensionsWidthMax.
  rewrite (image_width_exact image HW), (image_height_exact image HH).
  rewrite (pixels_exact tw Htw).
  fold W H. unfold pixels in *.
  destruct (mul_div_nearest H tw W HH Htw HW) as (r & E & Hr & Hr0 & Hgt).
  rewrite E, Hgt.
  destruct (Z.ltb_spec W tw).
  - rewrite !round_integer. exists W, H.
    split; [reflexivity|]. repeat split; lia.
  - rewrite round_integer. unfold round.
    exists tw, (Qfloor (r + (1 # 2))). split; [reflexivity|].
    split; [lia|]. split; [exact Hr0|]. split; intros; [lia|].
    split; [reflexivity | exact Hr].
Qed.

Lemma getDimensionsHeightMax_nearest (image : Image) (th : Z) :
  let W := Z.of_N (pixel_width image) in
  let H := Z.of_N (pixel_height image) in
  pixels W -> pixels H -> pixels th ->
  exists w h : Z,
    getDimensionsHeightMax image (of_Z th)
    = {| Dim.width := Fin (inject_Z w); Dim.height := Fin (inject_Z h) |} /\
    (0 <= w)%Z /\ (0 < h)%Z /\
    ((H < th)%Z -> w = W /\ h = H) /\
    ((th <= H)%Z -> h = th /\ nearest (W * th) H w).
Proof.
  intros W H HW HH Hth.
  unfold getDimensionsHeightMax.
  rewrite (image_width_exact image HW), (image_height_exact image HH).
  rewrite (pixels_exact th Hth).
  fold W H. unfold pixels in *.
  destruct (mul_div_nearest W th H HW Hth HH) as (r & E & Hr & Hr0 & Hgt).
  rewrite E, Hgt.
  destruct (Z.ltb_spec H th).
  - rewrite !round_integer. exists W, H.
    split; [reflexivity|]. repeat split; lia.
  - rewrite round_integer. unfold round.
    exists (Qfloor (r + (1 # 2))), th. split; [reflexivity|].
    split; [exact Hr0|]. split; [lia|]. split; intros; [lia|].
    split; [reflexivity | exact Hr].
Qed.

(** C8, as the code has it: on pixel counts every geometry function
    returns integers that are not negative.  Each side it returns is
    a side of the target, a side of the image, or a nearest integer to
    the proportion it scales, which is what [Math.round] makes of the
    binary64 quotient.  [getCropDimensions] never returns a zero; the
    others return zero on the side they derive when its proportion is
    below one half. *)
Theorem dimensions_natural (image : Image) (tw th : Z) :
  let W := Z.of_N (pixel_width image) in
  let H := Z.of_N (pixel_height image) in
  pixels W -> pixels H -> pixels tw -> pixels th ->
  (exists w h : Z,
      getCropDimensions image (of_Z tw) (of_Z th)
      = {| Dim.width := Fin (inject_Z w); Dim.height := Fin (inject_Z h) |} /\
      (0 < w)%Z /\ (0 < h)%Z /\
      ((tw * H < W * th)%Z -> h = th /\ nearest (th * W) H w) /\
      ((W * th <= tw * H)%Z -> w = tw /\ nearest (tw * H) W h)) /\
  (exists w h : Z,
      adaptDimensions image (of_Z tw) (of_Z th)
      = {| Dim.width := Fin (inject_Z w); Dim.height := Fin (inject_Z h) |} /\
      (0 <= w)%Z /\ (0 <= h)%Z /\
      ((W * th < tw * H)%Z ->
       ((H < th)%Z -> w = W /\ h = H) /\
       (H = th -> w = tw /\ h = th) /\
       ((th < H)%Z ->
        h = th /\ nearest (W * th) H w /\ ((2 * (W * th) < H)%Z -> w = 0%Z))) /\
      ((tw * H <= W * th)%Z ->
       ((W < tw)%Z -> w = W /\ h = H) /\
       ((tw <= W)%Z ->
        w = tw /\ nearest (H * tw) W h /\ ((2 * (H * tw) < W)%Z -> h = 0%Z)))) /\
  (exists w h : Z,
      getDimensionsWidthMax image (of_Z tw)
      = {| Dim.width := Fin (inject_Z w); Dim.height := Fin (inject_Z h) |} /\
      (0 < w)%Z /\ (0 <= h)%Z /\
      ((W < tw)%Z -> w = W /\ h = H) /\
      ((tw <= W)%Z ->
       w = tw /\ nearest (H * tw) W h /\ ((2 * (H * tw) < W)%Z -> h = 0%Z))) /\
  (exists w h : Z,
      getDimensionsHeightMax image (of_Z th)
      = {| Dim.width := Fin (inject_Z w); Dim.height := Fin (inject_Z h) |} /\
      (0 <= w)%Z /\ (0 < h)%Z /\
      ((H < th)%Z -> w = W /\ h = H) /\
      ((th <= H)%Z ->
       h = th /\ nearest (W * th) H w /\ ((2 * (W * th) < H)%Z -> w = 0%Z))).
Proof.
  intros W H HW HH Htw Hth.
  assert (Hzero : forall x y z : Z,
            (0 <= x)%Z -> nearest x y z -> (2 * x < y)%Z -> z = 0%Z)
    by exact nearest_zero.
  split; [|split; [|split]].
  - destruct (getCropDimensions_nearest image tw th HW HH Htw Hth)
      as (w & h & E & Hthen & Helse).
    destruct (getCropDimensions_pixels image tw th HW HH Htw Hth)
      as (w' & h' & E' & Hw & Hh & _).
    rewrite E in E'. injection E' as Ew Eh. subst w' h'.
    exists w, h. unfold pixels in *.
    split; [exact E|]. split; [lia|]. split; [lia|]. split; assumption.
  - destruct (adaptDimensions_nearest image tw th HW HH Htw Hth)
      as (w & h & E & Hw & Hh & Hwide & Hnarrow).
    fold W H in Hwide, Hnarrow.
    exists w, h. split; [exact E|]. split; [exact Hw|]. split; [exact Hh|].
    unfold pixels in *. split.
    + intros Hc. destruct (Hwide Hc) as (A & B & C).
      split; [exact A|]. split; [exact B|].
      intros Hs. destruct (C Hs) as [C1 C2].
      split; [exact C1|]. split; [exact C2|]. intros Hhalf. apply (Hzero _ _ _) with (2 := C2) (3 := Hhalf). nia.
    + intros Hc. destruct (Hnarrow Hc) as (A & B).
      split; [exact A|].
      intros Hs. destruct (B Hs) as [B1 B2].
      split; [exact B1|]. split; [exact B2|]. intros Hhalf. apply (Hzero _ _ _) with (2 := B2) (3 := Hhalf). nia.
  - destruct (getDimensionsWidthMax_nearest image tw HW HH Htw)
      as (w & h & E & Hw & Hh & Hnat & Hscale).
    fold W H in Hnat, Hscale.
    exists w, h. split; [exact E|]. split; [exact Hw|]. split; [exact Hh|].
    split; [exact Hnat|].
    intros Hs. destruct (Hscale Hs) as [B1 B2]. unfold pixels in *.
    split; [exact B1|]. split; [exact B2|]. intros Hhalf. apply (Hzero _ _ _) with (2 := B2) (3 := Hhalf). nia.
  - destruct (getDimensionsHeightMax_nearest image th HW HH Hth)
      as (w & h & E & Hw & Hh & Hnat & Hscale).
    fold W H in Hnat, Hscale.
    exists w, h. split; [exact E|]. split; [exact Hw|]. split; [exact Hh|].
    split; [exact Hnat|].
    intros Hs. destruct (Hscale Hs) as [B1 B2]. unfold pixels in *.
    split; [exact B1|]. split; [exact B2|]. intros Hhalf. apply (Hzero _ _ _) with (2 := B2) (3 := Hhalf). nia.
Qed.

(** A photo of 1000 x 1 asked for a width of 100: the height is zero. *)
Lemma dimensions_natural_flat :
  exists w h : Z,
    getDimensionsWidthMax {| pixel_width := 1000; pixel_height := 1 |} (of_Z 100)
    = {| Dim.width := Fin (inject_Z w); Dim.height := Fin (inject_Z h) |} /\
    (0 < w)%Z /\ (0 <= h)%Z /\
    ((1000 < 100)%Z -> w = 1000%Z /\ h = 1%Z) /\
    ((100 <= 1000)%Z ->
     w = 100%Z /\ nearest (1 * 100) 1000 h /\ ((2 * (1 * 100) < 1000)%Z -> h = 0%Z)).
Proof.
  apply (dimensions_natural {| pixel_width := 1000; pixel_height := 1 |} 100 100);
    unfold pixels; simpl; lia.
Defined.

End RoundingFacts.

(** ** The type of the source *)

Module SourceFacts.

Local Open Scope string_scope.

Lemma split_nonempty (sep : ascii) (s : string) : split sep s <> [].
Proof.
  destruct s as [|c r]; simpl; [discriminate|].
  destruct (Ascii.eqb c sep); [discriminate|].
  destruct (split sep r); discriminate.
Qed.

Lemma split_without (sep : ascii) (s : string) :
  occurs sep s = false -> split sep s = [s].
Proof.
  induction s as [|c r IH]; simpl; [reflexivity|].
  intros H. apply orb_false_iff in H as [Hc Hr].
  rewrite Hc, (IH Hr). reflexivity.
Qed.

(** Splitting at a separator splits both sides. *)
Lemma split_app (sep : ascii) (a b : string) :
  split sep (a ++ String sep b) = (split sep a ++ split sep b)%list.
Proof.
  induction a as [|c a IH]; simpl.
  - now rewrite Ascii.eqb_refl.
  - rewrite IH. destruct (Ascii.eqb c sep); [reflexivity|].
    pose proof (split_nonempty sep a) as Hne.
    destruct (split sep a) as [|seg segs]; [contradiction | reflexivity].
Qed.

Lemma last_app_nonempty {A : Type} (l k : list A) (d : A) :
  k <> [] -> List.last (l ++ k) d = List.last k d.
Proof.
  intros Hk. induction l as [|x l IH]; [reflexivity|].
  simpl. destruct (l ++ k)%list eqn:E; [|exact IH].
  apply app_eq_nil in E as [_ ->]. contradiction.
Qed.

(** The text after the last separator. *)
Lemma pop_split_app (sep : ascii) (a b : string) :
  occurs sep b = false -> pop (split sep (a ++ String sep b)) = b.
Proof.
  intros Hb. unfold pop.
  rewrite split_app, last_app_nonempty by apply split_nonempty.
  now rewrite (split_without sep b Hb).
Qed.

(** A string in which the separator occurs, cut at its last
    occurrence. *)
Lemma last_occurrence (sep : ascii) (s : string) :
  occurs sep s = true ->
  exists a b, s = a ++ String sep b /\ occurs sep b = false.
Proof.
  induction s as [|c r IH]; simpl; [discriminate|].
  intros H. destruct (occurs sep r) eqn:Hr.
  - destruct (IH eq_refl) as (a & b & -> & Hb).
    exists (String c a), b. split; [reflexivity | exact Hb].
  - rewrite orb_false_r in H. apply Ascii.eqb_eq in H as ->.
    exists "", r. split; [reflexivity | exact Hr].
Qed.

Lemma pop_split_without (sep : ascii) (s : string) :
  occurs sep (pop (split sep s)) = false.
Proof.
  destruct (occurs sep s) eqn:E.
  - destruct (last_occurrence sep s E) as (a & b & -> & Hb).
    now rewrite (pop_split_app sep a b Hb).
  - now rewrite (split_without sep s E).
Qed.

Lemma prefix_app (p x : string) : String.prefix p (p ++ x) = true.
Proof.
  induction p as [|c p IH]; simpl; [destruct x; reflexivity|].
  destruct (ascii_dec c c); [exact IH | contradiction].
Qed.

Lemma prefix_inv (p s : string) :
  String.prefix p s = true -> exists x, s = p ++ x.
Proof.
  revert s. induction p as [|c p IH]; intros s H.
  - exists s. reflexivity.
  - destruct s as [|d s]; [discriminate|]. simpl in H.
    destruct (ascii_dec c d) as [->|]; [|discriminate].
    destruct (IH s H) as (x & ->). exists x. reflexivity.
Qed.

Lemma drop_chars_app (p x : string) : drop_chars (String.length p) (p ++ x) = x.
Proof. induction p as [|c p IH]; simpl; [destruct x; reflexivity | exact IH]. Qed.

Lemma remove_first_unfold (p s : string) :
  remove_first p s =
    if String.prefix p s then drop_chars (String.length p) s
    else match s with
         | EmptyString => EmptyString
         | String c r => String c (remove_first p r)
         end.
Proof. destruct s; reflexivity. Qed.

Lemma remove_first_prefix (p x : string) : remove_first p (p ++ x) = x.
Proof. rewrite remove_first_unfold, prefix_app. apply drop_chars_app. Qed.

Lemma append_empty (p : string) : p ++ "" = p.
Proof.
  induction p as [|c p IH]; [reflexivity|].
  change (String c (p ++ "") = String c p). now rewrite IH.
Qed.

Lemma remove_first_empty (p s : string) :
  remove_first p s = "" <-> s = "" \/ s = p.
Proof.
  split.
  - intros H. destruct (String.prefix p s) eqn:E.
    + destruct (prefix_inv p s E) as (x & ->).
      rewrite remove_first_prefix in H. subst x.
      right. apply append_empty.
    + destruct s as [|c r]; [now left|].
      rewrite remove_first_unfold, E in H. discriminate.
  - intros [-> | ->].
    + rewrite remove_first_unfold. destruct p; reflexivity.
    + rewrite <- (append_empty p) at 2. apply remove_first_prefix.
Qed.

(** The call is answered with the type error exactly when the type is
    falsy, whatever the configuration holds. *)
Lemma type_error_reply (resizeLimit : option nat) (source : Source) (config : Config.t) :
  replies (upload resizeLimit source config) = [Failure no_type_error]
  <-> no_type (source_type source) = true.
Proof.
  split.
  - intros H. destruct (no_type (source_type source)) eqn:E; [reflexivity|].
    unfold upload in H. rewrite E in H.
    destruct (Config.files config) as [| |files].
    + simpl in H. unfold no_files_error, no_type_error in H. discriminate H.
    + simpl in H. unfold no_files_error, no_type_error in H. discriminate H.
    + destruct (replenish_open resizeLimit
                  {| pending := files; running := []; images := ∅; errored := false;
                     done := false; called := false; replies := []; completed := [] |}
                  eq_refl eq_refl ltac:(discriminate))
        as [(_ & Hr & _) | (_ & Hr & _)];
        rewrite Hr in H; discriminate H.
  - intros E. unfold upload. rewrite E. reflexivity.
Qed.

Lemma no_type_empty (type : string) : no_type (Some type) = true <-> type = "".
Proof. destruct type; simpl; split; intros H; congruence. Qed.

(** X9: the type of a path is the text after its last dot, the whole path
    when it has none; the type holds no dot. *)
Theorem path_type (path : string) :
  occurs "." (type (SourcePath path)) = false /\
  (occurs "." path = false -> type (SourcePath path) = path) /\
  (forall a b, path = a ++ String "." b -> occurs "." b = false ->
               type (SourcePath path) = b).
Proof.
  unfold type. simpl. split; [apply pop_split_without|]. split.
  - intros H. now rewrite (split_without "." path H).
  - intros a b -> Hb. apply pop_split_app. exact Hb.
Qed.

(** X10: a path is refused for its type exactly when it is empty or ends
    with a dot; a path without any dot is accepted. *)
Theorem path_type_error (resizeLimit : option nat) (config : Config.t) (path : string) :
  replies (upload resizeLimit (SourcePath path) config) = [Failure no_type_error]
  <-> path = "" \/ exists base, path = base ++ ".".
Proof.
  rewrite type_error_reply. unfold source_type. rewrite no_type_empty. split.
  - intros H. destruct (occurs "." path) eqn:E.
    + destruct (last_occurrence "." path E) as (a & b & -> & Hb).
      rewrite (pop_split_app "." a b Hb) in H. subst b.
      right. exists a. reflexivity.
    + rewrite (split_without "." path E) in H. left. exact H.
  - intros [-> | (base & ->)]; [reflexivity|].
    apply (pop_split_app "." base ""). reflexivity.
Qed.

(** X11: an uploaded file is refused for its type exactly when its mimetype
    is missing, empty or ["image/"]; the type of ["image/x"] is [x]. *)
Theorem mimetype_type_error
    (resizeLimit : option nat) (config : Config.t)
    (mimetype : option string) (buffer : list Byte.byte) :
  (replies (upload resizeLimit (SourceUpload mimetype buffer) config)
   = [Failure no_type_error]
   <-> mimetype = None \/ mimetype = Some "" \/ mimetype = Some "image/") /\
  (forall x, mimetype = Some ("image/" ++ x) ->
             type (SourceUpload mimetype buffer) = x).
Proof.
  split.
  - rewrite type_error_reply. destruct mimetype as [m|]; unfold source_type.
    + rewrite no_type_empty, remove_first_empty. split.
      * intros [-> | ->]; [right; left | right; right]; reflexivity.
      * intros [H | [H | H]]; [discriminate H | left | right]; congruence.
    + split; [now left | reflexivity].
  - intros x ->. unfold type. simpl.
    apply (remove_first_prefix "image/" x).
Qed.

(** *** Sample paths and mimetypes *)

Lemma path_type_archive :
  type (SourcePath "photos/archive.tar.gz") = "gz".
Proof.
  apply (path_type "photos/archive.tar.gz") with (a := "photos/archive.tar");
    reflexivity.
Defined.

Lemma path_type_error_trailing_dot :
  replies (upload None (SourcePath "photo.") (Sample.config (FilesArray [])))
  = [Failure no_type_error].
Proof.
  apply (path_type_error None (Sample.config (FilesArray [])) "photo.").
  right. exists "photo". reflexivity.
Defined.

Lemma mimetype_type_error_png :
  type (SourceUpload (Some "image/png") []) = "png".
Proof.
  apply (mimetype_type_error None (Sample.config (FilesArray []))
           (Some "image/png") []).
  reflexivity.
Defined.

End SourceFacts.

(** ** The limiter *)

Section LimiterFacts.

Variable staticUrl : string.
Variable resizeLimit : option nat.
Variable lwip_open : Source -> string -> Error + Image.
Variable toBuffer : Image -> list Op -> string -> Error + list Byte.byte.
Variable throws : Op -> bool.
Variable template : string -> File.t -> string.
Variable uploadFromBuffer : list Byte.byte -> string -> Error + string.
Variable source : Source.
Variable config : Config.t.

Local Abbreviation task := (task staticUrl lwip_open toBuffer template uploadFromBuffer source config).
Local Abbreviation limit := (limit resizeLimit).
Local Abbreviation replenish := (replenish resizeLimit).
Local Abbreviation complete :=
  (complete staticUrl resizeLimit lwip_open toBuffer template uploadFromBuffer source config).
Local Abbreviation step :=
  (step staticUrl resizeLimit lwip_open toBuffer throws template uploadFromBuffer
     source config).
Local Abbreviation upload := (upload resizeLimit source config).
Local Abbreviation steps :=
  (steps staticUrl resizeLimit lwip_open toBuffer throws template uploadFromBuffer
     source config).
Local Abbreviation succeeded :=
  (succeeded staticUrl lwip_open toBuffer template uploadFromBuffer source config).
Local Abbreviation invariant :=
  (invariant staticUrl resizeLimit lwip_open toBuffer template uploadFromBuffer
     source config).

(** The limiter starts as many tasks as the limit allows. *)
Lemma replenish_saturated (s : State) :
  (length (running s) <= limit)%nat ->
  (done s = true -> pending s = []) ->
  saturated resizeLimit (replenish s).
Proof.
  intros Hl Hd. unfold saturated, Batch.replenish.
  destruct (done s && (length (running s) =? 0)%nat) eqn:E1.
  { destruct (final_callback_fields None s) as (-> & _).
    intros _ Hp. apply andb_true_iff in E1 as [E1 _].
    rewrite (Hd E1) in Hp. contradiction. }
  destruct (errored s) eqn:Ee; [intros He; congruence|].
  cbv zeta. simpl running. simpl pending.
  destruct (length (running s ++ take (limit - length (running s)) (pending s)) <? limit)%nat eqn:E2.
  - apply Nat.ltb_lt in E2.
    assert (Hdrop : drop (limit - length (running s)) (pending s) = []).
    { apply drop_ge. rewrite length_app, length_take in E2. lia. }
    intros _ Hp. exfalso. apply Hp.
    destruct (length (running s ++ take (limit - length (running s)) (pending s)) =? 0)%nat.
    + match goal with |- pending (final_callback ?e ?t) = [] =>
        destruct (final_callback_fields e t) as (-> & _) end.
      exact Hdrop.
    + exact Hdrop.
  - apply Nat.ltb_ge in E2. simpl. intros _ _.
    rewrite length_app, length_take in *. lia.
Qed.

Lemma saturated_step (files : list File.t) (s s' : State) :
  invariant files s -> step s s' -> saturated resizeLimit s'.
Proof.
  intros [Hfiles Hlimit Hdone Hsound Hcomplete Hown Hreplies] Hstep.
  destruct Hstep as [s before c after Hrun _].
  unfold Batch.complete. destruct (task c) as [err|[k entry]].
  - intros He. simpl in He. discriminate He.
  - apply replenish_saturated; simpl.
    + rewrite Hrun in Hlimit. rewrite !length_app in *. simpl in Hlimit. lia.
    + exact Hdone.
Qed.

(** After the final callback has run with an error, a task that calls
    back changes neither the reply nor the tasks left to start. *)
Lemma step_after_failure (s s' : State) :
  called s = true -> errored s = true -> step s s' ->
  called s' = true /\ errored s' = true /\
  pending s' = pending s /\ replies s' = replies s /\
  S (length (running s')) = length (running s).
Proof.
  intros Hc He Hstep. destruct Hstep as [s before c after Hrun _].
  assert (Hlen : S (length (before ++ after)) = length (running s)).
  { rewrite Hrun, !length_app. simpl. lia. }
  unfold Batch.complete, Batch.replenish, final_callback.
  destruct (task c) as [err|[k entry]]; simpl; rewrite ?Hc, ?He; simpl.
  - repeat split; auto.
  - destruct (done s && (length (before ++ after) =? 0)%nat); simpl;
      repeat split; auto.
Qed.

Lemma steps_after_failure (m : nat) (s s' : State) :
  called s = true -> errored s = true -> steps m s s' ->
  called s' = true /\ errored s' = true /\
  pending s' = pending s /\ replies s' = replies s /\
  (length (running s') + m = length (running s))%nat.
Proof.
  intros Hc He Hsteps. induction Hsteps as [s|m s s' s'' _ IH Hstep].
  - repeat split; auto.
  - destruct (IH Hc He) as (Hc' & He' & Hp & Hr & Hl).
    destruct (step_after_failure s' s'' Hc' He' Hstep) as (H1 & H2 & H3 & H4 & H5).
    repeat split; auto; try congruence. lia.
Qed.

(** The entries of the object a call succeeds with. *)
Lemma success_entries (files : list File.t) (s : State) (m : Images) :
  invariant files s -> replies s = [Success m] ->
  (forall k v, stored k m = Some v -> exists c, c ∈ files /\ task c = inr (k, v)) /\
  (forall c, c ∈ files -> exists v, task c = inr (file_key c, v) /\
                                    is_Some (stored (file_key c) m)) /\
  own m !! "__proto__"%string = None.
Proof.
  intros [Hfiles Hlimit Hdone Hsound Hcomplete Hown Hreplies] Hm.
  rewrite Hm in Hreplies. destruct Hreplies as (_ & -> & Hp & Hr & Hall).
  rewrite Hp, Hr in Hfiles. simpl in Hfiles.
  rewrite Forall_forall in Hall. split; [|split; [|exact Hown]].
  - intros k v Hk. destruct (Hsound k v Hk) as (c & Hc & Htask).
    exists c. split; [now rewrite <- Hfiles | exact Htask].
  - intros c Hc. rewrite <- Hfiles in Hc.
    destruct (Hall c Hc) as (k & v & Hk).
    destruct (task_key _ _ _ _ _ _ _ c k v Hk) as [-> _].
    exists v. split; [exact Hk | apply (Hcomplete c _ v Hc Hk)].
Qed.

(** X12: never more than [resizeLimit] tasks (8 when it is not set, or 0)
    are running, and exactly that many as long as no task has failed
    and some file is left to start. *)
Theorem running_limit (files : list File.t) (n : nat) (s : State) :
  no_type (source_type source) = false ->
  Config.files config = FilesArray files ->
  steps n upload s ->
  (length (running s) <= limit)%nat /\
  saturated resizeLimit s /\
  (resizeLimit = None \/ resizeLimit = Some 0%nat -> limit = 8%nat) /\
  (forall k, resizeLimit = Some (S k) -> limit = S k).
Proof.
  intros Ht Hf Hsteps.
  unfold Batch.upload in Hsteps. rewrite Ht, Hf in Hsteps.
  split; [|split; [|split]].
  - apply (invariant_steps _ _ _ _ _ _ _ _ _ files n _ s
             (invariant_upload _ _ _ _ _ _ _ _ files) Hsteps).
  - inversion Hsteps as [s0|n0 s0 s1 s2 Hbefore Hstep]; subst.
    + apply replenish_saturated; simpl; [lia | discriminate].
    + apply (saturated_step files s1 s); [|exact Hstep].
      apply (invariant_steps _ _ _ _ _ _ _ _ _ files n0 _ s1
               (invariant_upload _ _ _ _ _ _ _ _ files) Hbefore).
  - unfold Batch.limit. intros [-> | ->]; reflexivity.
  - unfold Batch.limit. intros k ->. reflexivity.
Qed.

(** X13: once a task has failed and the caller has got its error, no
    further task is started: the tasks that are running call back one
    by one, the files left to start stay where they are, and the reply
    stays the one error. *)
Theorem failure_starts_nothing
    (files : list File.t) (n m : nat) (s s' : State) (e : Error) :
  no_type (source_type source) = false ->
  Config.files config = FilesArray files ->
  steps n upload s ->
  replies s = [Failure e] ->
  steps m s s' ->
  replies s' = [Failure e] /\ pending s' = pending s /\
  (length (running s') + m = length (running s))%nat.
Proof.
  intros Ht Hf Hsteps He Hmore.
  unfold Batch.upload in Hsteps. rewrite Ht, Hf in Hsteps.
  destruct (invariant_steps _ _ _ _ _ _ _ _ _ files n _ s
              (invariant_upload _ _ _ _ _ _ _ _ files) Hsteps)
    as [[_ _ _ _ _ _ Hreplies] _].
  rewrite He in Hreplies. destruct Hreplies as (Hc & Herr & _).
  destruct (steps_after_failure m s s' Hc Herr Hmore) as (_ & _ & Hp & Hr & Hl).
  rewrite Hr, He. auto.
Qed.

(** X14: the caller gets the object only when the task of every file
    has called back; its keys are the keys of the configured files
    other than ["__proto__"]. *)
Theorem success_after_all
    (files : list File.t) (n : nat) (s : State) (m : Images) :
  no_type (source_type source) = false ->
  Config.files config = FilesArray files ->
  steps n upload s ->
  replies s = [Success m] ->
  n = length files /\ pending s = [] /\ running s = [] /\
  dom (own m) = list_to_set (file_key <$> files) ∖ {["__proto__"%string]}.
Proof.
  intros Ht Hf Hsteps Hm.
  unfold Batch.upload in Hsteps. rewrite Ht, Hf in Hsteps.
  destruct (invariant_steps _ _ _ _ _ _ _ _ _ files n _ s
              (invariant_upload _ _ _ _ _ _ _ _ files) Hsteps) as [Hinv Hlen].
  destruct (success_entries files s m Hinv Hm) as (Hfrom & Hto & Hown).
  destruct Hinv as [Hfiles _ _ _ _ _ Hreplies].
  rewrite Hm in Hreplies. destruct Hreplies as (_ & _ & Hp & Hr & _).
  rewrite replenish_completed in Hlen. simpl in Hlen.
  split; [|split; [exact Hp|split; [exact Hr|]]].
  - apply Permutation_length in Hfiles.
    rewrite Hp, Hr in Hfiles. simpl in Hfiles. lia.
  - apply set_eq. intros k.
    rewrite elem_of_dom, elem_of_difference, elem_of_list_to_set,
      list_elem_of_fmap, not_elem_of_singleton.
    split.
    + intros [v Hk].
      assert (Hne : k <> "__proto__"%string) by (intros ->; congruence).
      split; [|exact Hne].
      destruct (Hfrom k v) as (c & Hc & Htask).
      { unfold stored. apply String.eqb_neq in Hne. now rewrite Hne. }
      destruct (task_key _ _ _ _ _ _ _ c k v Htask) as [-> _].
      exists c. split; [reflexivity | exact Hc].
    + intros [(c & -> & Hc) Hne]. destruct (Hto c Hc) as (v & _ & Hv).
      unfold stored in Hv. apply String.eqb_neq in Hne. now rewrite Hne in Hv.
Qed.

(** X15: when the keys of the files are distinct, the mapping the caller
    gets does not depend on the order in which the tasks call back. *)
Theorem order_independent
    (files : list File.t) (n1 n2 : nat) (s1 s2 : State)
    (m1 m2 : Images) :
  no_type (source_type source) = false ->
  Config.files config = FilesArray files ->
  NoDup (file_key <$> files) ->
  steps n1 upload s1 -> replies s1 = [Success m1] ->
  steps n2 upload s2 -> replies s2 = [Success m2] ->
  m1 = m2.
Proof.
  intros Ht Hf Hnd Hsteps1 Hm1 Hsteps2 Hm2.
  unfold Batch.upload in Hsteps1, Hsteps2. rewrite Ht, Hf in Hsteps1, Hsteps2.
  destruct (invariant_steps _ _ _ _ _ _ _ _ _ files n1 _ s1
              (invariant_upload _ _ _ _ _ _ _ _ files) Hsteps1) as [Hinv1 _].
  destruct (invariant_steps _ _ _ _ _ _ _ _ _ files n2 _ s2
              (invariant_upload _ _ _ _ _ _ _ _ files) Hsteps2) as [Hinv2 _].
  assert (Hone : forall (sa sb : State) (ma mb : Images),
             invariant files sa -> replies sa = [Success ma] ->
             invariant files sb -> replies sb = [Success mb] ->
             forall k v, stored k ma = Some v -> stored k mb = Some v).
  { intros sa sb ma mb Hia Hma Hib Hmb k v Hk.
    destruct (success_entries files sa ma Hia Hma) as (Hfrom & _ & _).
    destruct (success_entries files sb mb Hib Hmb) as (Hfrom' & Hto' & _).
    destruct (Hfrom k v Hk) as (c & Hc & Htask).
    destruct (task_key _ _ _ _ _ _ _ c k v Htask) as [-> _].
    destruct (Hto' c Hc) as (_ & _ & [v' Hv']).
    destruct (Hfrom' _ v' Hv') as (c' & Hc' & Htask').
    destruct (task_key _ _ _ _ _ _ _ c' _ v' Htask') as [Hkey _].
    assert (c' = c) by (apply (NoDup_fmap_eq file_key files); auto).
    subst c'. rewrite Htask in Htask'. injection Htask' as <-. exact Hv'. }
  destruct (success_entries files s1 m1 Hinv1 Hm1) as (_ & _ & Hown1).
  destruct (success_entries files s2 m2 Hinv2 Hm2) as (_ & _ & Hown2).
  apply stored_ext; [exact Hown1 | exact Hown2 |]. intros k.
  destruct (stored k m1) as [v|] eqn:E1.
  - symmetry. apply (Hone s1 s2 m1 m2 Hinv1 Hm1 Hinv2 Hm2 k v E1).
  - destruct (stored k m2) as [v|] eqn:E2; [|reflexivity].
    rewrite (Hone s2 s1 m2 m1 Hinv2 Hm2 Hinv1 Hm1 k v E2) in E1. discriminate E1.
Qed.

(** X16: with a non-empty [files] array [upload] returns before the
    caller is called back: the first [limit] files are being processed,
    in the order of the configuration, the others wait. *)
Theorem upload_starts (files : list File.t) :
  no_type (source_type source) = false ->
  Config.files config = FilesArray files ->
  files <> [] ->
  replies upload = [] /\
  running upload = take limit files /\
  pending upload = drop limit files.
Proof.
  intros Ht Hf Hne. pose proof (limit_pos resizeLimit) as Hl.
  assert (Hlen : length (take limit files) <> 0%nat).
  { rewrite length_take. destruct files; [contradiction|]. simpl. lia. }
  unfold Batch.upload. rewrite Ht, Hf. unfold Batch.replenish, final_callback.
  cbn [done andb errored running pending called replies images completed
       length app]. rewrite Nat.sub_0_r.
  destruct (length (take limit files) <? limit)%nat;
    cbn [done andb errored running pending called replies images completed];
    [|auto].
  destruct (length (take limit files) =? 0)%nat eqn:E;
    [apply Nat.eqb_eq in E; contradiction|].
  auto.
Qed.

End LimiterFacts.

(** *** The sample runs *)

Module RunFacts.

Import Sample Runs.

Lemma thumb_then_offset :
  steps staticUrl None lwip_open toBuffer throws template uploadFromBuffer
    source (config (FilesArray files)) 2 started thumb_first.
Proof.
  apply steps_more with (s' := thumb_done).
  - apply steps_more with (s' := started); [apply steps_none|].
    apply (step_complete _ _ _ _ _ _ _ _ _ started [] thumb [offset_thumb]);
      [reflexivity | vm_compute; reflexivity].
  - apply (step_complete _ _ _ _ _ _ _ _ _ thumb_done [] offset_thumb []);
      [reflexivity | vm_compute; reflexivity].
Defined.

Lemma offset_then_thumb :
  steps staticUrl None lwip_open toBuffer throws template uploadFromBuffer
    source (config (FilesArray files)) 2 started offset_first.
Proof.
  apply steps_more with (s' := offset_done).
  - apply steps_more with (s' := started); [apply steps_none|].
    apply (step_complete _ _ _ _ _ _ _ _ _ started [thumb] offset_thumb []);
      [reflexivity | vm_compute; reflexivity].
  - apply (step_complete _ _ _ _ _ _ _ _ _ offset_done [] thumb []);
      [reflexivity | vm_compute; reflexivity].
Defined.

Lemma thumb_is_refused :
  steps staticUrl None lwip_open toBuffer throws template refused
    source (config (FilesArray files)) 1 started thumb_refused.
Proof.
  apply steps_more with (s' := started); [apply steps_none|].
  apply (step_complete _ _ _ _ _ _ _ _ _ started [] thumb [offset_thumb]);
    [reflexivity | vm_compute; reflexivity].
Defined.

Lemma offset_is_refused :
  steps staticUrl None lwip_open toBuffer throws template refused
    source (config (FilesArray files)) 1 thumb_refused both_refused.
Proof.
  apply steps_more with (s' := thumb_refused); [apply steps_none|].
  apply (step_complete _ _ _ _ _ _ _ _ _ thumb_refused [] offset_thumb []);
    [reflexivity | vm_compute; reflexivity].
Defined.





Lemma running_limit_thumb_done :
  (length (running thumb_done) <= limit None)%nat /\ limit None = 8%nat.
Proof.
  destruct (running_limit staticUrl None lwip_open toBuffer throws template
              uploadFromBuffer source (config (FilesArray files)) files 1 thumb_done
              eq_refl eq_refl)
    as (H1 & _ & H2 & _).
  - apply steps_more with (s' := started); [apply steps_none|].
    apply (step_complete _ _ _ _ _ _ _ _ _ started [] thumb [offset_thumb]);
      [reflexivity | vm_compute; reflexivity].
  - split; [exact H1 | apply H2; left; reflexivity].
Defined.

Lemma failure_starts_nothing_refused :
  replies both_refused = [Failure (MkError "refused")] /\
  pending both_refused = pending thumb_refused /\
  (length (running both_refused) + 1 = length (running thumb_refused))%nat.
Proof.
  apply (failure_starts_nothing staticUrl None lwip_open toBuffer throws template
           refused source (config (FilesArray files)) files 1 1 thumb_refused
           both_refused (MkError "refused") eq_refl eq_refl thumb_is_refused eq_refl
           offset_is_refused).
Defined.

Lemma success_after_all_thumb_first :
  2%nat = length files /\ pending thumb_first = [] /\ running thumb_first = [] /\
  dom (own (images thumb_first))
  = list_to_set (file_key <$> files) ∖ {["__proto__"%string]}.
Proof.
  apply (success_after_all staticUrl None lwip_open toBuffer throws template
           uploadFromBuffer source (config (FilesArray files)) files 2 thumb_first
           (images thumb_first) eq_refl eq_refl thumb_then_offset).
  vm_compute. reflexivity.
Defined.

Lemma order_independent_sample : images thumb_first = images offset_first.
Proof.
  apply (order_independent staticUrl None lwip_open toBuffer throws template
           uploadFromBuffer source (config (FilesArray files)) files 2 2 thumb_first
           offset_first (images thumb_first) (images offset_first) eq_refl eq_refl).
  - apply (bool_decide_eq_true_1 _). vm_compute. reflexivity.
  - exact thumb_then_offset.
  - vm_compute. reflexivity.
  - exact offset_then_thumb.
  - vm_compute. reflexivity.
Defined.

Lemma upload_starts_both :
  replies started = [] /\
  running started = take (limit None) files /\
  pending started = drop (limit None) files.
Proof.
  apply (upload_starts None source (config (FilesArray files)) files eq_refl eq_refl).
  discriminate.
Defined.

End RunFacts.

(** ** The transformations of one file *)

Module TransformFacts.

Import JS JSFacts GeometryFacts CropFacts GeometryMore.

Lemma max_integers (a b : Z) :
  max (Fin (inject_Z a)) (Fin (inject_Z b)) = Fin (inject_Z (Z.max a b)).
Proof.
  unfold max. rewrite lt_integers.
  destruct (Z.ltb_spec a b) as [H|H]; do 2 f_equal; lia.
Qed.

Lemma resize_pass_sizes (config : Config.t) (c : File.t) (image : Image) :
  exists op, resize_pass config c image = [op] /\ sizes op = true.
Proof.
  unfold resize_pass. repeat case_match; eexists; split; reflexivity.
Qed.

Lemma crop_pass_cuts (c : File.t) :
  File.crop c = true -> exists op, crop_pass c = [op] /\ cuts op = true.
Proof.
  intros H. unfold crop_pass. rewrite H.
  case_match; eexists; split; reflexivity.
Qed.

(** X17: nothing is queued when neither dimension is given; otherwise one
    operation that sets the size, followed by one crop exactly when
    [c.crop] is set. *)
Theorem transformations_shape (config : Config.t) (c : File.t) (image : Image) :
  match transformations config c image with
  | [] => value_truthy (file_width c) || value_truthy (file_height c) = false
  | [op] =>
      value_truthy (file_width c) || value_truthy (file_height c) = true /\
      sizes op = true /\ File.crop c = false
  | [op; crop] =>
      value_truthy (file_width c) || value_truthy (file_height c) = true /\
      sizes op = true /\ cuts crop = true /\ File.crop c = true
  | _ => False
  end.
Proof.
  unfold transformations.
  destruct (value_truthy (file_width c) || value_truthy (file_height c));
    [|reflexivity].
  destruct (resize_pass_sizes config c image) as (op & -> & Hop).
  destruct (File.crop c) eqn:Hcrop.
  - destruct (crop_pass_cuts c Hcrop) as (crop & -> & Hcut). simpl. auto.
  - unfold crop_pass. rewrite Hcrop. simpl. auto.
Qed.

(** X18: without [c.crop] only [width] and [height] count: [adapt], [top],
    [left] and the pad colours change nothing. *)
Theorem no_crop_ignores (config config' : Config.t) (c c' : File.t) (image : Image) :
  File.crop c = false -> File.crop c' = false ->
  File.width c = File.width c' -> File.height c = File.height c' ->
  transformations config c image = transformations config' c' image.
Proof.
  intros Hc Hc' Hw Hh.
  unfold transformations, resize_pass, crop_pass, file_width, file_height.
  rewrite Hc, Hc', Hw, Hh. reflexivity.
Qed.

(** X19: with one dimension only, [adapt] is not looked at, and a crop
    without offsets is asked with [false] for the missing side. *)
Theorem single_dimension (config : Config.t) (c : File.t) (image : Image) (t : Z) :
  pixels t ->
  (File.width c = Some t ->
   File.height c = None \/ File.height c = Some 0%Z ->
   let dim := getDimensionsWidthMax image (of_Z t) in
   transformations config c image
   = Resize (Dim.width dim) (Dim.height dim) :: crop_pass c /\
   (File.crop c = true ->
    gt (crop_top c) (Fin 0) || gt (crop_left c) (Fin 0) = false ->
    crop_pass c = [CropSize (VNumber (of_Z t)) VFalse])) /\
  (File.height c = Some t ->
   File.width c = None \/ File.width c = Some 0%Z ->
   let dim := getDimensionsHeightMax image (of_Z t) in
   transformations config c image
   = Resize (Dim.width dim) (Dim.height dim) :: crop_pass c /\
   (File.crop c = true ->
    gt (crop_top c) (Fin 0) || gt (crop_left c) (Fin 0) = false ->
    crop_pass c = [CropSize VFalse (VNumber (of_Z t))])).
Proof.
  intros Pt.
  assert (Et : or_false (Some t) = VNumber (of_Z t)).
  { rewrite (pixels_exact t Pt). apply or_false_pixels. exact Pt. }
  assert (Tt : value_truthy (VNumber (of_Z t)) = true).
  { rewrite (pixels_exact t Pt). apply truthy_integer. unfold pixels in Pt. lia. }
  assert (E0 : forall x, x = None \/ x = Some 0%Z -> or_false x = VFalse).
  { intros x [-> | ->]; reflexivity. }
  split.
  - intros Hw Hh dim.
    assert (Ew : file_width c = VNumber (of_Z t)) by (unfold file_width; now rewrite Hw).
    assert (Eh : file_height c = VFalse) by (unfold file_height; now apply E0).
    split.
    + unfold transformations, resize_pass. rewrite Ew, Eh, Tt. reflexivity.
    + intros Hcrop Hoff. unfold crop_pass. rewrite Hcrop, Hoff, Ew, Eh. reflexivity.
  - intros Hh Hw dim.
    assert (Eh : file_height c = VNumber (of_Z t)) by (unfold file_height; now rewrite Hh).
    assert (Ew : file_width c = VFalse) by (unfold file_width; now apply E0).
    split.
    + unfold transformations, resize_pass. rewrite Ew, Eh, Tt. reflexivity.
    + intros Hcrop Hoff. unfold crop_pass. rewrite Hcrop, Hoff, Ew, Eh. reflexivity.
Qed.

(** X20: with [c.crop], both dimensions and [c.adapt], the image is
    contained in a square of the longer side when [adapt] is [true],
    of side [adapt] when it is a number, in [adapt.width] by
    [adapt.height] when it is an object that has both; an object that
    lacks one of them is itself handed to the codec as width and as
    height. *)
Theorem adapt_contain (config : Config.t) (c : File.t) (image : Image) (tw th : Z) :
  File.crop c = true ->
  File.width c = Some tw -> File.height c = Some th ->
  pixels tw -> pixels th ->
  let colour := color_pad config c in
  (File.adapt c = Some (AdaptBoolean true) ->
   resize_pass config c image
   = [Contain (VNumber (Fin (inject_Z (Z.max tw th))))
              (VNumber (Fin (inject_Z (Z.max tw th)))) colour]) /\
  (forall n, pixels n -> File.adapt c = Some (AdaptNumber n) ->
   resize_pass config c image
   = [Contain (VNumber (Fin (inject_Z n))) (VNumber (Fin (inject_Z n))) colour]) /\
  (forall aw ah, pixels aw -> pixels ah ->
   File.adapt c = Some (AdaptObject (Some aw) (Some ah)) ->
   resize_pass config c image
   = [Contain (VNumber (Fin (inject_Z aw))) (VNumber (Fin (inject_Z ah))) colour]) /\
  (forall ow oh,
   ow = None \/ ow = Some 0%Z \/ oh = None \/ oh = Some 0%Z ->
   File.adapt c = Some (AdaptObject ow oh) ->
   resize_pass config c image = [Contain (VObject ow oh) (VObject ow oh) colour]).
Proof.
  intros Hcrop Hw Hh Ptw Pth colour.
  assert (Ew : file_width c = VNumber (Fin (inject_Z tw))).
  { unfold file_width. rewrite Hw. apply or_false_pixels. exact Ptw. }
  assert (Eh : file_height c = VNumber (Fin (inject_Z th))).
  { unfold file_height. rewrite Hh. apply or_false_pixels. exact Pth. }
  assert (Tp : forall z, pixels z -> truthy (Fin (inject_Z z)) = true).
  { intros z Pz. apply truthy_integer. unfold pixels in Pz. lia. }
  assert (Hboth : value_truthy (file_width c) && value_truthy (file_height c) = true).
  { rewrite Ew, Eh. unfold value_truthy. now rewrite (Tp tw Ptw), (Tp th Pth). }
  unfold resize_pass. rewrite Hboth, Hcrop. fold colour.
  split; [|split; [|split]].
  - intros ->. cbn [adapt_truthy]. rewrite Ew, Eh. cbn [to_number].
    rewrite max_integers. reflexivity.
  - intros n Pn ->. cbn [adapt_truthy adapt_value].
    rewrite (pixels_exact n Pn), (Tp n Pn). reflexivity.
  - intros aw ah Paw Pah ->. cbn [adapt_truthy].
    rewrite (pixels_exact aw Paw), (pixels_exact ah Pah), (Tp aw Paw), (Tp ah Pah).
    reflexivity.
  - intros ow oh Hmiss ->. cbn [adapt_truthy adapt_value].
    destruct ow as [aw|]; [|reflexivity].
    destruct oh as [ah|]; [|reflexivity].
    assert (Hfalsy : truthy (of_Z aw) && truthy (of_Z ah) = false).
    { destruct Hmiss as [H | [H | [H | H]]]; try discriminate H;
        injection H as ->; [reflexivity | apply andb_false_r]. }
    rewrite Hfalsy. reflexivity.
Qed.


(** *** Sample files *)

Lemma no_crop_ignores_boxed :
  transformations (Sample.config FilesUndefined) Variants.boxed Sample.photo
  = transformations (Sample.config FilesUndefined) Variants.boxed_adapt Sample.photo.
Proof.
  apply (no_crop_ignores (Sample.config FilesUndefined) (Sample.config FilesUndefined)
           Variants.boxed Variants.boxed_adapt Sample.photo);
    reflexivity.
Defined.

Lemma single_dimension_wide :
  crop_pass Variants.wide = [CropSize (VNumber (of_Z 100)) VFalse].
Proof.
  assert (P : pixels 100) by (unfold pixels; lia).
  destruct (single_dimension (Sample.config FilesUndefined) Variants.wide
              Sample.photo 100 P) as [H _].
  destruct (H eq_refl (or_introl eq_refl)) as [_ Hcrop].
  exact (Hcrop eq_refl eq_refl).
Defined.

Lemma adapt_contain_squared :
  resize_pass (Sample.config FilesUndefined) Variants.squared Sample.photo
  = [Contain (VNumber (Fin (inject_Z (Z.max 100 50))))
             (VNumber (Fin (inject_Z (Z.max 100 50))))
             (color_pad (Sample.config FilesUndefined) Variants.squared)].
Proof.
  assert (P : pixels 100) by (unfold pixels; lia).
  assert (P' : pixels 50) by (unfold pixels; lia).
  destruct (adapt_contain (Sample.config FilesUndefined) Variants.squared
              Sample.photo 100 50 eq_refl eq_refl eq_refl P P') as [H _].
  exact (H eq_refl).
Defined.


End TransformFacts.
